(** * Space shooter: the per-frame simulation core of [Game3D]

    A shallow embedding of [src/lib/gameUtils.ts] (entities, [ObjectPool],
    [checkCollision], [clampPosition]) and of the game component
    ([PlayerController]: [shootBullet], the spawners and the [useFrame]
    callback; [Game3D]: [updateGameState], [startGame], [togglePause] and the
    keyboard shortcuts).

    Conventions of the embedding.
    - A JavaScript [number] that holds a coordinate, a speed, a radius or an
      accumulated time is a real number ([R]); rounding of IEEE doubles is not
      modelled.  A [number] that holds a count or a time stamp (health, score,
      level, wave, [Date.now()]) is an integer ([Z]): the program only ever
      adds or subtracts integers to them, starting from integer literals.
    - A [THREE.Mesh] is a handle (the player's box, or a sphere named by the
      rank of its construction).  In the frame callback ([frame] and its
      blocks) the [THREE.Vector3] an entity shares with its mesh is the
      entity's [position] field, one per entity: this is the program as long
      as no mesh is held by two entities of the stores.  Two entities hold
      one mesh when a pool hands out a released mesh while the entity that
      released it is still in its array; they then move one vector.  The
      update pass is given a second time on the vectors of the meshes
      ([updateBulletsShared], [updateEnemiesShared], [updatePowerUpsShared]),
      where this sharing shows, and the two are proved to agree when no mesh
      is shared.  The scene graph, the camera, mesh rotation, the particle
      animation and the audio belong to the renderer and the audio
      collaborator and are left out.
    - [Game3D] renders [PlayerController] only while the status is playing;
      [frame] is the callback of one instance, and [render] is what mounts
      and unmounts the instances.
    - The [THREE.Vector3] methods are those of three.js.
    - [Math.random()] is an oracle [nat -> R]: the k-th call of a run returns
      the k-th value.  [Date.now()] is an argument.
    - React state: the frame callback reads the [gameState] snapshot of the
      last render and queues partial updates ([onGameStateChange]); the
      queued updates are merged in order into the previous state, as
      [setGameState (prev => ({...prev, ...updates}))] does. *)

From Stdlib Require Import Reals Lra Lia ZArith List Bool String Permutation.
Import ListNotations.

Open Scope R_scope.

(** ** Numbers *)

Definition Rltb (x y : R) : bool := if Rlt_dec x y then true else false.
Definition Rgtb (x y : R) : bool := Rltb y x.

(** ** THREE.Vector3 (the methods the game calls) *)

Module Vector3.

Record t := mk { x : R; y : R; z : R }.

Definition zero : t := mk 0 0 0.

Definition add (a b : t) : t := mk (x a + x b) (y a + y b) (z a + z b).
Definition sub (a b : t) : t := mk (x a - x b) (y a - y b) (z a - z b).
Definition multiplyScalar (a : t) (s : R) : t := mk (x a * s) (y a * s) (z a * s).
Definition divideScalar (a : t) (s : R) : t := multiplyScalar a (1 / s).

Definition lengthSq (a : t) : R := x a * x a + y a * y a + z a * z a.
Definition length (a : t) : R := sqrt (lengthSq a).

(** [x || 1] on numbers: 0 is falsy. *)
Definition orOne (l : R) : R := if Req_dec_T l 0 then 1 else l.

Definition normalize (a : t) : t := divideScalar a (orOne (length a)).

Definition clampLength (a : t) (lo hi : R) : t :=
  let l := length a in
  multiplyScalar (divideScalar a (orOne l)) (Rmax lo (Rmin hi l)).

Definition distanceToSquared (a b : t) : R :=
  let dx := x a - x b in
  let dy := y a - y b in
  let dz := z a - z b in
  dx * dx + dy * dy + dz * dz.

Definition distanceTo (a b : t) : R := sqrt (distanceToSquared a b).

End Vector3.

Definition Vec : Type := Vector3.t.

(** ** gameUtils.ts: the data model *)

Inductive Mesh := playerMesh | sphere (serial : nat).

Inductive EntityType := player | enemy | bullet | powerup.

(** The [id] strings: ['player'], [`bullet-${now}`],
    [`enemy-${Date.now()}-${Math.random()}`], [`powerup-${Date.now()}`]. *)
Inductive EntityId :=
| IdPlayer
| IdBullet (now : Z)
| IdEnemy (now : Z) (rnd : R)
| IdPowerUp (now : Z).

Record GameEntity := mkEntity {
  id : EntityId;
  mesh : Mesh;
  position : Vec;
  velocity : Vec;
  health : Z;
  maxHealth : Z;
  type : EntityType;
  active : bool;
  radius : R
}.

Inductive PowerUpType := shield | weapon | healthUp.

Record PowerUp := mkPowerUp {
  pu_id : EntityId;
  pu_type : PowerUpType;
  pu_duration : Z;
  pu_active : bool;
  pu_startTime : Z
}.

Inductive Status := menu | playing | paused | gameover.

Record GameState := mkGameState {
  status : Status;
  score : Z;
  level : Z;
  gs_health : Z;
  gs_maxHealth : Z;
  gs_shield : Z;
  maxShield : Z;
  lives : Z;
  wave : Z;
  enemiesRemaining : Z;
  activePowerUps : list PowerUp
}.

(** ** gameUtils.ts: [checkCollision] and [clampPosition] *)

Definition checkCollision (entity1 entity2 : GameEntity) : bool :=
  let distance := Vector3.distanceTo (position entity1) (position entity2) in
  Rltb distance (radius entity1 + radius entity2).

Definition clampPosition (p bounds : Vec) : Vec :=
  Vector3.mk
    (Rmax (- Vector3.x bounds) (Rmin (Vector3.x bounds) (Vector3.x p)))
    (Rmax (- Vector3.y bounds) (Rmin (Vector3.y bounds) (Vector3.y p)))
    (Rmax (- Vector3.z bounds) (Rmin (Vector3.z bounds) (Vector3.z p))).

(** ** gameUtils.ts: [ObjectPool<T>]

    The private [pool] array is a list in index order: [push] appends at the
    end and [pop] takes from the end.  The factory [createFn] is a stateful
    computation over the state [F] it closes over (for meshes: the
    allocator).  [truthy] is JavaScript truthiness of a pooled value:
    [this.pool.pop() || this.createFn()] calls the factory when the array is
    empty and also when the popped value is falsy. *)

Section ObjectPoolDef.

Context {T F : Type}.
Variable truthy : T -> bool.
Variable createFn : F -> T * F.

Definition push (a : list T) (item : T) : list T := a ++ [item].

Definition pop (a : list T) : option T * list T :=
  match rev a with
  | [] => (None, [])
  | item :: r => (Some item, rev r)
  end.

(** [constructor(createFn, initialSize)]: the loop that fills the pool. *)
Fixpoint fill (initialSize : nat) (a : list T) (f : F) : list T * F :=
  match initialSize with
  | O => (a, f)
  | S n => let (item, f') := createFn f in fill n (push a item) f'
  end.

Definition newObjectPool (initialSize : nat) (f : F) : list T * F :=
  fill initialSize [] f.

Definition get (a : list T) (f : F) : T * list T * F :=
  match pop a with
  | (Some item, a') =>
      if truthy item then (item, a', f)
      else let (fresh, f') := createFn f in (fresh, a', f')
  | (None, a') => let (fresh, f') := createFn f in (fresh, a', f')
  end.

Definition release (a : list T) (item : T) : list T := push a item.

(** [n] calls of [get], in order; the handles are listed in the order they
    were acquired. *)
Fixpoint getN (n : nat) (a : list T) (f : F) : list T * list T * F :=
  match n with
  | O => ([], a, f)
  | S n =>
      let '(item, a1, f1) := get a f in
      let '(items, a2, f2) := getN n a1 f1 in
      (item :: items, a2, f2)
  end.

(** [release] of each handle of a list, in list order. *)
Definition releaseAll (a : list T) (items : list T) : list T :=
  fold_left release items a.

(** The construction counter of a test: the factory wrapped so that every
    call is counted. *)
Definition counting (fc : F * nat) : T * (F * nat) :=
  let (item, f') := createFn (fst fc) in (item, (f', S (snd fc))).

End ObjectPoolDef.

(** [createSphere]: a fresh mesh; the allocator state is the number of meshes
    built so far.  An object is always truthy. *)
Definition createSphere (heap : nat) : Mesh * nat := (sphere heap, S heap).
Definition meshTruthy (_ : Mesh) : bool := true.

Definition MeshPool : Type := list Mesh.
Definition poolGet (p : MeshPool) (heap : nat) : Mesh * MeshPool * nat :=
  get meshTruthy createSphere p heap.

(** [if (poolRef.current) poolRef.current.release(mesh)] *)
Definition releaseIfPool (p : option MeshPool) (m : Mesh) : option MeshPool :=
  match p with
  | Some a => Some (release a m)
  | None => None
  end.

(** ** Game3D: the session state and its commands *)

(** [Partial<GameState>]: an absent field is [None]. *)
Record PartialGameState := mkPartial {
  u_status : option Status;
  u_score : option Z;
  u_level : option Z;
  u_health : option Z;
  u_maxHealth : option Z;
  u_shield : option Z;
  u_maxShield : option Z;
  u_lives : option Z;
  u_wave : option Z;
  u_enemiesRemaining : option Z;
  u_activePowerUps : option (list PowerUp)
}.

Definition noUpdate : PartialGameState :=
  mkPartial None None None None None None None None None None None.

Definition orElse {A : Type} (o : option A) (d : A) : A :=
  match o with Some v => v | None => d end.

(** [{ ...prev, ...updates }] *)
Definition spread (prev : GameState) (updates : PartialGameState) : GameState :=
  mkGameState
    (orElse (u_status updates) (status prev))
    (orElse (u_score updates) (score prev))
    (orElse (u_level updates) (level prev))
    (orElse (u_health updates) (gs_health prev))
    (orElse (u_maxHealth updates) (gs_maxHealth prev))
    (orElse (u_shield updates) (gs_shield prev))
    (orElse (u_maxShield updates) (maxShield prev))
    (orElse (u_lives updates) (lives prev))
    (orElse (u_wave updates) (wave prev))
    (orElse (u_enemiesRemaining updates) (enemiesRemaining prev))
    (orElse (u_activePowerUps updates) (activePowerUps prev)).

Definition updateGameState (prev : GameState) (updates : PartialGameState) : GameState :=
  spread prev updates.

(** The updates queued by one callback, merged in the order of the calls. *)
Definition applyUpdates (prev : GameState) (queue : list PartialGameState) : GameState :=
  fold_left updateGameState queue prev.

Definition initialGameState : GameState :=
  mkGameState menu 0 1 10 10 0 5 3 1 5 [].

Definition startGame (prev : GameState) : GameState :=
  mkGameState playing 0 1 (gs_maxHealth prev) (gs_maxHealth prev)
              (gs_shield prev) (maxShield prev) (lives prev) 1 5 [].

Definition Status_eqb (a b : Status) : bool :=
  match a, b with
  | menu, menu | playing, playing | paused, paused | gameover, gameover => true
  | _, _ => false
  end.

Definition setStatus (prev : GameState) (s : Status) : GameState :=
  spread prev (mkPartial (Some s) None None None None None None None None None None).

Definition togglePause (prev : GameState) : GameState :=
  setStatus prev (if Status_eqb (status prev) playing then paused else playing).

(** The keyboard shortcuts of [Game3D]: [e.code] is the key. *)
Definition handleKeyDown (code : string) (gameState : GameState) : GameState :=
  let s1 := if String.eqb code "KeyP" then togglePause gameState else gameState in
  if String.eqb code "Escape" && negb (Status_eqb (status gameState) menu)
  then setStatus s1 menu
  else s1.

(** ** PlayerController: the refs

    [playerRef.current] is the player's mesh, kept as its position ([None]
    while the ref is not attached).  [entitiesRef] is never used and
    [mouseRef] only steers the mesh rotation; both are left out.  [heap],
    [randomCalls] and [timeouts] are the environment: the mesh allocator, the
    number of [Math.random()] calls made so far, and the number of pending
    [setTimeout(() => spawnPowerUp(), 1000)] callbacks. *)
Record World := mkWorld {
  playerRef : option Vec;
  bulletsRef : list GameEntity;
  enemiesRef : list GameEntity;
  powerUpsRef : list GameEntity;
  keysRef : string -> bool;
  lastShotRef : Z;
  waveTimerRef : R;
  enemySpawnTimerRef : R;
  bulletPoolRef : option MeshPool;
  enemyPoolRef : option MeshPool;
  heap : nat;
  randomCalls : nat;
  timeouts : nat
}.

(** The state of the refs at mount, before the effects have run. *)
Definition mountWorld (keys : string -> bool) : World :=
  mkWorld None [] [] [] keys 0 0 0 None None 0 0 0.

(** The effect that builds the two pools:
    [new ObjectPool(() => createSphere(...), 20)] and [(..., 10)]. *)
Definition initPools (w : World) : World :=
  let (bp, h1) := newObjectPool createSphere 20 (heap w) in
  let (ep, h2) := newObjectPool createSphere 10 h1 in
  mkWorld (playerRef w) (bulletsRef w) (enemiesRef w) (powerUpsRef w) (keysRef w)
          (lastShotRef w) (waveTimerRef w) (enemySpawnTimerRef w)
          (Some bp) (Some ep) h2 (randomCalls w) (timeouts w).

Definition setLastShot (w : World) (now : Z) : World :=
  mkWorld (playerRef w) (bulletsRef w) (enemiesRef w) (powerUpsRef w) (keysRef w)
          now (waveTimerRef w) (enemySpawnTimerRef w)
          (bulletPoolRef w) (enemyPoolRef w) (heap w) (randomCalls w) (timeouts w).

Definition newBullet (now : Z) (m : Mesh) (playerPosition : Vec) : GameEntity :=
  mkEntity (IdBullet now) m
           (Vector3.mk (Vector3.x playerPosition) (Vector3.y playerPosition)
                       (Vector3.z playerPosition + 1))
           (Vector3.mk 0 0 20)
           1 1 bullet true (1 / 10).

(** ** PlayerController: [shootBullet] *)
Definition shootBullet (now : Z) (w : World) : World :=
  if (now - lastShotRef w <? 150)%Z then w (* Fire rate limit *)
  else
    let w1 := setLastShot w now in
    match playerRef w1, bulletPoolRef w1 with
    | Some playerPosition, Some bulletPool =>
        let '(m, bulletPool', heap') := poolGet bulletPool (heap w1) in
        let bulletEntity := newBullet now m playerPosition in
        mkWorld (playerRef w1) (bulletsRef w1 ++ [bulletEntity]) (enemiesRef w1)
                (powerUpsRef w1) (keysRef w1) (lastShotRef w1) (waveTimerRef w1)
                (enemySpawnTimerRef w1) (Some bulletPool') (enemyPoolRef w1)
                heap' (randomCalls w1) (timeouts w1)
    | _, _ => w1
    end.

(** [handleMouseClick]: a click fires only while playing. *)
Definition handleMouseClick (gameState : GameState) (now : Z) (w : World) : World :=
  if Status_eqb (status gameState) playing then shootBullet now w else w.

(** ** PlayerController: [spawnEnemy] and [spawnPowerUp]

    [rnd k] is the value of the k-th call of [Math.random()]. *)
Definition newEnemy (now : Z) (m : Mesh) (r0 r1 r2 r3 : R) : GameEntity :=
  mkEntity (IdEnemy now r2) m
           (Vector3.mk ((r0 - 1 / 2) * 20) ((r1 - 1 / 2) * 15) (- 30))
           (Vector3.mk 0 0 (5 + r3 * 3))
           3 3 enemy true (1 / 2).

Definition spawnEnemy (now : Z) (rnd : nat -> R) (w : World) : World :=
  match enemyPoolRef w with
  | None => w
  | Some enemyPool =>
      let '(m, enemyPool', heap') := poolGet enemyPool (heap w) in
      let k := randomCalls w in
      let enemyEntity :=
        newEnemy now m (rnd k) (rnd (1 + k)%nat) (rnd (2 + k)%nat) (rnd (3 + k)%nat) in
      mkWorld (playerRef w) (bulletsRef w) (enemiesRef w ++ [enemyEntity])
              (powerUpsRef w) (keysRef w) (lastShotRef w) (waveTimerRef w)
              (enemySpawnTimerRef w) (bulletPoolRef w) (Some enemyPool')
              heap' (4 + k)%nat (timeouts w)
  end.

Definition newPowerUpEntity (now : Z) (m : Mesh) (r1 r2 : R) : GameEntity :=
  mkEntity (IdPowerUp now) m
           (Vector3.mk ((r1 - 1 / 2) * 15) ((r2 - 1 / 2) * 10) (- 20))
           (Vector3.mk 0 0 3)
           1 1 powerup true (3 / 10).

Definition spawnPowerUp (now : Z) (rnd : nat -> R) (w : World) : World :=
  let k := randomCalls w in
  if Rgtb (rnd k) (1 / 10)
  then (* 10% chance *)
    mkWorld (playerRef w) (bulletsRef w) (enemiesRef w) (powerUpsRef w) (keysRef w)
            (lastShotRef w) (waveTimerRef w) (enemySpawnTimerRef w)
            (bulletPoolRef w) (enemyPoolRef w) (heap w) (1 + k)%nat (timeouts w)
  else
    let (m, heap') := createSphere (heap w) in
    let powerUpEntity := newPowerUpEntity now m (rnd (1 + k)%nat) (rnd (2 + k)%nat) in
    mkWorld (playerRef w) (bulletsRef w) (enemiesRef w) (powerUpsRef w ++ [powerUpEntity])
            (keysRef w) (lastShotRef w) (waveTimerRef w) (enemySpawnTimerRef w)
            (bulletPoolRef w) (enemyPoolRef w) heap' (3 + k)%nat (timeouts w).

(** A timeout set by the frame expires: [() => spawnPowerUp()]. *)
Definition runTimeout (now : Z) (rnd : nat -> R) (w : World) : World :=
  match timeouts w with
  | O => w
  | S n =>
      let w' := spawnPowerUp now rnd w in
      mkWorld (playerRef w') (bulletsRef w') (enemiesRef w') (powerUpsRef w') (keysRef w')
              (lastShotRef w') (waveTimerRef w') (enemySpawnTimerRef w')
              (bulletPoolRef w') (enemyPoolRef w') (heap w') (randomCalls w') n
  end.

(** ** PlayerController: the frame callback, block by block

    Each entity carries its position here; see [updateBulletsShared] and the
    definitions after it for the update pass on the vectors of the meshes. *)

Definition setPosition (e : GameEntity) (p : Vec) : GameEntity :=
  mkEntity (id e) (mesh e) p (velocity e) (health e) (maxHealth e) (type e)
           (active e) (radius e).
Definition setVelocity (e : GameEntity) (v : Vec) : GameEntity :=
  mkEntity (id e) (mesh e) (position e) v (health e) (maxHealth e) (type e)
           (active e) (radius e).
Definition setHealth (e : GameEntity) (h : Z) : GameEntity :=
  mkEntity (id e) (mesh e) (position e) (velocity e) h (maxHealth e) (type e)
           (active e) (radius e).
Definition setActive (e : GameEntity) (a : bool) : GameEntity :=
  mkEntity (id e) (mesh e) (position e) (velocity e) (health e) (maxHealth e) (type e)
           a (radius e).

(** Player movement and [clampPosition(player.position, {x: 12, y: 8, z: 0})]. *)
Definition movePlayer (keys : string -> bool) (delta : R) (p : Vec) : Vec :=
  let moveSpeed := 15 * delta in
  let p1 := if keys "KeyW"%string || keys "ArrowUp"%string
            then Vector3.mk (Vector3.x p) (Vector3.y p + moveSpeed) (Vector3.z p) else p in
  let p2 := if keys "KeyS"%string || keys "ArrowDown"%string
            then Vector3.mk (Vector3.x p1) (Vector3.y p1 - moveSpeed) (Vector3.z p1) else p1 in
  let p3 := if keys "KeyA"%string || keys "ArrowLeft"%string
            then Vector3.mk (Vector3.x p2 - moveSpeed) (Vector3.y p2) (Vector3.z p2) else p2 in
  let p4 := if keys "KeyD"%string || keys "ArrowRight"%string
            then Vector3.mk (Vector3.x p3 + moveSpeed) (Vector3.y p3) (Vector3.z p3) else p3 in
  clampPosition p4 (Vector3.mk 12 8 0).

(** [e.position.add(e.velocity.clone().multiplyScalar(delta))] *)
Definition advance (e : GameEntity) (delta : R) : GameEntity :=
  setPosition e (Vector3.add (position e) (Vector3.multiplyScalar (velocity e) delta)).

(** Update bullets: the [filter] callback moves each bullet, releases the
    mesh of one that is too far, and keeps the active ones. *)
Fixpoint updateBullets (delta : R) (bullets : list GameEntity) (bulletPool : option MeshPool)
  : list GameEntity * option MeshPool :=
  match bullets with
  | [] => ([], bulletPool)
  | b :: rest =>
      let b1 := advance b delta in
      if Rgtb (Vector3.z (position b1)) 50 || Rltb (Vector3.z (position b1)) (- 50)
      then updateBullets delta rest (releaseIfPool bulletPool (mesh b1))
      else
        let (kept, bulletPool') := updateBullets delta rest bulletPool in
        (if active b1 then b1 :: kept else kept, bulletPool')
  end.

(** Simple AI: move toward player occasionally. *)
Definition steer (playerPosition : Vec) (e : GameEntity) : GameEntity :=
  let toPlayer := Vector3.normalize (Vector3.sub playerPosition (position e)) in
  setVelocity e
    (Vector3.clampLength (Vector3.add (velocity e) (Vector3.multiplyScalar toPlayer 2)) 0 8).

(** Update enemies: one [Math.random()] call for each enemy of the array. *)
Fixpoint updateEnemies (delta : R) (playerPosition : Vec) (rnd : nat -> R) (k : nat)
         (enemies : list GameEntity) (enemyPool : option MeshPool)
  : list GameEntity * option MeshPool * nat :=
  match enemies with
  | [] => ([], enemyPool, k)
  | e :: rest =>
      let e1 := advance e delta in
      let e2 := if Rltb (rnd k) (1 / 100) then steer playerPosition e1 else e1 in
      if Rgtb (Vector3.z (position e2)) 20
      then updateEnemies delta playerPosition rnd (S k) rest
                         (releaseIfPool enemyPool (mesh e2))
      else
        let '(kept, enemyPool', k') :=
          updateEnemies delta playerPosition rnd (S k) rest enemyPool in
        (if active e2 && (0 <? health e2)%Z then e2 :: kept else kept, enemyPool', k')
  end.

(** Update power-ups (their meshes are not pooled). *)
Fixpoint updatePowerUps (delta : R) (powerUps : list GameEntity) : list GameEntity :=
  match powerUps with
  | [] => []
  | p :: rest =>
      let p1 := advance p delta in
      if Rgtb (Vector3.z (position p1)) 20 then updatePowerUps delta rest
      else if active p1 then p1 :: updatePowerUps delta rest
           else updatePowerUps delta rest
  end.

(** *** Collision detection

    What the collision loops change besides the entities: the two pools and
    the queue of [onGameStateChange] calls.  [fx_tests] is the record of the
    [checkCollision] calls made, each with the array indices of the entities
    and the entities as they were when tested; the program does not read
    it. *)
Inductive CollisionTest :=
| TestBulletEnemy (i j : nat) (b e : GameEntity)
| TestPlayerEnemy (j : nat) (e : GameEntity)
| TestPlayerPowerUp (index : nat) (p : GameEntity).

Record Effects := mkFx {
  fx_bulletPool : option MeshPool;
  fx_enemyPool : option MeshPool;
  fx_queue : list PartialGameState;
  fx_tests : list CollisionTest
}.

Definition logTest (fx : Effects) (t : CollisionTest) : Effects :=
  mkFx (fx_bulletPool fx) (fx_enemyPool fx) (fx_queue fx) (fx_tests fx ++ [t]).

Definition onGameStateChange (fx : Effects) (updates : PartialGameState) : Effects :=
  mkFx (fx_bulletPool fx) (fx_enemyPool fx) (fx_queue fx ++ [updates]) (fx_tests fx).

Definition releaseBullet (fx : Effects) (m : Mesh) : Effects :=
  mkFx (releaseIfPool (fx_bulletPool fx) m) (fx_enemyPool fx) (fx_queue fx) (fx_tests fx).

Definition releaseEnemy (fx : Effects) (m : Mesh) : Effects :=
  mkFx (fx_bulletPool fx) (releaseIfPool (fx_enemyPool fx) m) (fx_queue fx) (fx_tests fx).

(** [{ score: gameState.score + 100, enemiesRemaining: gameState.enemiesRemaining - 1 }] *)
Definition killUpdate (gameState : GameState) : PartialGameState :=
  mkPartial None (Some (score gameState + 100)%Z) None None None None None None None
            (Some (enemiesRemaining gameState - 1)%Z) None.

(** [{ health: Math.max(0, gameState.health - 1) }] *)
Definition damageUpdate (gameState : GameState) : PartialGameState :=
  mkPartial None None None (Some (Z.max 0 (gs_health gameState - 1))) None None None
            None None None None.

(** [{ status: 'gameover' }] *)
Definition gameoverUpdate : PartialGameState :=
  mkPartial (Some gameover) None None None None None None None None None None.

(** The body of the inner [forEach] for one bullet: the enemies of the array
    from index [j] on. *)
Fixpoint bulletVsEnemies (gameState : GameState) (i j : nat) (b : GameEntity)
         (enemies : list GameEntity) (fx : Effects)
  : GameEntity * list GameEntity * Effects :=
  match enemies with
  | [] => (b, [], fx)
  | e :: rest =>
      let fx0 := logTest fx (TestBulletEnemy i j b e) in
      if checkCollision b e then
        let e1 := setHealth e (health e - 1) in
        let b1 := setActive b false in
        let '(e2, fx1) :=
          if (health e1 <=? 0)%Z
          then (setActive e1 false,
                releaseEnemy (onGameStateChange fx0 (killUpdate gameState)) (mesh e1))
          else (e1, fx0) in
        let fx2 := releaseBullet fx1 (mesh b1) in
        let '(b', rest', fx') := bulletVsEnemies gameState i (S j) b1 rest fx2 in
        (b', e2 :: rest', fx')
      else
        let '(b', rest', fx') := bulletVsEnemies gameState i (S j) b rest fx0 in
        (b', e :: rest', fx')
  end.

(** Bullet vs Enemy collisions: the outer [forEach], bullets from index [i]. *)
Fixpoint bulletsVsEnemies (gameState : GameState) (i : nat)
         (bullets enemies : list GameEntity) (fx : Effects)
  : list GameEntity * list GameEntity * Effects :=
  match bullets with
  | [] => ([], enemies, fx)
  | b :: rest =>
      let '(b', enemies1, fx1) := bulletVsEnemies gameState i 0 b enemies fx in
      let '(rest', enemies2, fx2) := bulletsVsEnemies gameState (S i) rest enemies1 fx1 in
      (b' :: rest', enemies2, fx2)
  end.

(** Player vs Enemy collisions. *)
Fixpoint playerVsEnemies (gameState : GameState) (playerEntity : GameEntity) (j : nat)
         (enemies : list GameEntity) (fx : Effects)
  : list GameEntity * Effects :=
  match enemies with
  | [] => ([], fx)
  | e :: rest =>
      let fx0 := logTest fx (TestPlayerEnemy j e) in
      if checkCollision playerEntity e then
        let fx1 := onGameStateChange fx0 (damageUpdate gameState) in
        let e1 := setActive e false in
        let fx2 := releaseEnemy fx1 (mesh e1) in
        let fx3 := if (gs_health gameState <=? 1)%Z
                   then onGameStateChange fx2 gameoverUpdate else fx2 in
        let (rest', fx') := playerVsEnemies gameState playerEntity (S j) rest fx3 in
        (e1 :: rest', fx')
      else
        let (rest', fx') := playerVsEnemies gameState playerEntity (S j) rest fx0 in
        (e :: rest', fx')
  end.

Definition shieldFrom (powerUp : GameEntity) (now : Z) : PowerUp :=
  mkPowerUp (id powerUp) shield 10 true now.

(** [{ activePowerUps: [...gameState.activePowerUps, newPowerUp],
       health: Math.min(gameState.maxHealth, gameState.health + 1) }] *)
Definition pickupUpdate (gameState : GameState) (newPowerUp : PowerUp) : PartialGameState :=
  mkPartial None None None
            (Some (Z.min (gs_maxHealth gameState) (gs_health gameState + 1))) None None
            None None None None
            (Some (activePowerUps gameState ++ [newPowerUp])).

(** [array.splice(index, 1)] *)
Definition splice1 {A : Type} (index : nat) (a : list A) : list A :=
  firstn index a ++ skipn (S index) a.

(** Player vs PowerUp collisions.  [forEach] visits the indices below the
    length the array had when the loop began ([visits] of them are left) and
    skips an index that is no longer in the array; the callback removes the
    collected power-up from the array it is iterating. *)
Fixpoint playerVsPowerUps (gameState : GameState) (now : Z) (playerEntity : GameEntity)
         (visits index : nat) (powerUps : list GameEntity) (fx : Effects)
  : list GameEntity * Effects :=
  match visits with
  | O => (powerUps, fx)
  | S visits' =>
      match nth_error powerUps index with
      | None => playerVsPowerUps gameState now playerEntity visits' (S index) powerUps fx
      | Some powerUp =>
          let fx0 := logTest fx (TestPlayerPowerUp index powerUp) in
          if checkCollision playerEntity powerUp then
            let newPowerUp := shieldFrom powerUp now in
            let fx1 := onGameStateChange fx0 (pickupUpdate gameState newPowerUp) in
            playerVsPowerUps gameState now playerEntity visits' (S index)
                             (splice1 index powerUps) fx1
          else
            playerVsPowerUps gameState now playerEntity visits' (S index) powerUps fx0
      end
  end.

(** *** Enemy spawning and wave progression *)

Definition setEnemySpawnTimer (w : World) (t : R) : World :=
  mkWorld (playerRef w) (bulletsRef w) (enemiesRef w) (powerUpsRef w) (keysRef w)
          (lastShotRef w) (waveTimerRef w) t
          (bulletPoolRef w) (enemyPoolRef w) (heap w) (randomCalls w) (timeouts w).

Definition setWaveTimer (w : World) (t : R) : World :=
  mkWorld (playerRef w) (bulletsRef w) (enemiesRef w) (powerUpsRef w) (keysRef w)
          (lastShotRef w) t (enemySpawnTimerRef w)
          (bulletPoolRef w) (enemyPoolRef w) (heap w) (randomCalls w) (timeouts w).

(** [if (Math.random() < 0.3) setTimeout(() => spawnPowerUp(), 1000)] *)
Definition maybeSchedulePowerUp (rnd : nat -> R) (w : World) : World :=
  let k := randomCalls w in
  mkWorld (playerRef w) (bulletsRef w) (enemiesRef w) (powerUpsRef w) (keysRef w)
          (lastShotRef w) (waveTimerRef w) (enemySpawnTimerRef w)
          (bulletPoolRef w) (enemyPoolRef w) (heap w) (S k)
          (if Rltb (rnd k) (3 / 10) then S (timeouts w) else timeouts w).

Definition enemySpawning (gameState : GameState) (delta : R) (now : Z) (rnd : nat -> R)
           (w : World) : World :=
  let w1 := setEnemySpawnTimer w (enemySpawnTimerRef w + delta) in
  if Rgtb (enemySpawnTimerRef w1) (2 - IZR (level gameState) * (1 / 10))
  then maybeSchedulePowerUp rnd (setEnemySpawnTimer (spawnEnemy now rnd w1) 0)
  else w1.

(** [{ wave: gameState.wave + 1, level: gameState.level + 1,
       enemiesRemaining: 5 + gameState.wave }] *)
Definition waveUpdate (gameState : GameState) : PartialGameState :=
  mkPartial None None (Some (level gameState + 1)%Z) None None None None None
            (Some (wave gameState + 1)%Z) (Some (5 + wave gameState)%Z) None.

Definition waveProgression (gameState : GameState) (delta : R) (w : World)
  : World * list PartialGameState :=
  if (List.length (enemiesRef w) =? 0)%nat && (enemiesRemaining gameState <=? 0)%Z
  then
    let w1 := setWaveTimer w (waveTimerRef w + delta) in
    if Rgtb (waveTimerRef w1) 3
    then (setWaveTimer w1 0, [waveUpdate gameState])
    else (w1, [])
  else (w, []).

(** *** The frame callback *)

Record FrameResult := mkFrame {
  world : World;
  queue : list PartialGameState;
  tests : list CollisionTest
}.

Definition playerEntityOf (gameState : GameState) (playerPosition : Vec) : GameEntity :=
  mkEntity IdPlayer playerMesh playerPosition Vector3.zero
           (gs_health gameState) (gs_maxHealth gameState) player true (4 / 10).

Definition frame (gameState : GameState) (delta : R) (now : Z) (rnd : nat -> R)
           (w : World) : FrameResult :=
  match Status_eqb (status gameState) playing, playerRef w with
  | true, Some p0 =>
      let p := movePlayer (keysRef w) delta p0 in
      let (bullets1, bulletPool1) :=
        updateBullets delta (bulletsRef w) (bulletPoolRef w) in
      let '(enemies1, enemyPool1, k1) :=
        updateEnemies delta p rnd (randomCalls w) (enemiesRef w) (enemyPoolRef w) in
      let powerUps1 := updatePowerUps delta (powerUpsRef w) in
      let playerEntity := playerEntityOf gameState p in
      let fx0 := mkFx bulletPool1 enemyPool1 [] [] in
      let '(bullets2, enemies2, fx1) :=
        bulletsVsEnemies gameState 0 bullets1 enemies1 fx0 in
      let (enemies3, fx2) := playerVsEnemies gameState playerEntity 0 enemies2 fx1 in
      let (powerUps2, fx3) :=
        playerVsPowerUps gameState now playerEntity (List.length powerUps1) 0 powerUps1 fx2 in
      let w1 :=
        mkWorld (Some p) bullets2 enemies3 powerUps2 (keysRef w) (lastShotRef w)
                (waveTimerRef w) (enemySpawnTimerRef w)
                (fx_bulletPool fx3) (fx_enemyPool fx3) (heap w) k1 (timeouts w) in
      let w2 := enemySpawning gameState delta now rnd w1 in
      let (w3, waveQueue) := waveProgression gameState delta w2 in
      mkFrame w3 (fx_queue fx3 ++ waveQueue) (fx_tests fx3)
  | _, _ => mkFrame w [] []
  end.

(** One frame of the game: the callback runs on the rendered state and the
    queued updates are merged into it. *)
Definition stepGame (delta : R) (now : Z) (rnd : nat -> R) (sw : GameState * World)
  : GameState * World :=
  let r := frame (fst sw) delta now rnd (snd sw) in
  (applyUpdates (fst sw) (queue r), world r).

(** ** Notions used to state the properties *)

(** The Euclidean distance of two points, as the specification words it. *)
Definition euclideanDistance (p q : Vec) : R :=
  sqrt ((Vector3.x p - Vector3.x q) ^ 2 + (Vector3.y p - Vector3.y q) ^ 2
        + (Vector3.z p - Vector3.z q) ^ 2).

(** Number of bullets a fire request adds to the store. *)
Definition bulletsCreated (now : Z) (w : World) : nat :=
  (List.length (bulletsRef (shootBullet now w)) - List.length (bulletsRef w))%nat.

(** The commit of the component: the player's mesh is attached at the origin
    and the effect builds the pools. *)
Definition attachRefs (w0 : World) : World :=
  let w := initPools w0 in
  mkWorld (Some Vector3.zero) (bulletsRef w) (enemiesRef w) (powerUpsRef w) (keysRef w)
          (lastShotRef w) (waveTimerRef w) (enemySpawnTimerRef w)
          (bulletPoolRef w) (enemyPoolRef w) (heap w) (randomCalls w) (timeouts w).

(** The game as mounted, no key held. *)
Definition readyWorld : World := attachRefs (mountWorld (fun _ => false)).

(** A power-up effect is expired when its age, the current time minus its
    activation time stamp (milliseconds), exceeds its duration (seconds). *)
Definition expired (now : Z) (p : PowerUp) : bool :=
  (pu_duration p * 1000 <? now - pu_startTime p)%Z.

(** The invariant of the data model on one entity. *)
Definition wellFormed (e : GameEntity) : Prop :=
  (0 <= health e <= maxHealth e)%Z /\ 0 < radius e.

(** [e'] is [e] up to its health and its active flag, the two fields the
    collision loops assign. *)
Definition sameBody (e e' : GameEntity) : Prop :=
  id e' = id e /\ mesh e' = mesh e /\ position e' = position e
  /\ velocity e' = velocity e /\ maxHealth e' = maxHealth e
  /\ type e' = type e /\ radius e' = radius e.

(** The entities the update pass of a frame keeps: the arrays the collision
    loops run over. *)
Definition keptBullets (delta : R) (w : World) : list GameEntity :=
  fst (updateBullets delta (bulletsRef w) (bulletPoolRef w)).

Definition keptEnemies (delta : R) (rnd : nat -> R) (w : World) (p0 : Vec)
  : list GameEntity :=
  fst (fst (updateEnemies delta (movePlayer (keysRef w) delta p0) rnd
                          (randomCalls w) (enemiesRef w) (enemyPoolRef w))).

Definition keptPowerUps (delta : R) (w : World) : list GameEntity :=
  updatePowerUps delta (powerUpsRef w).

(** Reading the record of collision tests. *)
Definition bulletEnemyTests (ts : list CollisionTest) : list (nat * nat) :=
  flat_map (fun t => match t with
                     | TestBulletEnemy i j _ _ => [(i, j)]
                     | _ => []
                     end) ts.

Definition playerEnemyTests (ts : list CollisionTest) : list nat :=
  flat_map (fun t => match t with
                     | TestPlayerEnemy j _ => [j]
                     | _ => []
                     end) ts.

(** Were the entities of a test active when it was made? *)
Definition testedActive (t : CollisionTest) : bool :=
  match t with
  | TestBulletEnemy _ _ b e => active b && active e
  | TestPlayerEnemy _ e => active e
  | TestPlayerPowerUp _ p => active p
  end.

(** The updates a frame can queue, given the rendered state and the time. *)
Inductive FrameUpdate (gameState : GameState) (now : Z) : PartialGameState -> Prop :=
| FU_kill : FrameUpdate gameState now (killUpdate gameState)
| FU_damage : FrameUpdate gameState now (damageUpdate gameState)
| FU_gameover :
    (gs_health gameState <= 1)%Z -> FrameUpdate gameState now gameoverUpdate
| FU_pickup (powerUp : GameEntity) :
    FrameUpdate gameState now (pickupUpdate gameState (shieldFrom powerUp now))
| FU_wave : FrameUpdate gameState now (waveUpdate gameState).

(** The updates a block has added to the queue. *)
Definition queuedSince (before after : Effects) : list PartialGameState :=
  skipn (List.length (fx_queue before)) (fx_queue after).

(** Did the frame queue a wave update? *)
Definition waveFired (r : FrameResult) : bool :=
  existsb (fun u => match u_wave u with Some _ => true | None => false end) (queue r).

(** [e'] is [e] after at most [n] hits: the same body, and a health between
    [health e - n] and [health e]. *)
Definition hitBy (n : Z) (e e' : GameEntity) : Prop :=
  sameBody e e' /\ (health e - n <= health e' <= health e)%Z.

(** What one enemy of the array adds to the queue in the player loop. *)
Definition hitUpdates (g : GameState) (pe e : GameEntity) : list PartialGameState :=
  if checkCollision pe e
  then damageUpdate g :: (if (gs_health g <=? 1)%Z then [gameoverUpdate] else [])
  else [].

(** What the player loop does to one enemy of the array. *)
Definition deactivateIfHit (pe e : GameEntity) : GameEntity :=
  if checkCollision pe e then setActive e false else e.

(** [e] is an enemy as [spawnEnemy] builds it. *)
Definition spawnedEnemy (now : Z) (e : GameEntity) : Prop :=
  exists m r0 r1 r2 r3, e = newEnemy now m r0 r1 r2 r3.

(** ** Sample states

    A session in play, at level 1 and wave 1, with maxHealth 10. *)
Definition playingState (h : Z) (remaining : Z) (effects : list PowerUp) : GameState :=
  mkGameState playing 0 1 h 10 0 5 3 1 remaining effects.

(** An active entity on the z axis, at depth [z0], flying along z. *)
Definition onAxis (m : nat) (ty : EntityType) (z0 speed : R) (h hmax : Z) (r : R)
  : GameEntity :=
  mkEntity (match ty with bullet => IdBullet 0 | _ => IdEnemy 0 0 end) (sphere m)
           (Vector3.mk 0 0 z0) (Vector3.mk 0 0 speed) h hmax ty true r.

(** The free meshes [sphere a .. sphere (a + n - 1)] of a pool. *)
Definition spheres (a n : nat) : MeshPool := map sphere (seq a n).

(** One bullet that has caught up with two overlapping enemies, ten units
    past the player.  The meshes in use are out of the pools. *)
Definition oneBulletTwoEnemies : World :=
  mkWorld (Some Vector3.zero)
          [onAxis 19 bullet 10 20 1 1 (1/10)]
          [onAxis 29 enemy 10 5 3 3 (1/2); onAxis 28 enemy 10 5 3 3 (1/2)]
          [] (fun _ => false) 0 0 0
          (Some (spheres 0 19)) (Some (spheres 20 8)) 30 0 0.

(** A shield collected at time 0. *)
Definition staleShield : PowerUp := mkPowerUp (IdPowerUp 0) shield 10 true 0.

(** What the frame guarantees of an enemy, given the number of bullets in the
    store. *)
Definition enemyInRange (bullets : nat) (e : GameEntity) : Prop :=
  (health e <= maxHealth e)%Z /\ 0 < radius e
  /\ (Z.min 0 (1 - Z.of_nat bullets) <= health e)%Z.

(** Two bullets at the same place as an enemy that has one health point
    left, ten units past the player. *)
Definition twoBulletsOneEnemy : World :=
  mkWorld (Some Vector3.zero)
          [onAxis 19 bullet 10 20 1 1 (1/10); onAxis 18 bullet 10 20 1 1 (1/10)]
          [onAxis 29 enemy 10 5 1 3 (1/2)]
          [] (fun _ => false) 0 0 0
          (Some (spheres 0 18)) (Some (spheres 20 9)) 30 0 0.

(** One enemy about to reach the player. *)
Definition enemyAtPlayer : World :=
  mkWorld (Some Vector3.zero) []
          [onAxis 29 enemy (- (3 / 10)) 5 3 3 (1/2)]
          [] (fun _ => false) 0 0 0
          (Some (spheres 0 20)) (Some (spheres 20 9)) 30 0 0.

(** ** More of the program, and notions to state what it does *)

(** The direction a pair of opposite keys gives: +1, -1 or 0. *)
Definition axis (positive negative : bool) : R :=
  (if positive then 1 else 0) - (if negative then 1 else 0).

(** [Vector3.lerp] of three.js: [this.x += (v.x - this.x) * alpha], and the
    same for y and z. *)
Definition lerp (a v : Vec) (alpha : R) : Vec :=
  Vector3.mk (Vector3.x a + (Vector3.x v - Vector3.x a) * alpha)
             (Vector3.y a + (Vector3.y v - Vector3.y a) * alpha)
             (Vector3.z a + (Vector3.z v - Vector3.z a) * alpha).

(** [lerpVector3 = (a, b, t) => a.clone().lerp(b, t)]: the clone is what is
    changed and returned. *)
Definition lerpVector3 (a b : Vec) (t : R) : Vec := lerp a b t.

(** [handleMouseMove]: the pointer offset written to [mouseRef.current]. *)
Definition handleMouseMove (clientX clientY innerWidth innerHeight : R) : R * R :=
  ((clientX / innerWidth) * 2 - 1, - (clientY / innerHeight) * 2 + 1).

(** The cull test of the bullet filter: [z > 50 || z < -50]. *)
Definition bulletTooFar (b : GameEntity) : bool :=
  Rgtb (Vector3.z (position b)) 50 || Rltb (Vector3.z (position b)) (- 50).

(** [release] of each mesh of a list on a pool reference that may be null. *)
Definition releaseAllIfPool (p : option MeshPool) (ms : list Mesh) : option MeshPool :=
  fold_left releaseIfPool ms p.

(** What a bullet hit does to an enemy: one health point less, and
    deactivation when the health is then <= 0. *)
Definition damaged (e : GameEntity) : GameEntity :=
  let e1 := setHealth e (health e - 1) in
  if (health e1 <=? 0)%Z then setActive e1 false else e1.

Definition hitByBullet (b e : GameEntity) : GameEntity :=
  if checkCollision b e then damaged e else e.

(** The enemy is overlapped by the bullet and has one health point left. *)
Definition killedBy (b e : GameEntity) : bool :=
  checkCollision b e && (health e - 1 <=? 0)%Z.

(** The elements of a list at the odd indices 1, 3, 5, ... *)
Fixpoint oddIndexed {A : Type} (l : list A) : list A :=
  match l with
  | _ :: y :: r => y :: oddIndexed r
  | _ => []
  end.

(** Does an update carry a score, a list of effects? *)
Definition setsScore (u : PartialGameState) : bool :=
  match u_score u with Some _ => true | None => false end.

Definition setsEffects (u : PartialGameState) : bool :=
  match u_activePowerUps u with Some _ => true | None => false end.

(** The frames of a run: each with its delta and its clock. *)
Definition runFrames (rnd : nat -> R) (inputs : list (R * Z)) (sw : GameState * World)
  : GameState * World :=
  fold_left (fun sw' dn => stepGame (fst dn) (snd dn) rnd sw') inputs sw.

(** A power-up and an enemy that both reach the player in the same frame. *)
Definition powerUpAndEnemyAtPlayer : World :=
  mkWorld (Some Vector3.zero) []
          [onAxis 29 enemy (- (3 / 10)) 5 3 3 (1/2)]
          [mkEntity (IdPowerUp 0) (sphere 30) (Vector3.mk 0 0 (- (1 / 10)))
                    (Vector3.mk 0 0 3) 1 1 powerup true (3 / 10)]
          (fun _ => false) 0 0 0
          (Some (spheres 0 20)) (Some (spheres 20 9)) 31 0 0.

(** [keys[code] = v] on the object of held keys. *)
Definition setKey (keys : string -> bool) (code : string) (v : bool) : string -> bool :=
  fun c => if String.eqb c code then v else keys c.

Definition setKeys (w : World) (keys : string -> bool) : World :=
  mkWorld (playerRef w) (bulletsRef w) (enemiesRef w) (powerUpsRef w) keys
          (lastShotRef w) (waveTimerRef w) (enemySpawnTimerRef w)
          (bulletPoolRef w) (enemyPoolRef w) (heap w) (randomCalls w) (timeouts w).

(** The key listeners of [PlayerController] ([e.code] is the argument). *)
Module PlayerInput.

Definition handleKeyDown (code : string) (w : World) : World :=
  setKeys w (setKey (keysRef w) code true).

Definition handleKeyUp (code : string) (w : World) : World :=
  setKeys w (setKey (keysRef w) code false).

End PlayerInput.

(** ** gameUtils.ts: [Vector3Pool]

    The vectors are objects: a heap of cells, a vector being the index of its
    cell.  [new THREE.Vector3()] adds a cell holding (0, 0, 0); an object is
    truthy, so [this.pool.pop() || new THREE.Vector3()] constructs only when
    the array is empty. *)
Definition VectorHeap : Type := list Vec.

(** [vector.set(x, y, z)] on the cell of [vector]. *)
Definition setCell (h : VectorHeap) (vector : nat) (v : Vec) : VectorHeap :=
  if (vector <? List.length h)%nat
  then firstn vector h ++ v :: skipn (S vector) h
  else h.

Module Vector3Pool.

Definition get (pool : list nat) (h : VectorHeap) : nat * list nat * VectorHeap :=
  match pop pool with
  | (Some vector, pool') => (vector, pool', h)
  | (None, pool') => (List.length h, pool', h ++ [Vector3.zero])
  end.

Definition release (pool : list nat) (h : VectorHeap) (vector : nat)
  : list nat * VectorHeap :=
  (push pool vector, setCell h vector Vector3.zero).

End Vector3Pool.

(** Two power-ups that both overlap the player. *)
Definition twoPowerUpsAtPlayer : list GameEntity :=
  [mkEntity (IdPowerUp 0) (sphere 30) (Vector3.mk 0 0 (- (1 / 10)))
            (Vector3.mk 0 0 3) 1 1 powerup true (3 / 10);
   mkEntity (IdPowerUp 1) (sphere 31) (Vector3.mk 0 0 (- (2 / 10)))
            (Vector3.mk 0 0 3) 1 1 powerup true (3 / 10)].

(** ** The life of a [PlayerController] instance

    What changes the refs of an instance and the session state: the frame
    callback (with the merge of the updates it queues), the listeners of the
    input effect, and a pending [setTimeout(() => spawnPowerUp(), 1000)]
    that expires.  Once the status has left playing the callback returns at
    its guard and a click fires nothing; an expiring timeout still runs
    [spawnPowerUp]. *)
Inductive Event :=
| EvFrame (delta : R) (now : Z)
| EvClick (now : Z)
| EvKeyDown (code : string)
| EvKeyUp (code : string)
| EvTimeout (now : Z).

Definition handleEvent (rnd : nat -> R) (sw : GameState * World) (ev : Event)
  : GameState * World :=
  match ev with
  | EvFrame delta now => stepGame delta now rnd sw
  | EvClick now => (fst sw, handleMouseClick (fst sw) now (snd sw))
  | EvKeyDown code => (fst sw, PlayerInput.handleKeyDown code (snd sw))
  | EvKeyUp code => (fst sw, PlayerInput.handleKeyUp code (snd sw))
  | EvTimeout now => (fst sw, runTimeout now rnd (snd sw))
  end.

Definition runEvents (rnd : nat -> R) (events : list Event) (sw : GameState * World)
  : GameState * World :=
  fold_left (handleEvent rnd) events sw.

(** What the program keeps of an enemy's health and radius: the health is
    bounded above only. *)
Definition enemyBounded (e : GameEntity) : Prop :=
  (health e <= maxHealth e)%Z /\ 0 < radius e.

(** The ranges the program maintains. *)
Definition inRange (sw : GameState * World) : Prop :=
  Forall wellFormed (bulletsRef (snd sw))
  /\ Forall enemyBounded (enemiesRef (snd sw))
  /\ Forall wellFormed (powerUpsRef (snd sw))
  /\ (0 <= gs_health (fst sw) <= gs_maxHealth (fst sw))%Z.

(** Did the frame callback get past its guard? *)
Definition frameRuns (g : GameState) (w : World) : Prop :=
  status g = playing /\ playerRef w <> None.

(** A frame with two bullets on an enemy that has one health point left, a
    shot, and the next frame. *)
Definition doubleHitThenShot : list Event :=
  [EvFrame (1 / 100) 5000; EvClick 5010; EvFrame (1 / 100) 5016].

(** ** The update pass on the vectors of the meshes

    An entity is built with [position: mesh.position]: its position is the
    vector of its mesh, and two entities that hold the same mesh (a pool
    hands a released mesh out again while the entity that released it is
    still in its array) move one vector.  Here the positions are a store
    indexed by mesh and an entity is read through its mesh; the [position]
    field of the record is not used.  The player's position is the vector of
    [playerMesh]. *)
Definition Mesh_eqb (a b : Mesh) : bool :=
  match a, b with
  | playerMesh, playerMesh => true
  | sphere i, sphere j => Nat.eqb i j
  | _, _ => false
  end.

Definition MeshPositions : Type := Mesh -> Vec.

Definition setMeshPosition (pos : MeshPositions) (m : Mesh) (v : Vec) : MeshPositions :=
  fun m' => if Mesh_eqb m' m then v else pos m'.

(** The entity as the program reads it: its position is that of its mesh. *)
Definition viewIn (pos : MeshPositions) (e : GameEntity) : GameEntity :=
  setPosition e (pos (mesh e)).

(** [e.position.add(e.velocity.clone().multiplyScalar(delta))], on the vector
    of the mesh. *)
Definition advanceShared (pos : MeshPositions) (e : GameEntity) (delta : R)
  : MeshPositions :=
  setMeshPosition pos (mesh e)
    (Vector3.add (pos (mesh e)) (Vector3.multiplyScalar (velocity e) delta)).

Fixpoint updateBulletsShared (delta : R) (bullets : list GameEntity)
         (bulletPool : option MeshPool) (pos : MeshPositions)
  : list GameEntity * option MeshPool * MeshPositions :=
  match bullets with
  | [] => ([], bulletPool, pos)
  | b :: rest =>
      let pos1 := advanceShared pos b delta in
      if Rgtb (Vector3.z (pos1 (mesh b))) 50 || Rltb (Vector3.z (pos1 (mesh b))) (- 50)
      then updateBulletsShared delta rest (releaseIfPool bulletPool (mesh b)) pos1
      else
        let '(kept, bulletPool', pos') := updateBulletsShared delta rest bulletPool pos1 in
        (if active b then b :: kept else kept, bulletPool', pos')
  end.

(** The velocity is the entity's own vector. *)
Definition steerShared (pos : MeshPositions) (e : GameEntity) : GameEntity :=
  let toPlayer := Vector3.normalize (Vector3.sub (pos playerMesh) (pos (mesh e))) in
  setVelocity e
    (Vector3.clampLength (Vector3.add (velocity e) (Vector3.multiplyScalar toPlayer 2)) 0 8).

Fixpoint updateEnemiesShared (delta : R) (rnd : nat -> R) (k : nat)
         (enemies : list GameEntity) (enemyPool : option MeshPool) (pos : MeshPositions)
  : list GameEntity * option MeshPool * nat * MeshPositions :=
  match enemies with
  | [] => ([], enemyPool, k, pos)
  | e :: rest =>
      let pos1 := advanceShared pos e delta in
      let e2 := if Rltb (rnd k) (1 / 100) then steerShared pos1 e else e in
      if Rgtb (Vector3.z (pos1 (mesh e2))) 20
      then updateEnemiesShared delta rnd (S k) rest
                               (releaseIfPool enemyPool (mesh e2)) pos1
      else
        let '(kept, enemyPool', k', pos') :=
          updateEnemiesShared delta rnd (S k) rest enemyPool pos1 in
        (if active e2 && (0 <? health e2)%Z then e2 :: kept else kept, enemyPool', k', pos')
  end.

Fixpoint updatePowerUpsShared (delta : R) (powerUps : list GameEntity)
         (pos : MeshPositions) : list GameEntity * MeshPositions :=
  match powerUps with
  | [] => ([], pos)
  | p :: rest =>
      let pos1 := advanceShared pos p delta in
      if Rgtb (Vector3.z (pos1 (mesh p))) 20 then updatePowerUpsShared delta rest pos1
      else
        let (kept, pos') := updatePowerUpsShared delta rest pos1 in
        (if active p then p :: kept else kept, pos')
  end.

(** The three filters of a frame, in the order of the callback. *)
Record UpdatePass := mkUpdatePass {
  up_bullets : list GameEntity;
  up_enemies : list GameEntity;
  up_powerUps : list GameEntity;
  up_bulletPool : option MeshPool;
  up_enemyPool : option MeshPool;
  up_randomCalls : nat;
  up_positions : MeshPositions
}.

Definition updatePassShared (delta : R) (rnd : nat -> R) (w : World) (pos : MeshPositions)
  : UpdatePass :=
  let '(bullets1, bulletPool1, pos1) :=
    updateBulletsShared delta (bulletsRef w) (bulletPoolRef w) pos in
  let '(enemies1, enemyPool1, k1, pos2) :=
    updateEnemiesShared delta rnd (randomCalls w) (enemiesRef w) (enemyPoolRef w) pos1 in
  let (powerUps1, pos3) := updatePowerUpsShared delta (powerUpsRef w) pos2 in
  mkUpdatePass bullets1 enemies1 powerUps1 bulletPool1 enemyPool1 k1 pos3.

(** The entities of an array that hold the mesh [m]. *)
Definition holders (m : Mesh) (l : list GameEntity) : list GameEntity :=
  filter (fun e => Mesh_eqb (mesh e) m) l.

(** The mesh is held by one entity of the stores and no other. *)
Definition heldOnce (w : World) (m : Mesh) : Prop :=
  List.length (holders m (bulletsRef w ++ enemiesRef w ++ powerUpsRef w)) = 1%nat.

(** No mesh is held by two entities of the stores. *)
Definition unshared (w : World) : Prop :=
  NoDup (map mesh (bulletsRef w ++ enemiesRef w ++ powerUpsRef w)).

(** Every mesh at the same place, [z0] units along z. *)
Definition allAt (z0 : R) : MeshPositions := fun _ => Vector3.mk 0 0 z0.

(** A bullet that has hit (its mesh is back in the pool) and the bullet of
    the next shot, which the pool gave the same mesh. *)
Definition spentAndFresh : list GameEntity :=
  [mkEntity (IdBullet 0) (sphere 19) Vector3.zero (Vector3.mk 0 0 20) 1 1 bullet false
            (1 / 10);
   mkEntity (IdBullet 200) (sphere 19) Vector3.zero (Vector3.mk 0 0 20) 1 1 bullet true
            (1 / 10)].

(** Two bullets in flight that hold the same mesh. *)
Definition twoHolders : list GameEntity :=
  [mkEntity (IdBullet 0) (sphere 19) Vector3.zero (Vector3.mk 0 0 20) 1 1 bullet true
            (1 / 10);
   mkEntity (IdBullet 200) (sphere 19) Vector3.zero (Vector3.mk 0 0 20) 1 1 bullet true
            (1 / 10)].

(** Two bullets on two meshes, and the vectors of their meshes. *)
Definition twoBullets : list GameEntity :=
  [onAxis 19 bullet 10 20 1 1 (1/10); onAxis 18 bullet 40 20 1 1 (1/10)].

Definition twoBulletsPositions : MeshPositions :=
  setMeshPosition (allAt 10) (sphere 18) (Vector3.mk 0 0 40).

(** ** Game3D: when [PlayerController] is rendered

    [Game3D] renders the component inside the canvas only while the status is
    playing: [{gameState.status === 'playing' && <PlayerController ... />}].
    An instance keeps its refs from one render to the next.  When the status
    leaves playing the instance is unmounted and its refs are dropped; when
    the status is playing again a new instance is mounted: the refs hold
    their initial values, the player's mesh is attached at [0, 0, 0] and the
    effect builds new pools.  The allocator and the count of
    [Math.random()] calls belong to the environment and go on. *)
Record Session := mkSession {
  ses_gameState : GameState;
  ses_controller : option World;
  ses_heap : nat;
  ses_randomCalls : nat
}.

(** The refs of a new instance after its first commit. *)
Definition mountController (heap randomCalls : nat) : World :=
  attachRefs (mkWorld None [] [] [] (fun _ => false) 0 0 0 None None heap randomCalls 0).

(** The render of [Game3D] and its commit. *)
Definition render (s : Session) : Session :=
  match Status_eqb (status (ses_gameState s)) playing, ses_controller s with
  | true, None =>
      mkSession (ses_gameState s)
                (Some (mountController (ses_heap s) (ses_randomCalls s)))
                (ses_heap s) (ses_randomCalls s)
  | false, Some w => mkSession (ses_gameState s) None (heap w) (randomCalls w)
  | _, _ => s
  end.

(** [setGameState(f)], and the render it causes. *)
Definition dispatch (f : GameState -> GameState) (s : Session) : Session :=
  render (mkSession (f (ses_gameState s)) (ses_controller s) (ses_heap s)
                    (ses_randomCalls s)).

(** A game in play at score 300, with a bullet and two enemies in the
    field. *)
Definition sessionInPlay : Session :=
  mkSession (mkGameState playing 300 1 7 10 0 5 3 1 2 []) (Some oneBulletTwoEnemies) 0 0.

(** * Properties *)

(** ** Comparisons *)

Lemma Rltb_true_iff (x y : R) : Rltb x y = true <-> x < y.
Proof.
  unfold Rltb. destruct (Rlt_dec x y) as [H | H]; split; intro G;
    try reflexivity; try assumption; try discriminate. contradiction.
Qed.

Lemma Rltb_false_iff (x y : R) : Rltb x y = false <-> y <= x.
Proof.
  unfold Rltb. destruct (Rlt_dec x y) as [H | H]; split; intro G;
    try reflexivity; try discriminate; lra.
Qed.

(** ** The collision test *)

Lemma distanceTo_euclidean (p q : Vec) :
  Vector3.distanceTo p q = euclideanDistance p q.
Proof.
  unfold Vector3.distanceTo, Vector3.distanceToSquared, euclideanDistance.
  f_equal. ring.
Qed.

Lemma distanceToSquared_sym (p q : Vec) :
  Vector3.distanceToSquared p q = Vector3.distanceToSquared q p.
Proof. unfold Vector3.distanceToSquared. ring. Qed.

Lemma distanceToSquared_nonneg (p q : Vec) : 0 <= Vector3.distanceToSquared p q.
Proof.
  unfold Vector3.distanceToSquared. cbv zeta.
  pose proof (Rle_0_sqr (Vector3.x p - Vector3.x q)) as Hx.
  pose proof (Rle_0_sqr (Vector3.y p - Vector3.y q)) as Hy.
  pose proof (Rle_0_sqr (Vector3.z p - Vector3.z q)) as Hz.
  unfold Rsqr in *. lra.
Qed.

(** A way to decide the test without a square root. *)
Lemma checkCollision_squares (a b : GameEntity) :
  0 <= radius a + radius b ->
  (checkCollision a b = true <->
   Vector3.distanceToSquared (position a) (position b)
   < (radius a + radius b) * (radius a + radius b)).
Proof.
  intro Hr. unfold checkCollision. cbv zeta. rewrite Rltb_true_iff.
  unfold Vector3.distanceTo.
  pose proof (distanceToSquared_nonneg (position a) (position b)) as Hd.
  set (d := Vector3.distanceToSquared (position a) (position b)) in *.
  set (r := radius a + radius b) in *.
  rewrite <- (sqrt_square r) at 1 by assumption.
  split; intro H.
  - apply sqrt_lt_0_alt in H. exact H.
  - apply sqrt_lt_1_alt. split; assumption.
Qed.

(** C9.  [checkCollision a b] is true exactly when the Euclidean distance of
    the two positions is strictly below the sum of the radii, and the test is
    symmetric.  The function takes the two entities as values and returns
    only the boolean: it has no way to change them. *)
Theorem checkCollision_distance_sym (a b : GameEntity) :
  (checkCollision a b = true <->
   euclideanDistance (position a) (position b) < radius a + radius b)
  /\ checkCollision a b = checkCollision b a.
Proof.
  split.
  - unfold checkCollision. cbv zeta.
    rewrite Rltb_true_iff, distanceTo_euclidean. reflexivity.
  - unfold checkCollision, Vector3.distanceTo. cbv zeta.
    rewrite (distanceToSquared_sym (position a) (position b)).
    rewrite (Rplus_comm (radius a) (radius b)). reflexivity.
Qed.

(** ** The object pool *)

Section ObjectPoolFacts.

Context {T F : Type}.
Variable truthy : T -> bool.
Variable createFn : F -> T * F.

Lemma pop_push (a : list T) (item : T) : pop (push a item) = (Some item, a).
Proof.
  unfold pop, push. rewrite rev_app_distr. simpl. rewrite rev_involutive.
  reflexivity.
Qed.

Lemma pop_nil : pop (@nil T) = (None, []).
Proof. reflexivity. Qed.

Lemma nonempty_push (a : list T) :
  a <> [] -> exists a' item, a = push a' item.
Proof.
  intro Hne. destruct (rev a) as [| item r] eqn:E.
  - apply (f_equal (@rev T)) in E. rewrite rev_involutive in E.
    simpl in E. contradiction.
  - exists (rev r), item. unfold push.
    apply (f_equal (@rev T)) in E. rewrite rev_involutive in E.
    simpl in E. exact E.
Qed.

Lemma push_length (a : list T) (item : T) :
  List.length (push a item) = S (List.length a).
Proof. unfold push. rewrite length_app. simpl. lia. Qed.

Lemma releaseAll_length (items a : list T) :
  List.length (releaseAll a items) = (List.length a + List.length items)%nat.
Proof.
  unfold releaseAll. revert a.
  induction items as [| item items IH]; intro a; simpl.
  - lia.
  - rewrite IH. unfold release. rewrite push_length. lia.
Qed.

(** A [get] constructs at most one object. *)
Lemma get_counts (a : list T) (f : F) (c : nat) :
  let fc' := snd (get truthy (counting createFn) a (f, c)) in
  (c <= snd fc' <= S c)%nat.
Proof.
  unfold get, counting. destruct (pop a) as [[item |] a']; simpl.
  - destruct (truthy item); simpl.
    + lia.
    + destruct (createFn f); simpl. lia.
  - destruct (createFn f); simpl. lia.
Qed.

Lemma getN_counts (n : nat) :
  forall (a : list T) (f : F) (c : nat),
    let fc' := snd (getN truthy (counting createFn) n a (f, c)) in
    (c <= snd fc' <= c + n)%nat.
Proof.
  induction n as [| n IH]; intros a f c; simpl.
  - lia.
  - pose proof (get_counts a f c) as Hg. simpl in Hg.
    destruct (get truthy (counting createFn) a (f, c)) as [[item a1] [f1 c1]].
    simpl in Hg. specialize (IH a1 f1 c1). simpl in IH.
    destruct (getN truthy (counting createFn) n a1 (f1, c1)) as [[items a2] fc2].
    simpl in *. lia.
Qed.

Lemma getN_handles_length (n : nat) :
  forall (a : list T) (fc : F * nat),
    List.length (fst (fst (getN truthy (counting createFn) n a fc))) = n.
Proof.
  induction n as [| n IH]; intros a fc; simpl.
  - reflexivity.
  - destruct (get truthy (counting createFn) a fc) as [[item a1] fc1].
    specialize (IH a1 fc1).
    destruct (getN truthy (counting createFn) n a1 fc1) as [[items a2] fc2].
    simpl in *. lia.
Qed.

Hypothesis objects_truthy : forall item : T, truthy item = true.

(** With a free handle in the pool, [get] takes the last one and leaves the
    factory alone. *)
Lemma get_free (a : list T) (item : T) (fc : F * nat) :
  get truthy (counting createFn) (push a item) fc = (item, a, fc).
Proof.
  unfold get. rewrite pop_push, objects_truthy. reflexivity.
Qed.

Lemma getN_free (n : nat) :
  forall (a : list T) (fc : F * nat),
    (n <= List.length a)%nat ->
    snd (getN truthy (counting createFn) n a fc) = fc.
Proof.
  induction n as [| n IH]; intros a fc Hlen; simpl.
  - reflexivity.
  - destruct (nonempty_push a) as (a' & item & ->).
    { destruct a; simpl in Hlen; [lia | discriminate]. }
    rewrite get_free. rewrite push_length in Hlen.
    specialize (IH a' fc ltac:(lia)).
    destruct (getN truthy (counting createFn) n a' fc) as [[items a2] fc2].
    simpl in *. exact IH.
Qed.

(** C8.  From any pool, [N] calls of [get], then [release] of the [N]
    handles (in any order), then [N] more calls of [get]: the construction
    counter has advanced by at most [N], and not at all during the second
    batch. *)
Theorem pool_reuses_released_handles
        (N : nat) (a : list T) (f : F) (c : nat) (released : list T) :
  let batch1 := getN truthy (counting createFn) N a (f, c) in
  let handles := fst (fst batch1) in
  let a1 := snd (fst batch1) in
  Permutation released handles ->
  let batch2 := getN truthy (counting createFn) N (releaseAll a1 released) (snd batch1) in
  (snd (snd batch2) - c <= N)%nat /\ snd (snd batch2) = snd (snd batch1).
Proof.
  intros batch1 handles a1 Hperm batch2.
  assert (Hlen : List.length released = N).
  { rewrite (Permutation_length Hperm). apply getN_handles_length. }
  assert (Hsame : snd batch2 = snd batch1).
  { apply getN_free. rewrite releaseAll_length. lia. }
  rewrite Hsame. split; [| reflexivity].
  pose proof (getN_counts N a f c) as Hc. simpl in Hc.
  fold batch1 in Hc. lia.
Qed.

End ObjectPoolFacts.

Lemma pool_reuses_released_handles_witness :
  Permutation [sphere 1; sphere 0] [sphere 0; sphere 1] /\
  (let batch1 := getN meshTruthy (counting createSphere) 2 [] (0%nat, 0%nat) in
   let batch2 :=
     getN meshTruthy (counting createSphere) 2
          (releaseAll (snd (fst batch1)) [sphere 1; sphere 0]) (snd batch1) in
   (snd (snd batch2) - 0 <= 2)%nat /\ snd (snd batch2) = snd (snd batch1)).
Proof.
  split.
  - apply perm_swap.
  - apply (pool_reuses_released_handles meshTruthy createSphere
             (fun _ => eq_refl) 2 [] 0%nat 0%nat [sphere 1; sphere 0]).
    simpl. apply perm_swap.
Defined.

(** [pop() || createFn()] on a pool of numbers: a released 0 is falsy, so the
    next [get] drops it and constructs again.  Meshes are objects; this does
    not happen to them. *)
Example get_after_release_of_falsy :
  let truthyNumber := fun n : nat => negb (n =? 0)%nat in
  let zeroFactory := fun f : unit => (0%nat, f) in
  snd (get truthyNumber (counting zeroFactory) (release [] 0%nat) (tt, 1%nat))
  = (tt, 2%nat).
Proof. reflexivity. Qed.

(** ** The session commands *)

Lemma togglePause_status (prev : GameState) :
  status (togglePause prev) =
  match status prev with
  | playing => paused
  | menu | paused | gameover => playing
  end.
Proof. unfold togglePause. destruct (status prev); reflexivity. Qed.

(** C4 (what the command does in each status).  From the menu and from the
    game-over screen, [togglePause] and the [KeyP] shortcut that calls it set
    the status to [playing]: they do not leave it unchanged.  From [playing]
    the command yields [paused] and from [paused] it yields [playing]. *)
Theorem togglePause_starts_from_menu_and_gameover :
  status (togglePause initialGameState) = playing
  /\ status (handleKeyDown "KeyP" initialGameState) = playing
  /\ status (togglePause (setStatus initialGameState gameover)) = playing
  /\ status (handleKeyDown "KeyP" (setStatus initialGameState gameover)) = playing
  /\ status (togglePause (setStatus initialGameState playing)) = paused
  /\ status (togglePause (setStatus initialGameState paused)) = playing.
Proof. repeat split. Qed.

(** ** The fire command *)

Lemma shootBullet_rejected (now : Z) (w : World) :
  (now - lastShotRef w < 150)%Z -> shootBullet now w = w.
Proof.
  intro H. unfold shootBullet.
  destruct (Z.ltb_spec (now - lastShotRef w) 150) as [_ | G]; [reflexivity | lia].
Qed.

Lemma shootBullet_accepted (now : Z) (w : World) (p : Vec) (pool : MeshPool) :
  playerRef w = Some p -> bulletPoolRef w = Some pool ->
  (150 <= now - lastShotRef w)%Z ->
  exists m pool' heap',
    poolGet pool (heap w) = (m, pool', heap') /\
    shootBullet now w =
    mkWorld (Some p) (bulletsRef w ++ [newBullet now m p]) (enemiesRef w)
            (powerUpsRef w) (keysRef w) now (waveTimerRef w)
            (enemySpawnTimerRef w) (Some pool') (enemyPoolRef w)
            heap' (randomCalls w) (timeouts w).
Proof.
  intros Hp Hb Ht. unfold shootBullet.
  destruct (Z.ltb_spec (now - lastShotRef w) 150) as [G | _]; [lia |].
  simpl. rewrite Hp, Hb.
  destruct (poolGet pool (heap w)) as [[m pool'] heap'].
  exists m, pool', heap'. split; reflexivity.
Qed.

(** C6 (as amended).  With the player and the bullet pool in place, a fire
    request adds a bullet exactly when at least 150 ms have passed since the
    time in the fire timer, and adds none otherwise.  An accepted request sets the timer
    to the time of the request and appends one bullet, placed one unit in
    front of the player (z + 1) with velocity (0, 0, 20).  After an accepted
    request, a second one less than 150 ms later adds nothing (one bullet in
    all); one 150 ms or more later, so also 151 ms later, adds a second
    bullet. *)
Theorem fire_contract (now : Z) (w : World) (p : Vec) (pool : MeshPool) :
  playerRef w = Some p -> bulletPoolRef w = Some pool ->
  (bulletsCreated now w = 1%nat <-> (150 <= now - lastShotRef w)%Z)
  /\ ((now - lastShotRef w < 150)%Z -> shootBullet now w = w)
  /\ ((150 <= now - lastShotRef w)%Z ->
      lastShotRef (shootBullet now w) = now
      /\ exists b,
          bulletsRef (shootBullet now w) = bulletsRef w ++ [b]
          /\ type b = bullet /\ active b = true
          /\ position b = Vector3.mk (Vector3.x p) (Vector3.y p) (Vector3.z p + 1)
          /\ velocity b = Vector3.mk 0 0 20)
  /\ (forall later : Z,
        (150 <= now - lastShotRef w)%Z ->
        ((later - now < 150)%Z ->
         List.length (bulletsRef (shootBullet later (shootBullet now w)))
         = S (List.length (bulletsRef w)))
        /\ ((later - now = 151)%Z \/ (150 <= later - now)%Z ->
            List.length (bulletsRef (shootBullet later (shootBullet now w)))
            = S (S (List.length (bulletsRef w))))).
Proof.
  intros Hp Hb.
  assert (Hacc : (150 <= now - lastShotRef w)%Z ->
                 lastShotRef (shootBullet now w) = now
                 /\ playerRef (shootBullet now w) = Some p
                 /\ (exists pool', bulletPoolRef (shootBullet now w) = Some pool')
                 /\ exists b,
                     bulletsRef (shootBullet now w) = bulletsRef w ++ [b]
                     /\ type b = bullet /\ active b = true
                     /\ position b
                        = Vector3.mk (Vector3.x p) (Vector3.y p) (Vector3.z p + 1)
                     /\ velocity b = Vector3.mk 0 0 20).
  { intro Ht.
    destruct (shootBullet_accepted now w p pool Hp Hb Ht) as (m & pool' & heap' & _ & ->).
    simpl. repeat split.
    - exists pool'. reflexivity.
    - exists (newBullet now m p). repeat split. }
  split; [| split; [| split]].
  - unfold bulletsCreated. split.
    + intro H1. destruct (Z.lt_ge_cases (now - lastShotRef w) 150) as [G | G];
        [| exact G].
      rewrite (shootBullet_rejected now w G) in H1. lia.
    + intro Ht. destruct (Hacc Ht) as (_ & _ & _ & b & -> & _).
      rewrite length_app. simpl. lia.
  - apply shootBullet_rejected.
  - intro Ht. destruct (Hacc Ht) as (Hl & _ & _ & Hbul). split; assumption.
  - intros later Ht.
    destruct (Hacc Ht) as (Hl & Hp' & (pool' & Hb') & b & Hbul & _).
    split.
    + intro Hsoon. rewrite shootBullet_rejected by (rewrite Hl; exact Hsoon).
      rewrite Hbul, length_app. simpl. lia.
    + intro Hlate.
      assert (Ht2 : (150 <= later - lastShotRef (shootBullet now w))%Z)
        by (rewrite Hl; lia).
      destruct (shootBullet_accepted later _ p pool' Hp' Hb' Ht2)
        as (m2 & pool2 & heap2 & _ & ->).
      simpl. rewrite Hbul, !length_app. simpl. lia.
Qed.


(** C6 (counterexample).  Before the player's mesh and the pool are attached,
    a request made 1000 ms after the time in the fire timer adds no bullet.
    It still moves the timer: once the references are attached, a request
    100 ms later is rejected although no fire has succeeded yet. *)
Lemma fire_request_without_player_adds_no_bullet :
  let w := mountWorld (fun _ => false) in
  (150 <= 1000 - lastShotRef w)%Z
  /\ bulletsCreated 1000 w = 0%nat
  /\ bulletsCreated 1100 (attachRefs (shootBullet 1000 w)) = 0%nat
  /\ ~ (bulletsCreated 1000 w = 1%nat <-> (150 <= 1000 - lastShotRef w)%Z).
Proof.
  cbv zeta. split; [simpl; lia |]. split; [reflexivity |]. split; [reflexivity |].
  intros [_ Hback]. specialize (Hback ltac:(simpl; lia)). discriminate.
Qed.

Lemma fire_contract_witness :
  playerRef readyWorld = Some Vector3.zero
  /\ (exists pool, bulletPoolRef readyWorld = Some pool)
  /\ bulletsCreated 1000 readyWorld = 1%nat
  /\ List.length (bulletsRef (shootBullet 1100 (shootBullet 1000 readyWorld))) = 1%nat
  /\ List.length (bulletsRef (shootBullet 1151 (shootBullet 1000 readyWorld))) = 2%nat.
Proof.
  assert (Hpool : bulletPoolRef readyWorld = Some (map sphere (seq 0 20)))
    by reflexivity.
  destruct (fire_contract 1000 readyWorld Vector3.zero (map sphere (seq 0 20))
              eq_refl Hpool) as (Hiff & _ & _ & Htwo).
  assert (Ht : (150 <= 1000 - lastShotRef readyWorld)%Z) by (simpl; lia).
  split; [reflexivity |].
  split; [eexists; exact Hpool |].
  split; [apply Hiff; exact Ht |].
  destruct (Htwo 1100%Z Ht) as [Hsoon _].
  destruct (Htwo 1151%Z Ht) as [_ Hlate].
  split.
  - apply Hsoon. lia.
  - apply Hlate. left. lia.
Defined.

(** C10.  A request that passes the rate limit while the player reference or
    the bullet pool is missing still writes the time of the request into the
    fire timer and adds no bullet: the world is changed (the timer moved),
    and a request less than 150 ms later is rejected, whatever has been
    attached in between. *)
Theorem shootBullet_missing_ref_still_sets_timer (now : Z) (w : World) :
  (150 <= now - lastShotRef w)%Z ->
  playerRef w = None \/ bulletPoolRef w = None ->
  lastShotRef (shootBullet now w) = now
  /\ bulletsRef (shootBullet now w) = bulletsRef w
  /\ shootBullet now w <> w
  /\ forall (later : Z) (w2 : World),
      lastShotRef w2 = lastShotRef (shootBullet now w) ->
      (later - now < 150)%Z ->
      shootBullet later w2 = w2.
Proof.
  intros Ht Hmissing.
  assert (Hw : shootBullet now w = setLastShot w now).
  { unfold shootBullet.
    destruct (Z.ltb_spec (now - lastShotRef w) 150) as [G | _]; [lia |].
    simpl. destruct Hmissing as [-> | ->].
    - reflexivity.
    - destruct (playerRef w); reflexivity. }
  rewrite Hw. simpl. repeat split.
  - intro Heq. apply (f_equal lastShotRef) in Heq. simpl in Heq. lia.
  - intros later w2 Hl Hsoon. apply shootBullet_rejected. rewrite Hl. exact Hsoon.
Qed.

Lemma shootBullet_missing_ref_still_sets_timer_witness :
  let w := mountWorld (fun _ => false) in
  lastShotRef (shootBullet 1000 w) = 1000%Z
  /\ bulletsRef (shootBullet 1000 w) = []
  /\ shootBullet 1100 (initPools (shootBullet 1000 w)) = initPools (shootBullet 1000 w).
Proof.
  intro w.
  assert (Ht : (150 <= 1000 - lastShotRef w)%Z) by (simpl; lia).
  destruct (shootBullet_missing_ref_still_sets_timer 1000 w Ht (or_introl eq_refl))
    as (Hl & Hb & _ & Hnext).
  split; [exact Hl |]. split; [exact Hb |].
  apply Hnext; [reflexivity | lia].
Defined.

(** ** The update pass of a frame *)

Section UpdatePass.

Variable delta : R.

(** A property of an entity that does not look at where it is or how it
    moves. *)
Variable P : GameEntity -> Prop.
Hypothesis P_setPosition : forall e p, P e -> P (setPosition e p).
Hypothesis P_setVelocity : forall e v, P e -> P (setVelocity e v).

Lemma P_advance (e : GameEntity) : P e -> P (advance e delta).
Proof. intro H. unfold advance. apply P_setPosition. exact H. Qed.

Lemma updateBullets_preserves (bullets : list GameEntity) :
  forall pool, Forall P bullets -> Forall P (fst (updateBullets delta bullets pool)).
Proof.
  induction bullets as [| b rest IH]; intros pool Hall; simpl.
  - constructor.
  - inversion Hall as [| ? ? Hb Hrest]; subst.
    destruct (Rgtb _ 50 || Rltb _ (- 50)).
    + apply IH. exact Hrest.
    + specialize (IH pool Hrest).
      destruct (updateBullets delta rest pool) as [kept pool']. simpl in *.
      destruct (active b); [constructor; [apply P_advance; exact Hb |] |];
        exact IH.
Qed.

Lemma updateEnemies_preserves (playerPosition : Vec) (rnd : nat -> R)
      (enemies : list GameEntity) :
  forall k pool,
    Forall P enemies ->
    Forall P (fst (fst (updateEnemies delta playerPosition rnd k enemies pool))).
Proof.
  induction enemies as [| e rest IH]; intros k pool Hall; simpl.
  - constructor.
  - inversion Hall as [| ? ? He Hrest]; subst.
    set (e2 := if Rltb (rnd k) (1 / 100)
               then steer playerPosition (advance e delta) else advance e delta).
    assert (He2 : P e2).
    { unfold e2. destruct (Rltb (rnd k) (1 / 100)).
      - unfold steer. apply P_setVelocity, P_advance, He.
      - apply P_advance, He. }
    destruct (Rgtb (Vector3.z (position e2)) 20).
    + apply IH. exact Hrest.
    + specialize (IH (S k) pool Hrest).
      destruct (updateEnemies delta playerPosition rnd (S k) rest pool)
        as [[kept pool'] k'].
      simpl in *.
      destruct (active e2 && (0 <? health e2)%Z); [constructor |]; assumption.
Qed.

Lemma updatePowerUps_preserves (powerUps : list GameEntity) :
  Forall P powerUps -> Forall P (updatePowerUps delta powerUps).
Proof.
  induction powerUps as [| p rest IH]; intro Hall; simpl.
  - constructor.
  - inversion Hall as [| ? ? Hp Hrest]; subst.
    destruct (Rgtb _ 20); [apply IH; exact Hrest |].
    destruct (active p);
      [constructor; [apply P_advance; exact Hp |] |]; apply IH; exact Hrest.
Qed.

End UpdatePass.

(** The update pass keeps no entity whose active flag is off, and no enemy
    without health. *)
Lemma updateBullets_active (delta : R) (bullets : list GameEntity) :
  forall pool,
    Forall (fun e => active e = true) (fst (updateBullets delta bullets pool)).
Proof.
  induction bullets as [| b rest IH]; intro pool; simpl.
  - constructor.
  - destruct (Rgtb _ 50 || Rltb _ (- 50)); [apply IH |].
    specialize (IH pool).
    destruct (updateBullets delta rest pool) as [kept pool']. simpl in *.
    destruct (active b) eqn:Hb; [constructor |]; assumption.
Qed.

Lemma updateEnemies_active (delta : R) (playerPosition : Vec) (rnd : nat -> R)
      (enemies : list GameEntity) :
  forall k pool,
    Forall (fun e => active e = true /\ (0 < health e)%Z)
           (fst (fst (updateEnemies delta playerPosition rnd k enemies pool))).
Proof.
  induction enemies as [| e rest IH]; intros k pool; simpl.
  - constructor.
  - match goal with
    | |- context [Rgtb (Vector3.z (position ?e2)) 20] => set (e' := e2)
    end.
    destruct (Rgtb (Vector3.z (position e')) 20); [apply IH |].
    specialize (IH (S k) pool).
    destruct (updateEnemies delta playerPosition rnd (S k) rest pool)
      as [[kept pool'] k'].
    simpl in *.
    destruct (active e' && (0 <? health e')%Z) eqn:Hk; [| exact IH].
    constructor; [| exact IH].
    apply andb_true_iff in Hk. destruct Hk as [Ha Hh].
    split; [exact Ha | apply Z.ltb_lt; exact Hh].
Qed.

Lemma updatePowerUps_active (delta : R) (powerUps : list GameEntity) :
  Forall (fun e => active e = true) (updatePowerUps delta powerUps).
Proof.
  induction powerUps as [| p rest IH]; simpl.
  - constructor.
  - destruct (Rgtb _ 20); [exact IH |].
    destruct (active p) eqn:Hp; [constructor |]; assumption.
Qed.

(** Where a kept entity comes from: an entity of the store whose active flag
    was on when the frame began. *)
Lemma updateBullets_origin (delta : R) (bullets : list GameEntity) :
  forall pool,
    Forall (fun b => exists b0, In b0 bullets /\ active b0 = true /\ b = advance b0 delta)
           (fst (updateBullets delta bullets pool)).
Proof.
  induction bullets as [| b rest IH]; intro pool; simpl.
  - constructor.
  - assert (Hweak : forall l,
               Forall (fun b' => exists b0, In b0 rest /\ active b0 = true
                                            /\ b' = advance b0 delta) l ->
               Forall (fun b' => exists b0, (b = b0 \/ In b0 rest) /\ active b0 = true
                                            /\ b' = advance b0 delta) l).
    { intros l Hl. eapply Forall_impl; [| exact Hl].
      intros b' (b0 & Hin & Ha & Hb). exists b0. auto. }
    destruct (Rgtb _ 50 || Rltb _ (- 50)); [apply Hweak, IH |].
    specialize (IH pool).
    destruct (updateBullets delta rest pool) as [kept pool']. simpl in *.
    destruct (active b) eqn:Hb; [constructor |]; try (apply Hweak; exact IH).
    exists b. auto.
Qed.

Lemma updateEnemies_origin (delta : R) (playerPosition : Vec) (rnd : nat -> R)
      (enemies : list GameEntity) :
  forall k pool,
    Forall (fun e => exists e0, In e0 enemies /\ active e0 = true /\ (0 < health e0)%Z
                                /\ (e = advance e0 delta
                                    \/ e = steer playerPosition (advance e0 delta)))
           (fst (fst (updateEnemies delta playerPosition rnd k enemies pool))).
Proof.
  induction enemies as [| e rest IH]; intros k pool; simpl.
  - constructor.
  - assert (Hweak : forall l,
               Forall (fun e' => exists e0, In e0 rest /\ active e0 = true
                                            /\ (0 < health e0)%Z
                                            /\ (e' = advance e0 delta
                                                \/ e' = steer playerPosition
                                                              (advance e0 delta))) l ->
               Forall (fun e' => exists e0, (e = e0 \/ In e0 rest) /\ active e0 = true
                                            /\ (0 < health e0)%Z
                                            /\ (e' = advance e0 delta
                                                \/ e' = steer playerPosition
                                                              (advance e0 delta))) l).
    { intros l Hl. eapply Forall_impl; [| exact Hl].
      intros e' (e0 & Hin & Ha & Hh & He). exists e0. auto. }
    destruct (Rltb (rnd k) (1 / 100)).
    + destruct (Rgtb _ 20); [apply Hweak, IH |].
      specialize (IH (S k) pool).
      destruct (updateEnemies delta playerPosition rnd (S k) rest pool)
        as [[kept pool'] k'].
      simpl in *.
      destruct (active e && (0 <? health e)%Z) eqn:Hk;
        [constructor |]; try (apply Hweak; exact IH).
      apply andb_true_iff in Hk. destruct Hk as [Ha Hh]. apply Z.ltb_lt in Hh.
      exists e. auto.
    + destruct (Rgtb _ 20); [apply Hweak, IH |].
      specialize (IH (S k) pool).
      destruct (updateEnemies delta playerPosition rnd (S k) rest pool)
        as [[kept pool'] k'].
      simpl in *.
      destruct (active e && (0 <? health e)%Z) eqn:Hk;
        [constructor |]; try (apply Hweak; exact IH).
      apply andb_true_iff in Hk. destruct Hk as [Ha Hh]. apply Z.ltb_lt in Hh.
      exists e. auto.
Qed.

Lemma updatePowerUps_origin (delta : R) (powerUps : list GameEntity) :
  Forall (fun p => exists p0, In p0 powerUps /\ active p0 = true /\ p = advance p0 delta)
         (updatePowerUps delta powerUps).
Proof.
  induction powerUps as [| p rest IH]; simpl.
  - constructor.
  - assert (Hweak : Forall (fun p' => exists p0, (p = p0 \/ In p0 rest)
                                                 /\ active p0 = true
                                                 /\ p' = advance p0 delta)
                           (updatePowerUps delta rest)).
    { eapply Forall_impl; [| exact IH].
      intros p' (p0 & Hin & Ha & Hp). exists p0. auto. }
    destruct (Rgtb _ 20); [exact Hweak |].
    destruct (active p) eqn:Hp; [constructor |]; try exact Hweak.
    exists p. auto.
Qed.

(** ** The collision loops *)

Lemma sameBody_refl (e : GameEntity) : sameBody e e.
Proof. repeat split. Qed.

Lemma sameBody_trans (e1 e2 e3 : GameEntity) :
  sameBody e1 e2 -> sameBody e2 e3 -> sameBody e1 e3.
Proof.
  unfold sameBody.
  intros (A1 & A2 & A3 & A4 & A5 & A6 & A7) (B1 & B2 & B3 & B4 & B5 & B6 & B7).
  repeat split; congruence.
Qed.

(** One bullet against the enemy array: the bullet keeps its body and its
    health; each enemy keeps its body and loses at most one health point; the
    queue only grows by kill updates; the enemies are tested in index order,
    all of them. *)
Lemma bulletVsEnemies_spec (g : GameState) (i : nat) :
  forall (es : list GameEntity) (j : nat) (b : GameEntity) (fx : Effects),
    let r := bulletVsEnemies g i j b es fx in
    (sameBody b (fst (fst r)) /\ health (fst (fst r)) = health b)
    /\ Forall2 (hitBy 1) es (snd (fst r))
    /\ (exists q, fx_queue (snd r) = fx_queue fx ++ q
                  /\ Forall (eq (killUpdate g)) q)
    /\ (exists ts, fx_tests (snd r) = fx_tests fx ++ ts
                   /\ bulletEnemyTests ts = map (pair i) (seq j (List.length es))
                   /\ playerEnemyTests ts = []).
Proof.
  induction es as [| e rest IH]; intros j b fx; simpl.
  - repeat split.
    + constructor.
    + exists []. rewrite app_nil_r. split; [reflexivity | constructor].
    + exists []. rewrite app_nil_r. repeat split.
  - destruct (checkCollision b e) eqn:Hc;
      [destruct (health e - 1 <=? 0)%Z eqn:Hk |];
      match goal with
      | |- context [bulletVsEnemies g i (S j) ?b1 rest ?fx1] =>
          specialize (IH (S j) b1 fx1);
          destruct (bulletVsEnemies g i (S j) b1 rest fx1) as [[b' rest'] fx']
      end;
      simpl in *;
      destruct IH as ((Hbody & Hhealth) & Hes & (q & Hq & Hkill) & (ts & Hts & Hbe & Hpe)).
    + split; [split; [| exact Hhealth] |].
      { apply (sameBody_trans _ (setActive b false)); [repeat split | exact Hbody]. }
      split.
      { constructor; [| exact Hes]. split; [repeat split | simpl; lia]. }
      split.
      { exists (killUpdate g :: q). rewrite Hq, <- app_assoc. split; [reflexivity |].
        constructor; [reflexivity | exact Hkill]. }
      exists (TestBulletEnemy i j b e :: ts). rewrite Hts, <- app_assoc.
      simpl. rewrite Hbe, Hpe. repeat split.
    + split; [split; [| exact Hhealth] |].
      { apply (sameBody_trans _ (setActive b false)); [repeat split | exact Hbody]. }
      split.
      { constructor; [| exact Hes]. split; [repeat split | simpl; lia]. }
      split.
      { exists q. split; [exact Hq | exact Hkill]. }
      exists (TestBulletEnemy i j b e :: ts). rewrite Hts, <- app_assoc.
      simpl. rewrite Hbe, Hpe. repeat split.
    + split; [split; [exact Hbody | exact Hhealth] |].
      split.
      { constructor; [| exact Hes]. split; [repeat split | lia]. }
      split.
      { exists q. split; [exact Hq | exact Hkill]. }
      exists (TestBulletEnemy i j b e :: ts). rewrite Hts, <- app_assoc.
      simpl. rewrite Hbe, Hpe. repeat split.
Qed.

Lemma hitBy_trans (n m : Z) (e1 e2 e3 : GameEntity) :
  hitBy n e1 e2 -> hitBy m e2 e3 -> hitBy (n + m) e1 e3.
Proof.
  intros [B1 H1] [B2 H2]. split.
  - apply (sameBody_trans _ e2); assumption.
  - lia.
Qed.

Lemma Forall2_hitBy_trans (n m : Z) (l1 : list GameEntity) :
  forall l2 l3,
    Forall2 (hitBy n) l1 l2 -> Forall2 (hitBy m) l2 l3 ->
    Forall2 (hitBy (n + m)) l1 l3.
Proof.
  induction l1 as [| e1 l1 IH]; intros l2 l3 H12 H23.
  - inversion H12; subst. inversion H23; subst. constructor.
  - inversion H12 as [| ? e2 ? l2' He Hl]; subst.
    inversion H23 as [| ? e3 ? l3' He' Hl']; subst.
    constructor.
    + apply (hitBy_trans n m e1 e2 e3); assumption.
    + apply (IH l2'); assumption.
Qed.

Lemma Forall2_hitBy_refl (l : list GameEntity) : Forall2 (hitBy 0) l l.
Proof.
  induction l as [| e l IH]; constructor; [| exact IH].
  split; [apply sameBody_refl | lia].
Qed.

(** All bullets against the enemy array: an enemy loses at most one health
    point for each bullet, and every pair of indices is tested, bullet by
    bullet. *)
Lemma bulletsVsEnemies_spec (g : GameState) :
  forall (bs es : list GameEntity) (i : nat) (fx : Effects),
    let r := bulletsVsEnemies g i bs es fx in
    Forall2 (fun b b' => sameBody b b' /\ health b' = health b) bs (fst (fst r))
    /\ Forall2 (hitBy (Z.of_nat (List.length bs))) es (snd (fst r))
    /\ (exists q, fx_queue (snd r) = fx_queue fx ++ q
                  /\ Forall (eq (killUpdate g)) q)
    /\ (exists ts, fx_tests (snd r) = fx_tests fx ++ ts
                   /\ bulletEnemyTests ts
                      = list_prod (seq i (List.length bs)) (seq 0 (List.length es))
                   /\ playerEnemyTests ts = []).
Proof.
  induction bs as [| b rest IH]; intros es i fx.
  - simpl. split; [constructor |]. split; [apply Forall2_hitBy_refl |].
    split; exists []; rewrite app_nil_r; repeat split. constructor.
  - cbn [bulletsVsEnemies].
    pose proof (bulletVsEnemies_spec g i es 0%nat b fx) as Hin. cbv zeta in Hin.
    destruct (bulletVsEnemies g i 0 b es fx) as [[b' es1] fx1].
    specialize (IH es1 (S i) fx1). cbv zeta in IH.
    destruct (bulletsVsEnemies g (S i) rest es1 fx1) as [[rest' es2] fx2].
    cbn [fst snd] in *.
    destruct Hin as (Hb & Hes1 & (q1 & Hq1 & Hk1) & (ts1 & Hts1 & Hbe1 & Hpe1)).
    destruct IH as (Hrest & Hes2 & (q2 & Hq2 & Hk2) & (ts2 & Hts2 & Hbe2 & Hpe2)).
    split; [constructor; assumption |].
    split.
    { replace (Z.of_nat (List.length (b :: rest)))
        with (1 + Z.of_nat (List.length rest))%Z by (simpl List.length; lia).
      apply (Forall2_hitBy_trans 1 _ es es1 es2); assumption. }
    split.
    { exists (q1 ++ q2). rewrite Hq2, Hq1, <- app_assoc. split; [reflexivity |].
      apply Forall_app. split; assumption. }
    exists (ts1 ++ ts2). rewrite Hts2, Hts1, <- app_assoc.
    split; [reflexivity |].
    unfold bulletEnemyTests, playerEnemyTests in *.
    rewrite !flat_map_app, Hbe1, Hbe2, Hpe1, Hpe2.
    rewrite <- (Forall2_length Hes1).
    split; reflexivity.
Qed.

(** The player loop as a map over the array: the enemies that collide are
    deactivated, and each of them queues a damage update, followed by the
    gameover update when the rendered health is <= 1. *)
Lemma playerVsEnemies_spec (g : GameState) (pe : GameEntity) :
  forall (es : list GameEntity) (j : nat) (fx : Effects),
    let r := playerVsEnemies g pe j es fx in
    fst r = map (deactivateIfHit pe) es
    /\ fx_queue (snd r) = fx_queue fx ++ flat_map (hitUpdates g pe) es
    /\ (exists ts, fx_tests (snd r) = fx_tests fx ++ ts
                   /\ bulletEnemyTests ts = []
                   /\ playerEnemyTests ts = seq j (List.length es)).
Proof.
  induction es as [| e rest IH]; intros j fx; simpl.
  - split; [reflexivity |]. split; [rewrite app_nil_r; reflexivity |].
    exists []. rewrite app_nil_r. repeat split.
  - unfold deactivateIfHit at 1, hitUpdates at 1.
    destruct (checkCollision pe e) eqn:Hc;
      match goal with
      | |- context [playerVsEnemies g pe (S j) rest ?fx1] =>
          specialize (IH (S j) fx1);
          destruct (playerVsEnemies g pe (S j) rest fx1) as [rest' fx']
      end;
      cbn [fst snd] in *;
      destruct IH as (Hes & Hq & (ts & Hts & Hbe & Hpe)).
    + split; [rewrite Hes; reflexivity |].
      split.
      { rewrite Hq. destruct (gs_health g <=? 1)%Z; simpl;
          rewrite <- !app_assoc; reflexivity. }
      exists (TestPlayerEnemy j e :: ts). rewrite Hts.
      split.
      { destruct (gs_health g <=? 1)%Z; simpl; rewrite <- app_assoc; reflexivity. }
      simpl. rewrite Hbe, Hpe. split; reflexivity.
    + split; [rewrite Hes; reflexivity |].
      split; [rewrite Hq; reflexivity |].
      exists (TestPlayerEnemy j e :: ts). rewrite Hts. simpl.
      rewrite <- app_assoc. rewrite Hbe, Hpe. repeat split.
Qed.

Lemma In_splice1 {A : Type} (index : nat) (a : list A) (x : A) :
  In x (splice1 index a) -> In x a.
Proof.
  unfold splice1. intro H. apply in_app_or in H.
  rewrite <- (firstn_skipn index a). apply in_or_app.
  destruct H as [H | H]; [left; exact H | right].
  change (S index) with (1 + index)%nat in H.
  rewrite <- skipn_skipn in H.
  rewrite <- (firstn_skipn 1 (skipn index a)). apply in_or_app. right. exact H.
Qed.

(** The power-up loop only removes power-ups and only queues pickup
    updates. *)
Lemma playerVsPowerUps_spec (g : GameState) (now : Z) (pe : GameEntity) :
  forall (visits index : nat) (ps : list GameEntity) (fx : Effects),
    let r := playerVsPowerUps g now pe visits index ps fx in
    incl (fst r) ps
    /\ (exists q, fx_queue (snd r) = fx_queue fx ++ q
                  /\ Forall (fun u => exists p, u = pickupUpdate g (shieldFrom p now)) q)
    /\ (exists ts, fx_tests (snd r) = fx_tests fx ++ ts
                   /\ bulletEnemyTests ts = []
                   /\ playerEnemyTests ts = []).
Proof.
  induction visits as [| visits IH]; intros index ps fx; simpl.
  - split; [apply incl_refl |].
    split; exists []; rewrite app_nil_r; repeat split. constructor.
  - destruct (nth_error ps index) as [p |] eqn:Hnth; [| apply IH].
    destruct (checkCollision pe p) eqn:Hc;
      match goal with
      | |- context [playerVsPowerUps g now pe visits (S index) ?ps1 ?fx1] =>
          specialize (IH (S index) ps1 fx1);
          destruct (playerVsPowerUps g now pe visits (S index) ps1 fx1) as [ps' fx']
      end;
      cbn [fst snd] in *;
      destruct IH as (Hincl & (q & Hq & Hall) & (ts & Hts & Hbe & Hpe)).
    + split.
      { intros x Hx. apply (In_splice1 index). apply Hincl. exact Hx. }
      split.
      { exists (pickupUpdate g (shieldFrom p now) :: q).
        rewrite Hq. simpl. rewrite <- app_assoc. split; [reflexivity |].
        constructor; [exists p; reflexivity | exact Hall]. }
      exists (TestPlayerPowerUp index p :: ts). rewrite Hts. simpl.
      rewrite <- app_assoc. rewrite Hbe, Hpe. repeat split.
    + split; [exact Hincl |].
      split; [exists q; split; assumption |].
      exists (TestPlayerPowerUp index p :: ts). rewrite Hts. simpl.
      rewrite <- app_assoc. rewrite Hbe, Hpe. repeat split.
Qed.

Lemma spawnEnemy_spec (now : Z) (rnd : nat -> R) (w : World) :
  let w' := spawnEnemy now rnd w in
  playerRef w' = playerRef w /\ bulletsRef w' = bulletsRef w
  /\ powerUpsRef w' = powerUpsRef w /\ waveTimerRef w' = waveTimerRef w
  /\ exists spawned, enemiesRef w' = enemiesRef w ++ spawned
                     /\ Forall (spawnedEnemy now) spawned.
Proof.
  unfold spawnEnemy. destruct (enemyPoolRef w) as [pool |]; simpl.
  - destruct (poolGet pool (heap w)) as [[m pool'] heap']. simpl.
    repeat split. eexists. split; [reflexivity |].
    constructor; [| constructor]. unfold spawnedEnemy. eauto 6.
  - repeat split. exists []. rewrite app_nil_r. split; [reflexivity | constructor].
Qed.

Lemma enemySpawning_spec (g : GameState) (delta : R) (now : Z) (rnd : nat -> R)
      (w : World) :
  let w' := enemySpawning g delta now rnd w in
  playerRef w' = playerRef w /\ bulletsRef w' = bulletsRef w
  /\ powerUpsRef w' = powerUpsRef w /\ waveTimerRef w' = waveTimerRef w
  /\ exists spawned, enemiesRef w' = enemiesRef w ++ spawned
                     /\ Forall (spawnedEnemy now) spawned.
Proof.
  unfold enemySpawning. cbv zeta.
  destruct (Rgtb _ _).
  - pose proof (spawnEnemy_spec now rnd
                  (setEnemySpawnTimer w (enemySpawnTimerRef w + delta))) as H.
    cbv zeta in H. simpl in H. simpl. exact H.
  - simpl. repeat split. exists []. rewrite app_nil_r.
    split; [reflexivity | constructor].
Qed.

Lemma waveProgression_spec (g : GameState) (delta : R) (w : World) :
  let r := waveProgression g delta w in
  playerRef (fst r) = playerRef w /\ bulletsRef (fst r) = bulletsRef w
  /\ enemiesRef (fst r) = enemiesRef w /\ powerUpsRef (fst r) = powerUpsRef w
  /\ ((snd r = [waveUpdate g] /\ waveTimerRef (fst r) = 0
       /\ enemiesRef w = [] /\ (enemiesRemaining g <= 0)%Z
       /\ waveTimerRef w + delta > 3)
      \/ (snd r = []
          /\ ~ (enemiesRef w = [] /\ (enemiesRemaining g <= 0)%Z
                /\ waveTimerRef w + delta > 3))).
Proof.
  unfold waveProgression. cbv zeta.
  destruct (enemiesRef w) as [| e es] eqn:He; simpl.
  - destruct (Z.leb_spec (enemiesRemaining g) 0) as [Hr | Hr]; simpl.
    + unfold Rgtb. destruct (Rltb 3 (waveTimerRef w + delta)) eqn:Ht; simpl.
      * apply Rltb_true_iff in Ht. rewrite He. repeat split. left.
        repeat split; [exact Hr | lra].
      * apply Rltb_false_iff in Ht. rewrite He. repeat split. right.
        split; [reflexivity |]. intros (_ & _ & G). lra.
    + rewrite He. repeat split. right. split; [reflexivity |]. intros (_ & G & _). lia.
  - rewrite He. repeat split. right. split; [reflexivity |].
    intros (G & _). discriminate.
Qed.

(** What a frame that runs leaves behind, block by block: the stores, the
    queue (kill updates, then the player loop's updates, then pickup updates,
    then the wave update if any) and the collision tests. *)
Lemma frame_anatomy (g : GameState) (delta : R) (now : Z) (rnd : nat -> R)
      (w : World) (p0 : Vec) :
  status g = playing -> playerRef w = Some p0 ->
  let r := frame g delta now rnd w in
  let pe := playerEntityOf g (movePlayer (keysRef w) delta p0) in
  let nb := List.length (keptBullets delta w) in
  let ne := List.length (keptEnemies delta rnd w p0) in
  exists es2 spawned qk qp qw,
    Forall2 (fun b b' => sameBody b b' /\ health b' = health b)
            (keptBullets delta w) (bulletsRef (world r))
    /\ Forall2 (hitBy (Z.of_nat nb)) (keptEnemies delta rnd w p0) es2
    /\ enemiesRef (world r) = map (deactivateIfHit pe) es2 ++ spawned
    /\ Forall (spawnedEnemy now) spawned
    /\ incl (powerUpsRef (world r)) (keptPowerUps delta w)
    /\ queue r = qk ++ flat_map (hitUpdates g pe) es2 ++ qp ++ qw
    /\ Forall (eq (killUpdate g)) qk
    /\ Forall (fun u => exists p, u = pickupUpdate g (shieldFrom p now)) qp
    /\ ((qw = [waveUpdate g] /\ waveTimerRef (world r) = 0
         /\ enemiesRef (world r) = [] /\ (enemiesRemaining g <= 0)%Z
         /\ waveTimerRef w + delta > 3)
        \/ (qw = []
            /\ ~ (enemiesRef (world r) = [] /\ (enemiesRemaining g <= 0)%Z
                  /\ waveTimerRef w + delta > 3)))
    /\ bulletEnemyTests (tests r) = list_prod (seq 0 nb) (seq 0 ne)
    /\ playerEnemyTests (tests r) = seq 0 ne.
Proof.
  intros Hs Hp. unfold frame, keptBullets, keptEnemies, keptPowerUps.
  rewrite Hs, Hp. cbn [Status_eqb].
  set (p := movePlayer (keysRef w) delta p0).
  destruct (updateBullets delta (bulletsRef w) (bulletPoolRef w)) as [bs1 bp1].
  destruct (updateEnemies delta p rnd (randomCalls w) (enemiesRef w) (enemyPoolRef w))
    as [[es1 ep1] k1].
  set (ps1 := updatePowerUps delta (powerUpsRef w)).
  set (pe := playerEntityOf g p).
  pose proof (bulletsVsEnemies_spec g bs1 es1 0%nat (mkFx bp1 ep1 [] [])) as H1.
  cbv zeta in H1.
  destruct (bulletsVsEnemies g 0 bs1 es1 (mkFx bp1 ep1 [] [])) as [[bs2 es2] fx1].
  pose proof (playerVsEnemies_spec g pe es2 0%nat fx1) as H2. cbv zeta in H2.
  destruct (playerVsEnemies g pe 0 es2 fx1) as [es3 fx2].
  pose proof (playerVsPowerUps_spec g now pe (List.length ps1) 0%nat ps1 fx2) as H3.
  cbv zeta in H3.
  destruct (playerVsPowerUps g now pe (List.length ps1) 0 ps1 fx2) as [ps2 fx3].
  cbn [fst snd fx_queue fx_tests] in *.
  destruct H1 as (Hbs & Hes & (qk & Hqk & Hkill) & (ts1 & Hts1 & Hbe1 & Hpe1)).
  destruct H2 as (Hes3 & Hq2 & (ts2 & Hts2 & Hbe2 & Hpe2)).
  destruct H3 as (Hincl & (qp & Hq3 & Hpick) & (ts3 & Hts3 & Hbe3 & Hpe3)).
  match goal with
  | |- context [enemySpawning g delta now rnd ?w1] =>
      pose proof (enemySpawning_spec g delta now rnd w1) as H4;
      set (w2 := enemySpawning g delta now rnd w1) in *
  end.
  cbv zeta in H4. cbn [playerRef bulletsRef enemiesRef powerUpsRef waveTimerRef] in H4.
  destruct H4 as (Hp2 & Hb2 & Hpu2 & Hwt2 & (spawned & Hen2 & Hsp)).
  pose proof (waveProgression_spec g delta w2) as H5. cbv zeta in H5.
  destruct (waveProgression g delta w2) as [w3 qw].
  cbn [fst snd world queue tests] in *.
  destruct H5 as (Hp3 & Hb3 & Hen3 & Hpu3 & Hwave).
  exists es2, spawned, qk, qp, qw.
  rewrite Hb3, Hb2, Hen3, Hen2, Hpu3, Hpu2, Hes3.
  split; [exact Hbs |].
  split; [exact Hes |].
  split; [reflexivity |].
  split; [exact Hsp |].
  split; [exact Hincl |].
  split.
  { rewrite Hq3, Hq2, Hqk. simpl. rewrite <- !app_assoc. reflexivity. }
  split; [exact Hkill |].
  split; [exact Hpick |].
  split.
  { rewrite Hen2, Hes3, Hwt2 in Hwave. exact Hwave. }
  rewrite Hts3, Hts2, Hts1. simpl.
  unfold bulletEnemyTests, playerEnemyTests in *.
  rewrite !flat_map_app, Hbe1, Hbe2, Hbe3, Hpe1, Hpe2, Hpe3, !app_nil_r.
  rewrite <- (Forall2_length Hes). simpl.
  split; reflexivity.
Qed.

(** ** Merging the queued updates *)

Lemma applyUpdates_app (s : GameState) (q1 q2 : list PartialGameState) :
  applyUpdates s (q1 ++ q2) = applyUpdates (applyUpdates s q1) q2.
Proof. unfold applyUpdates. apply fold_left_app. Qed.

(** An invariant of the session state that every update of a frame keeps
    holds after the queue has been merged. *)
Lemma applyUpdates_invariant (g : GameState) (now : Z) (Inv : GameState -> Prop) :
  (forall s u, Inv s -> FrameUpdate g now u -> Inv (updateGameState s u)) ->
  forall q s, Forall (FrameUpdate g now) q -> Inv s -> Inv (applyUpdates s q).
Proof.
  intros Hstep q. induction q as [| u q IH]; intros s Hall Hs; simpl.
  - exact Hs.
  - inversion Hall as [| ? ? Hu Hq]; subst.
    apply IH; [exact Hq |]. apply Hstep; assumption.
Qed.

Lemma hitUpdates_health (g : GameState) (pe : GameEntity) (es : list GameEntity) :
  forall s,
    gs_health (applyUpdates s (flat_map (hitUpdates g pe) es))
    = if existsb (checkCollision pe) es then Z.max 0 (gs_health g - 1) else gs_health s.
Proof.
  induction es as [| e rest IH]; intro s; simpl.
  - reflexivity.
  - rewrite applyUpdates_app, IH. unfold hitUpdates.
    destruct (checkCollision pe e); simpl; [| reflexivity].
    destruct (existsb (checkCollision pe) rest); [reflexivity |].
    destruct (gs_health g <=? 1)%Z; reflexivity.
Qed.

Lemma hitUpdates_status (g : GameState) (pe : GameEntity) (es : list GameEntity) :
  forall s,
    status (applyUpdates s (flat_map (hitUpdates g pe) es))
    = if existsb (checkCollision pe) es && (gs_health g <=? 1)%Z
      then gameover else status s.
Proof.
  induction es as [| e rest IH]; intro s; simpl.
  - reflexivity.
  - rewrite applyUpdates_app, IH. unfold hitUpdates.
    destruct (checkCollision pe e); simpl; [| reflexivity].
    destruct (gs_health g <=? 1)%Z; simpl.
    + destruct (existsb (checkCollision pe) rest); reflexivity.
    + rewrite andb_false_r. reflexivity.
Qed.

Lemma queuedSince_app (fx fx' : Effects) (q : list PartialGameState) :
  fx_queue fx' = fx_queue fx ++ q -> queuedSince fx fx' = q.
Proof.
  intro H. unfold queuedSince. rewrite H, skipn_app, skipn_all, Nat.sub_diag.
  reflexivity.
Qed.

(** ** Running a frame on given numbers *)

Lemma Rltb_yes (x y : R) : x < y -> Rltb x y = true.
Proof. apply Rltb_true_iff. Qed.
Lemma Rltb_no (x y : R) : y <= x -> Rltb x y = false.
Proof. apply Rltb_false_iff. Qed.

(** Concrete frames are run by unfolding the callback and settling each
    comparison of numbers with [lra]. *)
Ltac decide_Rltb :=
  match goal with
  | |- context [Rltb ?a ?b] =>
      first [ rewrite (Rltb_yes a b) by lra | rewrite (Rltb_no a b) by lra ]
  end.

Lemma collide_yes (a b : GameEntity) :
  0 <= radius a + radius b ->
  Vector3.distanceToSquared (position a) (position b)
  < (radius a + radius b) * (radius a + radius b) ->
  checkCollision a b = true.
Proof. intros Hr Hd. apply checkCollision_squares; assumption. Qed.

Lemma collide_no (a b : GameEntity) :
  0 <= radius a + radius b ->
  (radius a + radius b) * (radius a + radius b)
  <= Vector3.distanceToSquared (position a) (position b) ->
  checkCollision a b = false.
Proof.
  intros Hr Hd. destruct (checkCollision a b) eqn:E; [| reflexivity].
  apply checkCollision_squares in E; [lra | exact Hr].
Qed.

Ltac decide_collision :=
  match goal with
  | |- context [checkCollision ?a ?b] =>
      first [ rewrite (collide_yes a b)
                by (unfold Vector3.distanceToSquared; cbn; lra)
            | rewrite (collide_no a b)
                by (unfold Vector3.distanceToSquared; cbn; lra) ]
  end.

Lemma clampPosition_inside (p bounds : Vec) :
  - Vector3.x bounds <= Vector3.x p <= Vector3.x bounds ->
  - Vector3.y bounds <= Vector3.y p <= Vector3.y bounds ->
  - Vector3.z bounds <= Vector3.z p <= Vector3.z bounds ->
  clampPosition p bounds = p.
Proof.
  intros Hx Hy Hz. unfold clampPosition. destruct p as [px py pz]. simpl in *.
  rewrite !Rmin_right, !Rmax_right by lra. reflexivity.
Qed.

Lemma movePlayer_idle_origin (delta : R) :
  movePlayer (fun _ => false) delta Vector3.zero = Vector3.zero.
Proof.
  unfold movePlayer. simpl. apply clampPosition_inside; simpl; lra.
Qed.

Ltac run_frame :=
  unfold frame, enemySpawning, waveProgression, maybeSchedulePowerUp, spawnEnemy, Rgtb;
  repeat (cbn -[Rltb Rgtb movePlayer checkCollision]; unfold Rgtb;
          rewrite ?movePlayer_idle_origin;
          try first [decide_Rltb | decide_collision]).

(** ** The frame as a whole *)

Lemma hitUpdates_FrameUpdate (g : GameState) (now : Z) (pe : GameEntity)
      (es : list GameEntity) :
  Forall (FrameUpdate g now) (flat_map (hitUpdates g pe) es).
Proof.
  induction es as [| e rest IH]; simpl.
  - constructor.
  - apply Forall_app. split; [| exact IH].
    unfold hitUpdates. destruct (checkCollision pe e); [| constructor].
    constructor; [constructor |].
    destruct (Z.leb_spec (gs_health g) 1); constructor; [| constructor].
    constructor. assumption.
Qed.

Lemma frame_idle (g : GameState) (delta : R) (now : Z) (rnd : nat -> R) (w : World) :
  status g <> playing \/ playerRef w = None ->
  frame g delta now rnd w = mkFrame w [] [].
Proof.
  intros [H | H]; unfold frame.
  - destruct (status g); try reflexivity. contradiction.
  - rewrite H. destruct (Status_eqb (status g) playing); reflexivity.
Qed.

Lemma frame_runs_or_idles (g : GameState) (w : World) :
  (status g = playing /\ exists p0, playerRef w = Some p0)
  \/ (status g <> playing \/ playerRef w = None).
Proof.
  destruct (status g) eqn:Hs; try (right; left; discriminate).
  destruct (playerRef w) as [p0 |]; [left | right; right; reflexivity].
  split; [reflexivity | exists p0; reflexivity].
Qed.

(** Every update a frame queues is one of the five the callback builds from
    the rendered state. *)
Lemma frame_queue_updates (g : GameState) (delta : R) (now : Z) (rnd : nat -> R)
      (w : World) :
  Forall (FrameUpdate g now) (queue (frame g delta now rnd w)).
Proof.
  destruct (frame_runs_or_idles g w) as [(Hs & p0 & Hp) | Hidle].
  - destruct (frame_anatomy g delta now rnd w p0 Hs Hp)
      as (es2 & spawned & qk & qp & qw & _ & _ & _ & _ & _ & Hq & Hk & Hpick & Hw & _).
    rewrite Hq. repeat (apply Forall_app; split).
    + eapply Forall_impl; [| exact Hk]. intros u <-. constructor.
    + apply hitUpdates_FrameUpdate.
    + eapply Forall_impl; [| exact Hpick]. intros u [p ->]. constructor.
    + destruct Hw as [(-> & _) | (-> & _)]; repeat constructor.
  - rewrite (frame_idle g delta now rnd w Hidle). constructor.
Qed.

(** C3 (as amended).  No frame removes an effect from [activePowerUps],
    whatever its age: after a frame the list is the rendered list, or the
    rendered list with one shield effect of duration 10 stamped with the
    current time appended (a power-up was collected).  Only [startGame]
    empties the list. *)
Theorem frame_never_prunes_effects (g : GameState) (delta : R) (now : Z)
        (rnd : nat -> R) (w : World) :
  let s' := fst (stepGame delta now rnd (g, w)) in
  (forall p, In p (activePowerUps g) -> In p (activePowerUps s'))
  /\ (activePowerUps s' = activePowerUps g
      \/ exists powerUp,
          activePowerUps s' = activePowerUps g ++ [mkPowerUp (id powerUp) shield 10 true now])
  /\ activePowerUps (startGame g) = [].
Proof.
  cbv zeta. unfold stepGame. cbn [fst snd].
  assert (H : activePowerUps (applyUpdates g (queue (frame g delta now rnd w)))
              = activePowerUps g
              \/ exists powerUp,
                  activePowerUps (applyUpdates g (queue (frame g delta now rnd w)))
                  = activePowerUps g ++ [shieldFrom powerUp now]).
  { apply (applyUpdates_invariant g now
             (fun s => activePowerUps s = activePowerUps g
                       \/ exists powerUp,
                           activePowerUps s = activePowerUps g ++ [shieldFrom powerUp now])).
    - intros s u Hs Hu. destruct Hu; simpl; try exact Hs.
      right. exists powerUp. reflexivity.
    - apply frame_queue_updates.
    - left. reflexivity. }
  split; [| split; [exact H | reflexivity]].
  intros p Hp. destruct H as [-> | [powerUp ->]]; [exact Hp |].
  apply in_or_app. left. exact Hp.
Qed.

(** C3 (counterexample).  A shield collected at time 0 with duration 10 is
    still in [activePowerUps] after a frame at time 1000000 ms. *)
Lemma expired_effect_survives_frame :
  let g := playingState 10 5 [staleShield] in
  let s' := fst (stepGame (1 / 60) 1000000 (fun _ => 1 / 2) (g, readyWorld)) in
  activePowerUps s' = [staleShield]
  /\ expired 1000000 staleShield = true
  /\ ~ (forall p, In p (activePowerUps s') -> expired 1000000 p = false).
Proof.
  cbv zeta.
  assert (H : activePowerUps
                (fst (stepGame (1 / 60) 1000000 (fun _ => 1 / 2)
                               (playingState 10 5 [staleShield], readyWorld)))
              = [staleShield]).
  { unfold stepGame. cbn [fst snd]. run_frame. reflexivity. }
  split; [exact H |]. split; [reflexivity |].
  intro Hall. specialize (Hall staleShield). rewrite H in Hall.
  specialize (Hall (or_introl eq_refl)). discriminate.
Qed.

Lemma existsb_none {A : Type} (f : A -> bool) (l : list A) :
  Forall (fun x => f x = false) l -> existsb f l = false.
Proof.
  induction 1 as [| x l Hx Hl IH]; simpl; [reflexivity |].
  rewrite Hx, IH. reflexivity.
Qed.

Lemma hitUpdates_no_wave (g : GameState) (pe : GameEntity) (es : list GameEntity) :
  Forall (fun u => u_wave u = None) (flat_map (hitUpdates g pe) es).
Proof.
  induction es as [| e rest IH]; simpl; [constructor |].
  apply Forall_app. split; [| exact IH].
  unfold hitUpdates. destruct (checkCollision pe e); [| constructor].
  constructor; [reflexivity |].
  destruct (gs_health g <=? 1)%Z; repeat constructor.
Qed.

(** C7.  A frame queues a wave update only when, at the check, no active
    enemy is left (the enemy array is empty), [enemiesRemaining] of the
    rendered state is <= 0 and the wave timer plus this frame's delta exceeds
    3 seconds.  When it does, the merged state has wave and level one above
    the rendered ones, [enemiesRemaining] = 5 + the rendered wave, and the
    wave timer is back at 0. *)
Theorem wave_progression (g : GameState) (delta : R) (now : Z) (rnd : nat -> R)
        (w : World) :
  let r := frame g delta now rnd w in
  let s' := applyUpdates g (queue r) in
  waveFired r = true ->
  (enemiesRef (world r) = []
   /\ List.length (filter active (enemiesRef (world r))) = 0%nat
   /\ (enemiesRemaining g <= 0)%Z
   /\ waveTimerRef w + delta > 3)
  /\ wave s' = (wave g + 1)%Z
  /\ level s' = (level g + 1)%Z
  /\ enemiesRemaining s' = (5 + wave g)%Z
  /\ waveTimerRef (world r) = 0.
Proof.
  cbv zeta. intro Hfired.
  destruct (frame_runs_or_idles g w) as [(Hs & p0 & Hp) | Hidle].
  2: { rewrite (frame_idle g delta now rnd w Hidle) in Hfired. discriminate. }
  destruct (frame_anatomy g delta now rnd w p0 Hs Hp)
    as (es2 & spawned & qk & qp & qw & _ & _ & _ & _ & _ & Hq & Hk & Hpick & Hw & _).
  unfold waveFired in Hfired. rewrite Hq in *.
  rewrite !app_assoc in *.
  rewrite existsb_app in Hfired.
  rewrite existsb_none in Hfired.
  2: { repeat (apply Forall_app; split).
       - eapply Forall_impl; [| exact Hk]. intros u <-. reflexivity.
       - eapply Forall_impl; [| apply hitUpdates_no_wave].
         intros u Hu. simpl in Hu. rewrite Hu. reflexivity.
       - eapply Forall_impl; [| exact Hpick]. intros u [p ->]. reflexivity. }
  destruct Hw as [(-> & Ht0 & Hen & Hrem & Htimer) | (-> & _)];
    [| discriminate].
  rewrite applyUpdates_app. simpl.
  rewrite Hen. simpl. repeat split; assumption.
Qed.

Lemma wave_progression_witness :
  let g := playingState 10 0 [] in
  let r := frame g (1 / 10) 5000 (fun _ => 1 / 2) (setWaveTimer readyWorld 3) in
  waveFired r = true
  /\ wave (applyUpdates g (queue r)) = 2%Z
  /\ enemiesRemaining (applyUpdates g (queue r)) = 6%Z.
Proof.
  cbv zeta.
  assert (Hfired : waveFired (frame (playingState 10 0 []) (1 / 10) 5000
                                    (fun _ => 1 / 2) (setWaveTimer readyWorld 3))
                   = true).
  { run_frame. reflexivity. }
  destruct (wave_progression (playingState 10 0 []) (1 / 10) 5000 (fun _ => 1 / 2)
                             (setWaveTimer readyWorld 3) Hfired)
    as (_ & Hwave & _ & Hrem & _).
  split; [exact Hfired |]. split; [exact Hwave | exact Hrem].
Defined.

(** The other direction: under these conditions the frame does queue the wave
    update. *)
Lemma wave_progression_fires (g : GameState) (delta : R) (now : Z) (rnd : nat -> R)
      (w : World) (p0 : Vec) :
  status g = playing -> playerRef w = Some p0 ->
  enemiesRef (world (frame g delta now rnd w)) = [] ->
  (enemiesRemaining g <= 0)%Z ->
  waveTimerRef w + delta > 3 ->
  waveFired (frame g delta now rnd w) = true.
Proof.
  intros Hs Hp Hen Hrem Ht.
  destruct (frame_anatomy g delta now rnd w p0 Hs Hp)
    as (es2 & spawned & qk & qp & qw & _ & _ & _ & _ & _ & Hq & _ & _ & Hw & _).
  unfold waveFired. rewrite Hq.
  destruct Hw as [(-> & _) | (_ & Hno)].
  - rewrite !existsb_app. simpl. rewrite !orb_true_r. reflexivity.
  - exfalso. apply Hno. repeat split; assumption.
Qed.

Lemma Forall2_Forall {A : Type} (R : A -> A -> Prop) (P Q : A -> Prop) (l l' : list A) :
  (forall a b, R a b -> P a -> Q b) ->
  Forall2 R l l' -> Forall P l -> Forall Q l'.
Proof.
  intros Hstep H2. induction H2 as [| a b l l' Hab Hl IH]; intro HP.
  - constructor.
  - inversion HP; subst. constructor; [eapply Hstep; eassumption | apply IH; assumption].
Qed.

(** C5 (counterexample).  Two bullets overlap an enemy of health 1 in the
    same frame: each hit takes 1, and the enemy is left with health -1. *)
Lemma enemy_health_goes_negative :
  let g := playingState 10 5 [] in
  let r := frame g (1 / 100) 5000 (fun _ => 1 / 2) twoBulletsOneEnemy in
  map health (enemiesRef twoBulletsOneEnemy) = [1]%Z
  /\ map health (enemiesRef (world r)) = [-1]%Z
  /\ ~ Forall wellFormed (enemiesRef (world r)).
Proof.
  cbv zeta.
  assert (H : map health
                (enemiesRef (world (frame (playingState 10 5 []) (1 / 100) 5000
                                          (fun _ => 1 / 2) twoBulletsOneEnemy)))
              = [-1]%Z).
  { run_frame. reflexivity. }
  split; [reflexivity |]. split; [exact H |].
  intro Hall.
  assert (Hneg : Forall (fun h => 0 <= h)%Z
                        (map health
                             (enemiesRef (world (frame (playingState 10 5 []) (1 / 100)
                                                       5000 (fun _ => 1 / 2)
                                                       twoBulletsOneEnemy))))).
  { apply Forall_map. eapply Forall_impl; [| exact Hall]. intros e [[Hh _] _]. exact Hh. }
  rewrite H in Hneg. inversion Hneg; subst. lia.
Qed.

(** The entities created outside the frame are well formed too. *)
Lemma shootBullet_wellFormed (now : Z) (w : World) :
  Forall wellFormed (bulletsRef w) -> Forall wellFormed (bulletsRef (shootBullet now w)).
Proof.
  intro Hall. unfold shootBullet.
  destruct (now - lastShotRef w <? 150)%Z; [exact Hall |].
  simpl. destruct (playerRef w) as [p |]; [| exact Hall].
  destruct (bulletPoolRef w) as [pool |]; [| exact Hall].
  destruct (poolGet pool (heap w)) as [[m pool'] heap']. simpl.
  apply Forall_app. split; [exact Hall |].
  constructor; [| constructor]. split; simpl; [lia | lra].
Qed.

Lemma spawnPowerUp_wellFormed (now : Z) (rnd : nat -> R) (w : World) :
  Forall wellFormed (powerUpsRef w) ->
  Forall wellFormed (powerUpsRef (spawnPowerUp now rnd w)).
Proof.
  intro Hall. unfold spawnPowerUp.
  destruct (Rgtb _ _); simpl; [exact Hall |].
  apply Forall_app. split; [exact Hall |].
  constructor; [| constructor]. split; simpl; [lia | lra].
Qed.

Lemma enemyInRange_enemyBounded (n : nat) (e : GameEntity) :
  enemyInRange n e -> enemyBounded e.
Proof. intros (Hh & Hr & _). split; assumption. Qed.

(** The ranges over one frame.  The enemies need no lower bound on their
    health when the frame begins: the filter of the update pass keeps those
    with health > 0 only. *)
Lemma frame_ranges (g : GameState) (delta : R) (now : Z) (rnd : nat -> R) (w : World) :
  inRange (g, w) ->
  let r := frame g delta now rnd w in
  let s' := applyUpdates g (queue r) in
  inRange (s', world r)
  /\ gs_maxHealth s' = gs_maxHealth g
  /\ (frameRuns g w \/ Forall wellFormed (enemiesRef w) ->
      Forall (enemyInRange (List.length (bulletsRef (world r)))) (enemiesRef (world r))).
Proof.
  intros (Hb & He & Hp & Hg). cbn [fst snd] in *. cbv zeta.
  assert (Hsession :
            gs_maxHealth (applyUpdates g (queue (frame g delta now rnd w)))
            = gs_maxHealth g
            /\ (0 <= gs_health (applyUpdates g (queue (frame g delta now rnd w)))
                <= gs_maxHealth g)%Z).
  { apply (applyUpdates_invariant g now
             (fun s => gs_maxHealth s = gs_maxHealth g
                       /\ (0 <= gs_health s <= gs_maxHealth g)%Z)).
    - intros s u [Hm Hh] Hu. destruct Hu; simpl; (split; [exact Hm |]); lia.
    - apply frame_queue_updates.
    - split; [reflexivity | exact Hg]. }
  destruct Hsession as [Hm Hh].
  destruct (frame_runs_or_idles g w) as [(Hs & p0 & Hpl) | Hidle].
  2: { rewrite (frame_idle g delta now rnd w Hidle) in *. cbn [world queue] in *.
       split; [| split].
       - unfold inRange. cbn [fst snd applyUpdates fold_left].
         repeat split; try assumption; apply Hg.
       - reflexivity.
       - intros [[Hs Hpl] | Hwf].
         + destruct Hidle as [Hn | Hn]; contradiction.
         + eapply Forall_impl; [| exact Hwf].
           intros e [Hhe Hr]. unfold enemyInRange. repeat split; try lia; exact Hr. }
  destruct (frame_anatomy g delta now rnd w p0 Hs Hpl)
    as (es2 & spawned & qk & qp & qw & Hbs & Hes & Hen & Hsp & Hincl & _).
  assert (Hkb : Forall wellFormed (keptBullets delta w)).
  { apply updateBullets_preserves; [intros e p H; exact H | exact Hb]. }
  assert (Hkp : Forall wellFormed (keptPowerUps delta w)).
  { apply updatePowerUps_preserves; [intros e p H; exact H | exact Hp]. }
  assert (Hke : Forall (fun e => enemyBounded e /\ (0 < health e)%Z)
                       (keptEnemies delta rnd w p0)).
  { apply Forall_and.
    - apply updateEnemies_preserves;
        [intros e p H; exact H | intros e v H; exact H | exact He].
    - eapply Forall_impl; [| apply updateEnemies_active].
      intros e [_ H]. exact H. }
  assert (Hb' : Forall wellFormed (bulletsRef (world (frame g delta now rnd w)))).
  { apply (Forall2_Forall (fun b b' => sameBody b b' /\ health b' = health b)
                          wellFormed wellFormed (keptBullets delta w));
      [| exact Hbs | exact Hkb].
    intros a b [(_ & _ & _ & _ & Hmx & _ & Hr) Hhb] [Ha Hra].
    unfold wellFormed. rewrite Hmx, Hhb, Hr. split; assumption. }
  assert (Hp' : Forall wellFormed (powerUpsRef (world (frame g delta now rnd w)))).
  { apply Forall_forall. intros e Hin.
    apply (proj1 (Forall_forall _ _) Hkp). apply Hincl. exact Hin. }
  assert (He' : Forall (enemyInRange
                          (List.length (bulletsRef (world (frame g delta now rnd w)))))
                       (enemiesRef (world (frame g delta now rnd w)))).
  { rewrite <- (Forall2_length Hbs). rewrite Hen. apply Forall_app. split.
    - apply Forall_map.
      apply (Forall2_Forall (hitBy (Z.of_nat (List.length (keptBullets delta w))))
                            (fun e => enemyBounded e /\ (0 < health e)%Z) _
                            (keptEnemies delta rnd w p0));
        [| exact Hes | exact Hke].
      intros a b [(_ & _ & _ & _ & Hmx & _ & Hr) Hhb] [[Ha Hra] Hpos].
      unfold enemyInRange, deactivateIfHit.
      destruct (checkCollision _ b);
        cbn [health maxHealth radius setActive]; rewrite Hmx, Hr;
        (split; [lia |]); (split; [exact Hra | lia]).
    - eapply Forall_impl; [| exact Hsp].
      intros e (m & r0 & r1 & r2 & r3 & ->). unfold enemyInRange.
      cbn [health maxHealth radius newEnemy].
      split; [lia |]. split; [lra | lia]. }
  split; [| split; [exact Hm | intros _; exact He']].
  unfold inRange. cbn [fst snd].
  split; [exact Hb' |]. split.
  { eapply Forall_impl; [| exact He']. intros e. apply enemyInRange_enemyBounded. }
  split; [exact Hp' |]. rewrite Hm. exact Hh.
Qed.

Lemma handleEvent_inRange (rnd : nat -> R) (sw : GameState * World) (ev : Event) :
  inRange sw -> inRange (handleEvent rnd sw ev).
Proof.
  destruct sw as [g w]. intro Hin.
  destruct ev as [delta now | now | code | code | now]; cbn [handleEvent fst snd].
  - unfold stepGame. cbn [fst snd].
    exact (proj1 (frame_ranges g delta now rnd w Hin)).
  - destruct Hin as (Hb & He & Hp & Hg). cbn [fst snd] in *.
    unfold inRange. cbn [fst snd]. unfold handleMouseClick.
    destruct (Status_eqb (status g) playing);
      [| repeat split; try assumption; apply Hg].
    split; [apply shootBullet_wellFormed; exact Hb |].
    assert (Hsame : enemiesRef (shootBullet now w) = enemiesRef w
                    /\ powerUpsRef (shootBullet now w) = powerUpsRef w).
    { unfold shootBullet. destruct (now - lastShotRef w <? 150)%Z; [split; reflexivity |].
      cbn [setLastShot playerRef bulletPoolRef].
      destruct (playerRef w); [| split; reflexivity].
      destruct (bulletPoolRef w) as [pool |]; [| split; reflexivity].
      change (heap (setLastShot w now)) with (heap w).
      destruct (poolGet pool (heap w)) as [[m pool'] heap'].
      split; reflexivity. }
    destruct Hsame as [-> ->]. repeat split; try assumption; apply Hg.
  - exact Hin.
  - exact Hin.
  - destruct Hin as (Hb & He & Hp & Hg). cbn [fst snd] in *.
    unfold inRange. cbn [fst snd]. unfold runTimeout.
    destruct (timeouts w); [repeat split; try assumption; apply Hg |].
    cbn [bulletsRef enemiesRef powerUpsRef].
    assert (Hsame : bulletsRef (spawnPowerUp now rnd w) = bulletsRef w
                    /\ enemiesRef (spawnPowerUp now rnd w) = enemiesRef w).
    { unfold spawnPowerUp. destruct (Rgtb _ _); split; reflexivity. }
    destruct Hsame as [-> ->].
    split; [exact Hb |]. split; [exact He |].
    split; [apply spawnPowerUp_wellFormed; exact Hp | exact Hg].
Qed.

Lemma handleEvent_maxHealth (rnd : nat -> R) (sw : GameState * World) (ev : Event) :
  inRange sw -> gs_maxHealth (fst (handleEvent rnd sw ev)) = gs_maxHealth (fst sw).
Proof.
  destruct sw as [g w]. intro Hin.
  destruct ev as [delta now | now | code | code | now]; cbn [handleEvent fst snd];
    try reflexivity.
  unfold stepGame. cbn [fst snd].
  exact (proj1 (proj2 (frame_ranges g delta now rnd w Hin))).
Qed.

Lemma runEvents_inRange (rnd : nat -> R) (events : list Event) :
  forall sw,
    inRange sw ->
    inRange (runEvents rnd events sw)
    /\ gs_maxHealth (fst (runEvents rnd events sw)) = gs_maxHealth (fst sw).
Proof.
  unfold runEvents.
  induction events as [| ev events IH]; intros sw Hin; [split; [exact Hin | reflexivity] |].
  cbn [fold_left].
  destruct (IH (handleEvent rnd sw ev) (handleEvent_inRange rnd sw ev Hin)) as [H1 H2].
  split; [exact H1 |]. rewrite H2. apply handleEvent_maxHealth, Hin.
Qed.

(** The game as mounted is in range. *)
Lemma readyWorld_inRange (g : GameState) :
  (0 <= gs_health g <= gs_maxHealth g)%Z -> inRange (g, readyWorld).
Proof.
  intro Hg. unfold inRange. cbn [fst snd].
  repeat split; try constructor; apply Hg.
Qed.

(** C5 (as amended).  The ranges the program maintains, after any update.
    From any state whose bullets and power-ups have health in [0, maxHealth],
    whose enemies have health <= maxHealth, whose entities have radius > 0
    and whose session health is in [0, maxHealth] (the state at mount is
    one), every such range holds again after any sequence of frames, clicks,
    key events and power-up timeouts.  An enemy's health has no floor: after
    a frame that runs it is at least min (0, 1 - number of bullets in the
    store), so it is not negative when at most one bullet is in the store. *)
Theorem entities_stay_in_range (rnd : nat -> R) (g : GameState) (w : World) :
  Forall wellFormed (bulletsRef w) ->
  Forall enemyBounded (enemiesRef w) ->
  Forall wellFormed (powerUpsRef w) ->
  (0 <= gs_health g <= gs_maxHealth g)%Z ->
  (forall events : list Event,
      let sw := runEvents rnd events (g, w) in
      Forall wellFormed (bulletsRef (snd sw))
      /\ Forall wellFormed (powerUpsRef (snd sw))
      /\ Forall enemyBounded (enemiesRef (snd sw))
      /\ (0 <= gs_health (fst sw) <= gs_maxHealth (fst sw))%Z
      /\ gs_maxHealth (fst sw) = gs_maxHealth g
      /\ (forall p, wellFormed (playerEntityOf (fst sw) p)))
  /\ (forall (delta : R) (now : Z),
         let r := frame g delta now rnd w in
         frameRuns g w \/ Forall wellFormed (enemiesRef w) ->
         Forall (enemyInRange (List.length (bulletsRef (world r)))) (enemiesRef (world r))
         /\ ((List.length (bulletsRef (world r)) <= 1)%nat ->
             Forall wellFormed (enemiesRef (world r)))).
Proof.
  intros Hb He Hp Hg.
  assert (Hin : inRange (g, w)).
  { unfold inRange. cbn [fst snd]. repeat split; try assumption; apply Hg. }
  split.
  - intro events. cbv zeta.
    destruct (runEvents_inRange rnd events (g, w) Hin) as [(Hb' & He' & Hp' & Hg') Hm].
    cbn [fst snd] in Hm.
    split; [exact Hb' |]. split; [exact Hp' |]. split; [exact He' |].
    split; [exact Hg' |]. split; [exact Hm |].
    intro p. unfold wellFormed, playerEntityOf. cbn [health maxHealth radius].
    split; [exact Hg' | lra].
  - intros delta now. cbv zeta. intro Hran.
    destruct (frame_ranges g delta now rnd w Hin) as (_ & _ & Hlow).
    specialize (Hlow Hran). split; [exact Hlow |].
    intro Hle. eapply Forall_impl; [| exact Hlow].
    intros e (Hu & Hr & Hl). split; [lia | exact Hr].
Qed.

Lemma entities_stay_in_range_witness :
  let g := playingState 10 5 [] in
  let sw := runEvents (fun _ => 1 / 2) doubleHitThenShot (g, twoBulletsOneEnemy) in
  let r := frame g (1 / 100) 5000 (fun _ => 1 / 2) oneBulletTwoEnemies in
  (Forall wellFormed (bulletsRef twoBulletsOneEnemy)
   /\ Forall enemyBounded (enemiesRef twoBulletsOneEnemy)
   /\ Forall wellFormed (powerUpsRef twoBulletsOneEnemy)
   /\ (0 <= gs_health g <= gs_maxHealth g)%Z)
  /\ (Forall wellFormed (bulletsRef (snd sw))
      /\ Forall wellFormed (powerUpsRef (snd sw))
      /\ Forall enemyBounded (enemiesRef (snd sw))
      /\ (0 <= gs_health (fst sw) <= gs_maxHealth (fst sw))%Z)
  /\ frameRuns g oneBulletTwoEnemies
  /\ Forall wellFormed (enemiesRef (world r)).
Proof.
  cbv zeta.
  assert (Hb : Forall wellFormed (bulletsRef twoBulletsOneEnemy)).
  { repeat constructor; simpl; lia || lra. }
  assert (He : Forall enemyBounded (enemiesRef twoBulletsOneEnemy)).
  { repeat constructor; simpl; lia || lra. }
  assert (Hp : Forall wellFormed (powerUpsRef twoBulletsOneEnemy)).
  { constructor. }
  assert (Hg : (0 <= gs_health (playingState 10 5 [])
                <= gs_maxHealth (playingState 10 5 []))%Z).
  { simpl. lia. }
  assert (Hb1 : Forall wellFormed (bulletsRef oneBulletTwoEnemies)).
  { repeat constructor; simpl; lia || lra. }
  assert (He1 : Forall enemyBounded (enemiesRef oneBulletTwoEnemies)).
  { repeat constructor; simpl; lia || lra. }
  assert (Hp1 : Forall wellFormed (powerUpsRef oneBulletTwoEnemies)).
  { constructor. }
  assert (Hruns : frameRuns (playingState 10 5 []) oneBulletTwoEnemies).
  { split; [reflexivity | discriminate]. }
  destruct (entities_stay_in_range (fun _ => 1 / 2) (playingState 10 5 [])
              twoBulletsOneEnemy Hb He Hp Hg) as [Hrun _].
  destruct (Hrun doubleHitThenShot) as (Hb' & Hp' & He' & Hg' & _).
  destruct (entities_stay_in_range (fun _ => 1 / 2) (playingState 10 5 [])
              oneBulletTwoEnemies Hb1 He1 Hp1 Hg) as [_ Hframe].
  destruct (Hframe (1 / 100) 5000%Z (or_introl Hruns)) as [_ Hone].
  split; [repeat split; assumption || apply Hg |].
  split; [repeat split; assumption || apply Hg' |].
  split; [exact Hruns |].
  apply Hone. run_frame. lia.
Defined.

(** C2 (as amended).  The update pass of a frame keeps only entities whose
    active flag is on: each kept entity is an entity of the store that was
    active when the frame began, moved (and, for an enemy, possibly steered).
    So an entity that was inactive when the frame began is in none of its
    collision tests.  The loops then test every kept bullet against every
    kept enemy (by array index: all pairs), and the player against every kept
    enemy, without reading the active flag. *)
Theorem collision_loops_test_every_kept_pair (g : GameState) (delta : R) (now : Z)
        (rnd : nat -> R) (w : World) (p0 : Vec) :
  status g = playing -> playerRef w = Some p0 ->
  let r := frame g delta now rnd w in
  let p := movePlayer (keysRef w) delta p0 in
  let nb := List.length (keptBullets delta w) in
  let ne := List.length (keptEnemies delta rnd w p0) in
  Forall (fun b => active b = true
                   /\ exists b0, In b0 (bulletsRef w) /\ active b0 = true
                                 /\ b = advance b0 delta)
         (keptBullets delta w)
  /\ Forall (fun e => active e = true
                      /\ exists e0, In e0 (enemiesRef w) /\ active e0 = true
                                    /\ (0 < health e0)%Z
                                    /\ (e = advance e0 delta
                                        \/ e = steer p (advance e0 delta)))
            (keptEnemies delta rnd w p0)
  /\ Forall (fun q => active q = true
                      /\ exists q0, In q0 (powerUpsRef w) /\ active q0 = true
                                    /\ q = advance q0 delta)
            (keptPowerUps delta w)
  /\ bulletEnemyTests (tests r) = list_prod (seq 0 nb) (seq 0 ne)
  /\ playerEnemyTests (tests r) = seq 0 ne.
Proof.
  intros Hs Hp. cbv zeta.
  destruct (frame_anatomy g delta now rnd w p0 Hs Hp)
    as (es2 & spawned & qk & qp & qw & _ & _ & _ & _ & _ & _ & _ & _ & _ & Hbe & Hpe).
  split.
  { apply Forall_and; [apply updateBullets_active | apply updateBullets_origin]. }
  split.
  { apply Forall_and; [| apply updateEnemies_origin].
    eapply Forall_impl; [| apply updateEnemies_active]. intros e [H _]. exact H. }
  split.
  { apply Forall_and; [apply updatePowerUps_active | apply updatePowerUps_origin]. }
  split; assumption.
Qed.

Lemma collision_loops_test_every_kept_pair_witness :
  let g := playingState 10 5 [] in
  let r := frame g (1 / 100) 5000 (fun _ => 1 / 2) oneBulletTwoEnemies in
  status g = playing
  /\ playerRef oneBulletTwoEnemies = Some Vector3.zero
  /\ bulletEnemyTests (tests r)
     = list_prod (seq 0 (List.length (keptBullets (1 / 100) oneBulletTwoEnemies)))
                 (seq 0 (List.length (keptEnemies (1 / 100) (fun _ => 1 / 2)
                                                  oneBulletTwoEnemies Vector3.zero))).
Proof.
  cbv zeta. split; [reflexivity |]. split; [reflexivity |].
  apply (collision_loops_test_every_kept_pair (playingState 10 5 []) (1 / 100) 5000
           (fun _ => 1 / 2) oneBulletTwoEnemies Vector3.zero eq_refl eq_refl).
Defined.

(** C2 (counterexample).  One bullet overlaps two enemies.  The first hit
    turns the bullet's active flag off; the loop still tests it against the
    second enemy, and that enemy loses health too. *)
Lemma deactivated_bullet_is_tested_again :
  let r := frame (playingState 10 5 []) (1 / 100) 5000 (fun _ => 1 / 2)
                 oneBulletTwoEnemies in
  bulletEnemyTests (tests r) = [(0, 0); (0, 1)]%nat
  /\ map testedActive (tests r) = [true; false; true; true]
  /\ map health (enemiesRef (world r)) = [2; 2]%Z
  /\ ~ Forall (fun t => testedActive t = true) (tests r).
Proof.
  cbv zeta.
  assert (H : map testedActive
                (tests (frame (playingState 10 5 []) (1 / 100) 5000 (fun _ => 1 / 2)
                              oneBulletTwoEnemies))
              = [true; false; true; true]).
  { run_frame. reflexivity. }
  split; [run_frame; reflexivity |].
  split; [exact H |].
  split; [run_frame; reflexivity |].
  intro Hall.
  assert (Hmap : Forall (fun a => a = true)
                        (map testedActive
                             (tests (frame (playingState 10 5 []) (1 / 100) 5000
                                           (fun _ => 1 / 2) oneBulletTwoEnemies)))).
  { apply Forall_map. exact Hall. }
  rewrite H in Hmap. inversion Hmap as [| ? ? _ Hrest]; subst.
  inversion Hrest; subst. discriminate.
Qed.

Lemma existsb_hit (pe e : GameEntity) (es : list GameEntity) :
  In e es -> checkCollision pe e = true -> existsb (checkCollision pe) es = true.
Proof.
  intros Hin Hc. apply existsb_exists. exists e. split; assumption.
Qed.

Lemma applyUpdates_status_untouched (q : list PartialGameState) :
  Forall (fun u => u_status u = None) q ->
  forall s, status (applyUpdates s q) = status s.
Proof.
  induction 1 as [| u q Hu Hq IH]; intro s; simpl; [reflexivity |].
  rewrite IH. simpl. rewrite Hu. reflexivity.
Qed.

(** The session status after a frame: gameover exactly when the rendered
    health is <= 1 and the player loop found a collision (it queued a damage
    update); otherwise unchanged.  With a rendered health of 2 or more no
    collision ends the game. *)
Lemma frame_status (g : GameState) (delta : R) (now : Z) (rnd : nat -> R) (w : World) :
  let r := frame g delta now rnd w in
  let s' := applyUpdates g (queue r) in
  (status s' = gameover <->
   status g = gameover \/ ((gs_health g <= 1)%Z /\ In (damageUpdate g) (queue r)))
  /\ (status s' = gameover \/ status s' = status g).
Proof.
  cbv zeta.
  destruct (frame_runs_or_idles g w) as [(Hs & p0 & Hp) | Hidle].
  2: { rewrite (frame_idle g delta now rnd w Hidle). simpl.
       split; [| right; reflexivity].
       split; [intro H; left; exact H | intros [H | [_ []]]; exact H]. }
  destruct (frame_anatomy g delta now rnd w p0 Hs Hp)
    as (es2 & spawned & qk & qp & qw & _ & _ & _ & _ & _ & Hq & Hk & Hpick & Hw & _).
  rewrite Hq.
  set (pe := playerEntityOf g (movePlayer (keysRef w) delta p0)) in *.
  assert (Hqk : Forall (fun u => u_status u = None) qk).
  { eapply Forall_impl; [| exact Hk]. intros u <-. reflexivity. }
  assert (Htail : Forall (fun u => u_status u = None) (qp ++ qw)).
  { apply Forall_app. split.
    - eapply Forall_impl; [| exact Hpick]. intros u [p ->]. reflexivity.
    - destruct Hw as [(-> & _) | (-> & _)]; repeat constructor. }
  rewrite !applyUpdates_app, <- applyUpdates_app.
  rewrite (applyUpdates_status_untouched _ Htail), hitUpdates_status.
  rewrite (applyUpdates_status_untouched _ Hqk), Hs.
  assert (Hin : In (damageUpdate g) (qk ++ flat_map (hitUpdates g pe) es2 ++ qp ++ qw)
                <-> existsb (checkCollision pe) es2 = true).
  { rewrite !in_app_iff. split.
    - intros [H | [H | [H | H]]].
      + apply (proj1 (Forall_forall _ _) Hk) in H. discriminate.
      + apply in_flat_map in H. destruct H as (e & He & Hu).
        apply existsb_exists. exists e. split; [exact He |].
        unfold hitUpdates in Hu. destruct (checkCollision pe e); [reflexivity | destruct Hu].
      + apply (proj1 (Forall_forall _ _) Hpick) in H. destruct H as [p H]. discriminate.
      + destruct Hw as [(-> & _) | (-> & _)]; [| destruct H].
        destruct H as [H | []]. discriminate.
    - intro H. apply existsb_exists in H. destruct H as (e & He & Hc).
      right. left. apply in_flat_map. exists e. split; [exact He |].
      unfold hitUpdates. rewrite Hc. left. reflexivity. }
  destruct (existsb (checkCollision pe) es2) eqn:Hhit; simpl.
  - destruct (Z.leb_spec (gs_health g) 1) as [Hle | Hgt].
    + split; [| left; reflexivity].
      split; [intros _ | reflexivity]. right. split; [exact Hle |].
      apply Hin. reflexivity.
    + split; [| right; reflexivity].
      split; [discriminate |]. intros [H | [H _]]; [discriminate | lia].
  - split; [| right; reflexivity].
    split; [discriminate |]. intros [H | [_ H]]; [discriminate |].
    apply Hin in H. discriminate.
Qed.

(** C1 (as amended).  In the player-enemy loop, while playing, an enemy that
    collides with the player is deactivated (nothing else of it changes); the
    loop's queued updates set the health to the rendered health minus 1,
    floored at 0, and set the status to gameover exactly when the rendered
    (pre-decrement) health is <= 1, that is, exactly when the resulting health
    is 0.  Otherwise the status stays playing. *)
Theorem player_enemy_collision (g : GameState) (pe : GameEntity) (j : nat)
        (es : list GameEntity) (fx : Effects) (e : GameEntity) :
  status g = playing -> In e es -> checkCollision pe e = true ->
  let r := playerVsEnemies g pe j es fx in
  let s' := applyUpdates g (queuedSince fx (snd r)) in
  fst r = map (deactivateIfHit pe) es
  /\ In (setActive e false) (fst r)
  /\ gs_health s' = Z.max 0 (gs_health g - 1)
  /\ (status s' = gameover <-> (gs_health g <= 1)%Z)
  /\ (status s' = gameover <-> gs_health s' = 0%Z)
  /\ (status s' = gameover \/ status s' = playing).
Proof.
  intros Hs Hin Hc. cbv zeta.
  destruct (playerVsEnemies_spec g pe es j fx) as (Hes & Hq & _).
  rewrite (queuedSince_app _ _ _ Hq).
  rewrite hitUpdates_health, hitUpdates_status, (existsb_hit pe e es Hin Hc), Hs.
  cbn [andb].
  split; [exact Hes |].
  split.
  { rewrite Hes. apply in_map_iff. exists e. split; [| exact Hin].
    unfold deactivateIfHit. rewrite Hc. reflexivity. }
  split; [reflexivity |].
  destruct (Z.leb_spec (gs_health g) 1) as [Hle | Hgt].
  - repeat split; try (intros _); try lia; try reflexivity. left. reflexivity.
  - repeat split; try discriminate; try lia. right. reflexivity.
Qed.

Lemma player_enemy_collision_witness :
  let g := playingState 1 5 [] in
  let pe := playerEntityOf g Vector3.zero in
  let e := onAxis 29 enemy (- (1 / 4)) 5 3 3 (1 / 2) in
  let r := playerVsEnemies g pe 0 [e] (mkFx None None [] []) in
  checkCollision pe e = true
  /\ fst r = [setActive e false]
  /\ gs_health (applyUpdates g (queuedSince (mkFx None None [] []) (snd r))) = 0%Z
  /\ status (applyUpdates g (queuedSince (mkFx None None [] []) (snd r))) = gameover.
Proof.
  cbv zeta.
  assert (Hc : checkCollision (playerEntityOf (playingState 1 5 []) Vector3.zero)
                              (onAxis 29 enemy (- (1 / 4)) 5 3 3 (1 / 2)) = true).
  { apply collide_yes; unfold Vector3.distanceToSquared; cbn; lra. }
  destruct (player_enemy_collision (playingState 1 5 [])
              (playerEntityOf (playingState 1 5 []) Vector3.zero) 0
              [onAxis 29 enemy (- (1 / 4)) 5 3 3 (1 / 2)] (mkFx None None [] [])
              (onAxis 29 enemy (- (1 / 4)) 5 3 3 (1 / 2))
              eq_refl (or_introl eq_refl) Hc)
    as (Hes & _ & Hh & Hgo & _).
  split; [exact Hc |].
  split.
  { rewrite Hes. cbn [map]. unfold deactivateIfHit. rewrite Hc. reflexivity. }
  split; [exact Hh |].
  apply Hgo. simpl. lia.
Defined.

(** C1 (counterexample).  The rendered health is 2 and an enemy collides
    with the player.  After the frame the health is 1, which is <= 1, and the
    status is still playing. *)
Lemma no_gameover_at_resulting_health_one :
  let g := playingState 2 5 [] in
  let r := frame g (1 / 100) 5000 (fun _ => 1 / 2) enemyAtPlayer in
  let s' := applyUpdates g (queue r) in
  queue r = [damageUpdate g]
  /\ map active (enemiesRef (world r)) = [false]
  /\ gs_health s' = 1%Z
  /\ status s' = playing
  /\ ~ (status s' = gameover <-> (gs_health s' <= 1)%Z).
Proof.
  cbv zeta.
  assert (H : queue (frame (playingState 2 5 []) (1 / 100) 5000 (fun _ => 1 / 2)
                           enemyAtPlayer)
              = [damageUpdate (playingState 2 5 [])]).
  { run_frame. reflexivity. }
  split; [exact H |].
  split; [run_frame; reflexivity |].
  rewrite H. cbn.
  split; [reflexivity |]. split; [reflexivity |].
  intros [_ Hback]. specialize (Hback ltac:(lia)). discriminate.
Qed.

(** * More properties of the program *)

Lemma Rmax_Rmin_bounds (b x : R) :
  0 <= b -> - b <= Rmax (- b) (Rmin b x) <= b.
Proof.
  intro Hb. split.
  - apply Rmax_l.
  - apply Rmax_lub; [lra | apply Rmin_l].
Qed.

(** X1.  For bounds that are not negative, [clampPosition] puts every
    coordinate within [-bound, bound], clamping again changes nothing, and a
    position already inside is returned as it is. *)
Theorem clampPosition_within_bounds (p bounds : Vec) :
  0 <= Vector3.x bounds -> 0 <= Vector3.y bounds -> 0 <= Vector3.z bounds ->
  let q := clampPosition p bounds in
  (- Vector3.x bounds <= Vector3.x q <= Vector3.x bounds)
  /\ (- Vector3.y bounds <= Vector3.y q <= Vector3.y bounds)
  /\ (- Vector3.z bounds <= Vector3.z q <= Vector3.z bounds)
  /\ clampPosition q bounds = q
  /\ ((- Vector3.x bounds <= Vector3.x p <= Vector3.x bounds) ->
      (- Vector3.y bounds <= Vector3.y p <= Vector3.y bounds) ->
      (- Vector3.z bounds <= Vector3.z p <= Vector3.z bounds) -> q = p).
Proof.
  intros Hx Hy Hz. cbv zeta.
  pose proof (Rmax_Rmin_bounds _ (Vector3.x p) Hx) as Bx.
  pose proof (Rmax_Rmin_bounds _ (Vector3.y p) Hy) as By.
  pose proof (Rmax_Rmin_bounds _ (Vector3.z p) Hz) as Bz.
  split; [exact Bx |]. split; [exact By |]. split; [exact Bz |].
  split.
  - apply clampPosition_inside; simpl; assumption.
  - intros Ix Iy Iz. apply clampPosition_inside; assumption.
Qed.

(** X2.  The movement block in closed form: x moves by 15 * delta for the
    right keys minus the left keys, y by 15 * delta for the up keys minus the
    down keys (either key of a pair counts once, opposite keys cancel), z is
    not moved, and the result is clamped to (12, 8, 0). *)
Theorem movePlayer_closed_form (keys : string -> bool) (delta : R) (p : Vec) :
  let right := keys "KeyD"%string || keys "ArrowRight"%string in
  let left := keys "KeyA"%string || keys "ArrowLeft"%string in
  let up := keys "KeyW"%string || keys "ArrowUp"%string in
  let down := keys "KeyS"%string || keys "ArrowDown"%string in
  movePlayer keys delta p
  = clampPosition
      (Vector3.mk (Vector3.x p + 15 * delta * axis right left)
                  (Vector3.y p + 15 * delta * axis up down)
                  (Vector3.z p))
      (Vector3.mk 12 8 0).
Proof.
  cbv zeta. unfold movePlayer, axis. cbv zeta.
  destruct (keys "KeyD"%string || keys "ArrowRight"%string),
           (keys "KeyA"%string || keys "ArrowLeft"%string),
           (keys "KeyW"%string || keys "ArrowUp"%string),
           (keys "KeyS"%string || keys "ArrowDown"%string);
    destruct p as [px py pz]; unfold clampPosition; cbn [Vector3.x Vector3.y Vector3.z];
    f_equal; f_equal; f_equal; lra.
Qed.

Lemma lengthSq_nonneg (a : Vec) : 0 <= Vector3.lengthSq a.
Proof.
  unfold Vector3.lengthSq.
  pose proof (Rle_0_sqr (Vector3.x a)). pose proof (Rle_0_sqr (Vector3.y a)).
  pose proof (Rle_0_sqr (Vector3.z a)). unfold Rsqr in *. lra.
Qed.

Lemma length_nonneg (a : Vec) : 0 <= Vector3.length a.
Proof. unfold Vector3.length. apply sqrt_pos. Qed.

Lemma length_multiplyScalar (a : Vec) (s : R) :
  Vector3.length (Vector3.multiplyScalar a s) = Rabs s * Vector3.length a.
Proof.
  unfold Vector3.length.
  replace (Vector3.lengthSq (Vector3.multiplyScalar a s))
    with (Rsqr s * Vector3.lengthSq a)
    by (unfold Vector3.lengthSq, Vector3.multiplyScalar, Rsqr; simpl; ring).
  rewrite sqrt_mult; [| apply Rle_0_sqr | apply lengthSq_nonneg].
  rewrite sqrt_Rsqr_abs. reflexivity.
Qed.

Lemma length_zero_vector (a : Vec) :
  Vector3.length a = 0 -> a = Vector3.zero.
Proof.
  unfold Vector3.length. intro H.
  apply sqrt_eq_0 in H; [| apply lengthSq_nonneg].
  unfold Vector3.lengthSq in H. destruct a as [ax ay az]. simpl in H.
  pose proof (Rle_0_sqr ax) as Hx. pose proof (Rle_0_sqr ay) as Hy.
  pose proof (Rle_0_sqr az) as Hz. unfold Rsqr in *.
  assert (ax * ax = 0) by lra. assert (ay * ay = 0) by lra.
  assert (az * az = 0) by lra.
  unfold Vector3.zero. f_equal; apply Rsqr_0_uniq; assumption.
Qed.

Lemma length_zero : Vector3.length Vector3.zero = 0.
Proof.
  unfold Vector3.length, Vector3.lengthSq, Vector3.zero. simpl.
  replace (0 * 0 + 0 * 0 + 0 * 0) with 0 by ring. apply sqrt_0.
Qed.

Lemma normalize_length (a : Vec) :
  Vector3.length (Vector3.normalize a) = (if Req_dec_T (Vector3.length a) 0 then 0 else 1).
Proof.
  unfold Vector3.normalize, Vector3.divideScalar, Vector3.orOne.
  rewrite length_multiplyScalar.
  destruct (Req_dec_T (Vector3.length a) 0) as [H0 | Hn].
  - rewrite H0. ring.
  - pose proof (length_nonneg a) as Hp.
    rewrite Rabs_right.
    + field. exact Hn.
    + apply Rle_ge. apply Rlt_le. apply Rdiv_lt_0_compat; lra.
Qed.

Lemma clampLength_length (a : Vec) (hi : R) :
  0 <= hi ->
  Vector3.length (Vector3.clampLength a 0 hi) = Rmin hi (Vector3.length a).
Proof.
  intro Hhi. unfold Vector3.clampLength. cbv zeta.
  pose proof (length_nonneg a) as Hp.
  assert (Hc : Rmax 0 (Rmin hi (Vector3.length a)) = Rmin hi (Vector3.length a)).
  { apply Rmax_right. apply Rmin_glb; assumption. }
  rewrite Hc, length_multiplyScalar.
  change (Vector3.divideScalar a (Vector3.orOne (Vector3.length a)))
    with (Vector3.normalize a).
  rewrite normalize_length.
  rewrite Rabs_right by (apply Rle_ge, Rmin_glb; assumption).
  destruct (Req_dec_T (Vector3.length a) 0) as [H0 | Hn].
  - rewrite H0. rewrite Rmin_right by exact Hhi. ring.
  - ring.
Qed.

(** X3.  The steering of an enemy leaves its speed at most 8: the new speed is
    the smaller of 8 and the length of the old velocity plus twice the unit
    vector toward the player.  Position, health, active flag and radius are
    not touched. *)
Theorem steer_speed_limit (playerPosition : Vec) (e : GameEntity) :
  let e' := steer playerPosition e in
  let toPlayer := Vector3.normalize (Vector3.sub playerPosition (position e)) in
  Vector3.length (velocity e') <= 8
  /\ Vector3.length (velocity e')
     = Rmin 8 (Vector3.length (Vector3.add (velocity e) (Vector3.multiplyScalar toPlayer 2)))
  /\ (position e' = position e /\ health e' = health e /\ active e' = active e
      /\ radius e' = radius e).
Proof.
  cbv zeta. unfold steer. cbn [velocity setVelocity position health active radius].
  rewrite clampLength_length by lra.
  split; [apply Rmin_l |]. split; [reflexivity |]. repeat split.
Qed.

Lemma lerp_between (a b t : R) :
  0 <= t <= 1 -> Rmin a b <= a + (b - a) * t <= Rmax a b.
Proof.
  intros [H0 H1]. unfold Rmin, Rmax. destruct (Rle_dec a b); split; nra.
Qed.

(** X4.  [lerpVector3 a b t] is [a] at t = 0 and [b] at t = 1, is [a] when b =
    a, and for t in [0, 1] each coordinate lies between those of [a] and [b]. *)
Theorem lerpVector3_segment (a b : Vec) (t : R) :
  lerpVector3 a b 0 = a
  /\ lerpVector3 a b 1 = b
  /\ lerpVector3 a a t = a
  /\ (0 <= t <= 1 ->
      (Rmin (Vector3.x a) (Vector3.x b) <= Vector3.x (lerpVector3 a b t)
         <= Rmax (Vector3.x a) (Vector3.x b))
      /\ (Rmin (Vector3.y a) (Vector3.y b) <= Vector3.y (lerpVector3 a b t)
            <= Rmax (Vector3.y a) (Vector3.y b))
      /\ (Rmin (Vector3.z a) (Vector3.z b) <= Vector3.z (lerpVector3 a b t)
            <= Rmax (Vector3.z a) (Vector3.z b))).
Proof.
  unfold lerpVector3, lerp. destruct a as [ax ay az], b as [bx by_ bz].
  cbn [Vector3.x Vector3.y Vector3.z].
  split; [f_equal; ring |]. split; [f_equal; ring |]. split; [f_equal; ring |].
  intro Ht. repeat split; apply lerp_between; exact Ht.
Qed.

(** X5.  For a pointer inside a window of positive size, both pointer offsets
    are in [-1, 1]; the centre of the window maps to (0, 0) and its top left
    corner to (-1, 1). *)
Theorem handleMouseMove_normalized (clientX clientY innerWidth innerHeight : R) :
  0 < innerWidth -> 0 < innerHeight ->
  0 <= clientX <= innerWidth -> 0 <= clientY <= innerHeight ->
  let m := handleMouseMove clientX clientY innerWidth innerHeight in
  (-1 <= fst m <= 1) /\ (-1 <= snd m <= 1)
  /\ handleMouseMove (innerWidth / 2) (innerHeight / 2) innerWidth innerHeight = (0, 0)
  /\ handleMouseMove 0 0 innerWidth innerHeight = (-1, 1).
Proof.
  intros Hw Hh Hx Hy. cbv zeta. unfold handleMouseMove. cbn [fst snd].
  assert (Hdx : 0 <= clientX / innerWidth <= 1).
  { split.
    - apply Rmult_le_pos; [lra | apply Rlt_le, Rinv_0_lt_compat; exact Hw].
    - apply Rmult_le_reg_r with innerWidth; [exact Hw |].
      unfold Rdiv. rewrite Rmult_assoc, Rinv_l by lra. lra. }
  assert (Hdy : 0 <= clientY / innerHeight <= 1).
  { split.
    - apply Rmult_le_pos; [lra | apply Rlt_le, Rinv_0_lt_compat; exact Hh].
    - apply Rmult_le_reg_r with innerHeight; [exact Hh |].
      unfold Rdiv. rewrite Rmult_assoc, Rinv_l by lra. lra. }
  split; [lra |]. split; [lra |]. split.
  - f_equal; field; lra.
  - f_equal; field; lra.
Qed.

Lemma releaseAllIfPool_Some (ms : list Mesh) (a : MeshPool) :
  releaseAllIfPool (Some a) ms = Some (a ++ ms).
Proof.
  unfold releaseAllIfPool. revert a.
  induction ms as [| m ms IH]; intro a; simpl.
  - rewrite app_nil_r. reflexivity.
  - rewrite IH. unfold release, push. rewrite <- app_assoc. reflexivity.
Qed.

Lemma releaseAllIfPool_None (ms : list Mesh) : releaseAllIfPool None ms = None.
Proof. unfold releaseAllIfPool. induction ms as [| m ms IH]; simpl; auto. Qed.

Lemma releaseAllIfPool_cons (p : option MeshPool) (m : Mesh) (ms : list Mesh) :
  releaseAllIfPool p (m :: ms) = releaseAllIfPool (releaseIfPool p m) ms.
Proof. reflexivity. Qed.

Lemma updateBullets_as_filter (delta : R) (bullets : list GameEntity)
        (pool : option MeshPool) :
  let moved := map (fun b => advance b delta) bullets in
  fst (updateBullets delta bullets pool)
  = filter (fun b => negb (bulletTooFar b) && active b) moved
  /\ snd (updateBullets delta bullets pool)
     = releaseAllIfPool pool (map mesh (filter bulletTooFar moved)).
Proof.
  cbv zeta. revert pool.
  induction bullets as [| b rest IH]; intro pool.
  - split; reflexivity.
  - cbn [updateBullets map filter]. fold (bulletTooFar (advance b delta)).
    destruct (bulletTooFar (advance b delta)) eqn:Hfar.
    + cbn [negb andb map]. rewrite releaseAllIfPool_cons. apply IH.
    + cbn [negb andb]. specialize (IH pool).
      destruct (updateBullets delta rest pool) as [kept pool']. cbn [fst snd] in *.
      destruct IH as [IH1 IH2]. rewrite IH1, IH2.
      change (active (advance b delta)) with (active b).
      destruct (active b); split; reflexivity.
Qed.

Lemma checkCollision_setActive_l (b e : GameEntity) (a : bool) :
  checkCollision (setActive b a) e = checkCollision b e.
Proof. reflexivity. Qed.

Lemma existsb_ext_eq {A : Type} (f g : A -> bool) (l : list A) :
  (forall x, f x = g x) -> existsb f l = existsb g l.
Proof. intro H. induction l as [| x l IH]; simpl; [reflexivity |]. rewrite H, IH. reflexivity. Qed.

(** X7.  One bullet against the enemy array.  The bullet is deactivated
    exactly when it overlaps some enemy.  Each overlapped enemy loses one
    health point and is deactivated when its health is then <= 0; the others
    are left as they are.  One kill update is queued, and one enemy mesh
    released, for each enemy killed; the bullet's mesh is released once for
    each enemy overlapped. *)
Theorem bulletVsEnemies_exact (g : GameState) (i : nat) :
  forall (es : list GameEntity) (j : nat) (b : GameEntity) (fx : Effects),
    let r := bulletVsEnemies g i j b es fx in
    fst (fst r) = (if existsb (checkCollision b) es then setActive b false else b)
    /\ snd (fst r) = map (hitByBullet b) es
    /\ fx_queue (snd r)
       = fx_queue fx ++ map (fun _ => killUpdate g) (filter (killedBy b) es)
    /\ fx_bulletPool (snd r)
       = releaseAllIfPool (fx_bulletPool fx)
                          (map (fun _ => mesh b) (filter (checkCollision b) es))
    /\ fx_enemyPool (snd r)
       = releaseAllIfPool (fx_enemyPool fx) (map mesh (filter (killedBy b) es)).
Proof.
  induction es as [| e rest IH]; intros j b fx.
  - cbn. rewrite app_nil_r. repeat split.
  - cbn [bulletVsEnemies existsb map filter].
    destruct (checkCollision b e) eqn:Hc.
    + assert (Hhit : hitByBullet b e = damaged e)
        by (unfold hitByBullet; rewrite Hc; reflexivity).
      assert (Hkill : killedBy b e = (health e - 1 <=? 0)%Z)
        by (unfold killedBy; rewrite Hc; reflexivity).
      rewrite Hhit, Hkill. unfold damaged. cbv zeta. cbn [health setHealth orb].
      destruct (health e - 1 <=? 0)%Z eqn:Hk;
        match goal with
        | |- context [bulletVsEnemies g i (S j) ?b1 rest ?fx1] =>
            specialize (IH (S j) b1 fx1);
            destruct (bulletVsEnemies g i (S j) b1 rest fx1) as [[b' rest'] fx']
        end;
        cbn [fst snd] in *;
        destruct IH as (Hb & Hes & Hq & Hbp & Hep);
        rewrite Hes, Hq, Hbp, Hep;
        cbn [fx_queue fx_bulletPool fx_enemyPool releaseBullet releaseEnemy
             onGameStateChange logTest map];
        (split; [rewrite Hb; destruct (existsb _ rest); reflexivity |]);
        (split; [reflexivity |]);
        (split; [rewrite <- ?app_assoc; reflexivity |]);
        split; reflexivity.
    + assert (Hhit : hitByBullet b e = e)
        by (unfold hitByBullet; rewrite Hc; reflexivity).
      assert (Hkill : killedBy b e = false)
        by (unfold killedBy; rewrite Hc; reflexivity).
      rewrite Hhit, Hkill. cbn [orb].
      specialize (IH (S j) b (logTest fx (TestBulletEnemy i j b e))).
      destruct (bulletVsEnemies g i (S j) b rest (logTest fx (TestBulletEnemy i j b e)))
        as [[b' rest'] fx'].
      cbn [fst snd] in *. destruct IH as (Hb & Hes & Hq & Hbp & Hep).
      rewrite Hb, Hes, Hq, Hbp, Hep. repeat split.
Qed.

Lemma bulletVsEnemies_bulletPool (g : GameState) (i : nat) :
  forall (es : list GameEntity) (j : nat) (b : GameEntity) (fx : Effects),
    fx_bulletPool (snd (bulletVsEnemies g i j b es fx))
    = releaseAllIfPool (fx_bulletPool fx)
                       (repeat (mesh b) (List.length (filter (checkCollision b) es))).
Proof.
  induction es as [| e rest IH]; intros j b fx.
  - reflexivity.
  - cbn [bulletVsEnemies filter].
    destruct (checkCollision b e) eqn:Hc.
    + destruct (health (setHealth e (health e - 1)) <=? 0)%Z;
        match goal with
        | |- context [bulletVsEnemies g i (S j) ?b1 rest ?fx1] =>
            specialize (IH (S j) b1 fx1);
            destruct (bulletVsEnemies g i (S j) b1 rest fx1) as [[b' rest'] fx']
        end;
        cbn [fst snd] in *; rewrite IH; reflexivity.
    + specialize (IH (S j) b (logTest fx (TestBulletEnemy i j b e))).
      destruct (bulletVsEnemies g i (S j) b rest (logTest fx (TestBulletEnemy i j b e)))
        as [[b' rest'] fx'].
      cbn [fst snd] in *. rewrite IH. reflexivity.
Qed.

Lemma poolGet_last (a : MeshPool) (m : Mesh) (heap : nat) :
  poolGet (a ++ [m]) heap = (m, a, heap).
Proof.
  unfold poolGet, get. change (a ++ [m]) with (push a m).
  rewrite pop_push. reflexivity.
Qed.

(** X8.  The bullet loop releases the bullet's mesh once for every enemy the
    bullet overlaps.  With two or more overlaps the pool ends with the same
    mesh twice, and the next two [get] calls both return it, constructing
    nothing. *)
Theorem bullet_mesh_released_once_per_overlap (g : GameState) (i j : nat)
        (b : GameEntity) (es : list GameEntity) (fx : Effects) (a : MeshPool) :
  fx_bulletPool fx = Some a ->
  let r := bulletVsEnemies g i j b es fx in
  let n := List.length (filter (checkCollision b) es) in
  fx_bulletPool (snd r) = Some (a ++ repeat (mesh b) n)
  /\ ((2 <= n)%nat ->
      forall heap : nat,
        let first := poolGet (a ++ repeat (mesh b) n) heap in
        let second := poolGet (snd (fst first)) (snd first) in
        fst (fst first) = mesh b /\ fst (fst second) = mesh b
        /\ snd second = heap).
Proof.
  intros Hpool. cbv zeta.
  rewrite bulletVsEnemies_bulletPool, Hpool, releaseAllIfPool_Some.
  split; [reflexivity |].
  intros Hn heap.
  destruct (List.length (filter (checkCollision b) es)) as [| [| k]]; try lia.
  replace (repeat (mesh b) (S (S k))) with (repeat (mesh b) k ++ [mesh b] ++ [mesh b]).
  2: { change ([mesh b] ++ [mesh b]) with (repeat (mesh b) 2).
       rewrite <- repeat_app. f_equal. lia. }
  rewrite !app_assoc. rewrite poolGet_last. cbn [fst snd].
  rewrite poolGet_last. repeat split.
Qed.

Lemma playerVsPowerUps_past_end (g : GameState) (now : Z) (pe : GameEntity) :
  forall (visits index : nat) (ps : list GameEntity) (fx : Effects),
    (List.length ps <= index)%nat ->
    playerVsPowerUps g now pe visits index ps fx = (ps, fx).
Proof.
  induction visits as [| visits IH]; intros index ps fx Hlen; simpl.
  - reflexivity.
  - destruct (nth_error ps index) as [p |] eqn:Hn.
    + assert (Hlt : (index < List.length ps)%nat)
        by (apply nth_error_Some; rewrite Hn; discriminate).
      lia.
    + apply IH. lia.
Qed.

Lemma playerVsPowerUps_all_overlap (g : GameState) (now : Z) (pe : GameEntity) :
  forall (visits : nat) (kept remaining : list GameEntity) (fx : Effects),
    Forall (fun q => checkCollision pe q = true) remaining ->
    (List.length remaining <= visits)%nat ->
    fst (playerVsPowerUps g now pe visits (List.length kept) (kept ++ remaining) fx)
    = kept ++ oddIndexed remaining.
Proof.
  induction visits as [| visits IH]; intros kept remaining fx Hall Hlen.
  - destruct remaining; [| simpl in Hlen; lia]. reflexivity.
  - cbn [playerVsPowerUps].
    destruct remaining as [| x [| y rest]].
    + rewrite app_nil_r.
      assert (Hn : nth_error kept (List.length kept) = None)
        by (apply nth_error_None; lia).
      rewrite Hn. rewrite playerVsPowerUps_past_end by lia. cbn [fst oddIndexed]. rewrite app_nil_r. reflexivity.
    + rewrite nth_error_app2 by lia. rewrite Nat.sub_diag. cbn [nth_error].
      inversion Hall as [| ? ? Hx _]; subst. rewrite Hx.
      unfold splice1. rewrite firstn_app, firstn_all, Nat.sub_diag. cbn [firstn].
      rewrite skipn_app, skipn_all2 by lia.
      replace (S (List.length kept) - List.length kept)%nat with 1%nat by lia.
      cbn [skipn app oddIndexed]. rewrite !app_nil_r.
      rewrite playerVsPowerUps_past_end by lia. reflexivity.
    + rewrite nth_error_app2 by lia. rewrite Nat.sub_diag. cbn [nth_error].
      inversion Hall as [| ? ? Hx Hrest]; subst. rewrite Hx.
      inversion Hrest as [| ? ? Hy Hrest']; subst.
      unfold splice1. rewrite firstn_app, firstn_all, Nat.sub_diag. cbn [firstn].
      rewrite skipn_app, skipn_all2 by lia.
      replace (S (List.length kept) - List.length kept)%nat with 1%nat by lia.
      cbn [skipn app oddIndexed]. rewrite app_nil_r.
      replace (S (List.length kept)) with (List.length (kept ++ [y]))
        by (rewrite length_app; simpl; lia).
      replace (kept ++ y :: rest) with ((kept ++ [y]) ++ rest)
        by (rewrite <- app_assoc; reflexivity).
      rewrite IH; [| exact Hrest' | simpl in Hlen; lia].
      rewrite <- app_assoc. reflexivity.
Qed.

(** X9.  When every power-up of the array overlaps the player, the loop, which
    removes from the array it is iterating, collects those at the even indices
    and leaves those at the odd indices in the array. *)
Theorem overlapping_powerUps_collected_every_other (g : GameState) (now : Z)
        (pe : GameEntity) (ps : list GameEntity) (fx : Effects) :
  Forall (fun q => checkCollision pe q = true) ps ->
  fst (playerVsPowerUps g now pe (List.length ps) 0 ps fx) = oddIndexed ps.
Proof.
  intro Hall.
  apply (playerVsPowerUps_all_overlap g now pe (List.length ps) [] ps fx Hall).
  lia.
Qed.

Lemma filter_partition_length {A : Type} (f : A -> bool) (l : list A) :
  List.length l = (List.length (filter f l) + List.length (filter (fun x => negb (f x)) l))%nat.
Proof.
  induction l as [| x l IH]; simpl; [reflexivity |].
  destruct (f x); simpl; lia.
Qed.

Lemma frame_player (g : GameState) (delta : R) (now : Z) (rnd : nat -> R)
      (w : World) (p0 : Vec) :
  status g = playing -> playerRef w = Some p0 ->
  playerRef (world (frame g delta now rnd w)) = Some (movePlayer (keysRef w) delta p0).
Proof.
  intros Hs Hp. unfold frame. rewrite Hs, Hp. cbn [Status_eqb].
  destruct (updateBullets delta (bulletsRef w) (bulletPoolRef w)) as [bs1 bp1].
  destruct (updateEnemies delta _ rnd (randomCalls w) (enemiesRef w) (enemyPoolRef w))
    as [[es1 ep1] k1].
  destruct (bulletsVsEnemies g 0 bs1 es1 _) as [[bs2 es2] fx1].
  destruct (playerVsEnemies g _ 0 es2 fx1) as [es3 fx2].
  destruct (playerVsPowerUps g now _ _ 0 _ fx2) as [ps2 fx3].
  match goal with
  | |- context [enemySpawning g delta now rnd ?w1] =>
      pose proof (enemySpawning_spec g delta now rnd w1) as H4;
      set (w2 := enemySpawning g delta now rnd w1) in *
  end.
  cbv zeta in H4. destruct H4 as (Hp2 & _).
  pose proof (waveProgression_spec g delta w2) as H5. cbv zeta in H5.
  destruct (waveProgression g delta w2) as [w3 qw]. cbn [fst snd world] in *.
  destruct H5 as (Hp3 & _). rewrite Hp3, Hp2. reflexivity.
Qed.

Lemma movePlayer_bounds (keys : string -> bool) (delta : R) (p : Vec) :
  let q := movePlayer keys delta p in
  -12 <= Vector3.x q <= 12 /\ -8 <= Vector3.y q <= 8 /\ Vector3.z q = 0.
Proof.
  cbv zeta. unfold movePlayer. cbv zeta.
  match goal with
  | |- context [clampPosition ?moved _] => set (p4 := moved)
  end.
  unfold clampPosition. cbn [Vector3.x Vector3.y Vector3.z].
  repeat split; try apply Rmax_l; try (apply Rmax_lub; [lra | apply Rmin_l]).
  apply Rle_antisym; [apply Rmax_lub; [lra | apply Rmin_l] |].
  replace 0 with (- 0) at 1 by ring. apply Rmax_l.
Qed.

(** X11.  After any frame that runs, the player's position has x in [-12, 12],
    y in [-8, 8] and z = 0, whatever keys are held and whatever the delta. *)
Theorem player_stays_in_bounds (g : GameState) (delta : R) (now : Z) (rnd : nat -> R)
        (w : World) (p0 : Vec) :
  status g = playing -> playerRef w = Some p0 ->
  exists p, playerRef (world (frame g delta now rnd w)) = Some p
            /\ -12 <= Vector3.x p <= 12 /\ -8 <= Vector3.y p <= 8 /\ Vector3.z p = 0.
Proof.
  intros Hs Hp. exists (movePlayer (keysRef w) delta p0).
  split; [apply frame_player; assumption | apply movePlayer_bounds].
Qed.

Lemma FrameUpdate_score (g : GameState) (now : Z) (u : PartialGameState) :
  FrameUpdate g now u ->
  u_score u = (if setsScore u then Some (score g + 100)%Z else None)
  /\ (setsScore u = true <-> u = killUpdate g).
Proof.
  intro H. destruct H; cbn; split; try reflexivity;
    split; intro G; try reflexivity; try discriminate.
Qed.

Lemma applyUpdates_score (g : GameState) (now : Z) (q : list PartialGameState) :
  Forall (FrameUpdate g now) q ->
  forall s, score (applyUpdates s q)
            = if existsb setsScore q then (score g + 100)%Z else score s.
Proof.
  induction 1 as [| u q Hu Hq IH]; intro s; simpl; [reflexivity |].
  rewrite IH. destruct (FrameUpdate_score g now u Hu) as [Hsc _].
  destruct (existsb setsScore q); [rewrite orb_true_r; reflexivity |].
  rewrite orb_false_r. simpl. rewrite Hsc. destruct (setsScore u); reflexivity.
Qed.

(** X12.  The score after a frame is the rendered score plus 100 when a kill
    update was queued and the rendered score otherwise: every kill of a frame
    writes the rendered score plus 100.  [enemiesRemaining] ends as the
    rendered value, that minus 1, or 5 + the rendered wave. *)
Theorem frame_scores_at_most_one_kill (g : GameState) (delta : R) (now : Z)
        (rnd : nat -> R) (w : World) :
  let r := frame g delta now rnd w in
  let s' := fst (stepGame delta now rnd (g, w)) in
  score s' = (if existsb setsScore (queue r) then score g + 100 else score g)%Z
  /\ (existsb setsScore (queue r) = true <-> In (killUpdate g) (queue r))
  /\ (enemiesRemaining s' = enemiesRemaining g
      \/ enemiesRemaining s' = (enemiesRemaining g - 1)%Z
      \/ enemiesRemaining s' = (5 + wave g)%Z).
Proof.
  cbv zeta. unfold stepGame. cbn [fst snd].
  pose proof (frame_queue_updates g delta now rnd w) as Hq.
  split; [apply (applyUpdates_score g now); exact Hq |].
  split.
  - rewrite existsb_exists. split.
    + intros (u & Hin & Hu).
      apply (proj1 (Forall_forall _ _) Hq) in Hin as Hfu.
      apply (FrameUpdate_score g now u Hfu) in Hu. subst u. exact Hin.
    + intro Hin. exists (killUpdate g). split; [exact Hin | reflexivity].
  - apply (applyUpdates_invariant g now
             (fun s => enemiesRemaining s = enemiesRemaining g
                       \/ enemiesRemaining s = (enemiesRemaining g - 1)%Z
                       \/ enemiesRemaining s = (5 + wave g)%Z)).
    + intros s u Hs Hu. destruct Hu; simpl; auto.
    + exact Hq.
    + left. reflexivity.
Qed.

(** X13.  A frame never changes maxHealth, shield, maxShield or lives, never
    lowers the score, and leaves level and wave as they are or raises both by
    one. *)
Theorem frame_never_lowers_progress (g : GameState) (delta : R) (now : Z)
        (rnd : nat -> R) (w : World) :
  let s' := fst (stepGame delta now rnd (g, w)) in
  gs_maxHealth s' = gs_maxHealth g /\ gs_shield s' = gs_shield g
  /\ maxShield s' = maxShield g /\ lives s' = lives g
  /\ (score g <= score s')%Z
  /\ ((level s' = level g /\ wave s' = wave g)
      \/ (level s' = (level g + 1)%Z /\ wave s' = (wave g + 1)%Z)).
Proof.
  cbv zeta. unfold stepGame. cbn [fst snd].
  apply (applyUpdates_invariant g now
           (fun s => gs_maxHealth s = gs_maxHealth g /\ gs_shield s = gs_shield g
                     /\ maxShield s = maxShield g /\ lives s = lives g
                     /\ (score g <= score s)%Z
                     /\ ((level s = level g /\ wave s = wave g)
                         \/ (level s = (level g + 1)%Z /\ wave s = (wave g + 1)%Z)))).
  - intros s u (H1 & H2 & H3 & H4 & H5 & H6) Hu.
    destruct Hu; simpl; repeat split; try assumption; try lia; auto.
  - apply frame_queue_updates.
  - repeat split; try lia.
Qed.

Lemma applyUpdates_health_fixed (q : list PartialGameState) (M : Z) :
  Forall (fun u => u_health u = None \/ u_health u = Some M) q ->
  forall s, gs_health s = M -> gs_health (applyUpdates s q) = M.
Proof.
  induction 1 as [| u q Hu Hq IH]; intros s Hs; simpl; [exact Hs |].
  apply IH. simpl. destruct Hu as [-> | ->]; [exact Hs | reflexivity].
Qed.

Lemma pickups_set_health (g : GameState) (now : Z) (qp tail : list PartialGameState) :
  Forall (fun u => exists p, u = pickupUpdate g (shieldFrom p now)) qp ->
  qp <> [] ->
  Forall (fun u => u_health u = None) tail ->
  forall s, gs_health (applyUpdates s (qp ++ tail))
            = Z.min (gs_maxHealth g) (gs_health g + 1).
Proof.
  intros Hqp Hne Htail s. destruct qp as [| u qp]; [contradiction |].
  inversion Hqp as [| ? ? [p ->] Hrest]; subst. cbn [app applyUpdates fold_left].
  apply applyUpdates_health_fixed; [| reflexivity].
  apply Forall_app. split.
  - eapply Forall_impl; [| exact Hrest]. intros u [p' ->]. right. reflexivity.
  - eapply Forall_impl; [| exact Htail]. intros u Hu. left. exact Hu.
Qed.

(** X14.  When a frame collects a power-up, the merged health is min
    (maxHealth, rendered health + 1), also when an enemy has hit the player in
    the same frame, and the effect list is the rendered list plus one shield,
    however many power-ups were collected. *)
Theorem pickup_overrides_damage (g : GameState) (delta : R) (now : Z)
        (rnd : nat -> R) (w : World) :
  let r := frame g delta now rnd w in
  let s' := fst (stepGame delta now rnd (g, w)) in
  existsb setsEffects (queue r) = true ->
  gs_health s' = Z.min (gs_maxHealth g) (gs_health g + 1)
  /\ exists powerUp,
      activePowerUps s' = activePowerUps g ++ [shieldFrom powerUp now].
Proof.
  cbv zeta. unfold stepGame. cbn [fst snd]. intro Hcol.
  destruct (frame_runs_or_idles g w) as [(Hs & p0 & Hp) | Hidle].
  2: { rewrite (frame_idle g delta now rnd w Hidle) in Hcol. discriminate. }
  destruct (frame_anatomy g delta now rnd w p0 Hs Hp)
    as (es2 & spawned & qk & qp & qw & _ & _ & _ & _ & _ & Hq & Hk & Hpick & Hw & _).
  set (pe := playerEntityOf g (movePlayer (keysRef w) delta p0)) in *.
  rewrite Hq in *.
  assert (Hqw : Forall (fun u => u_health u = None /\ u_activePowerUps u = None) qw).
  { destruct Hw as [(-> & _) | (-> & _)]; repeat constructor. }
  assert (Hne : qp <> []).
  { intro Hnil. subst qp. rewrite !existsb_app in Hcol.
    rewrite (existsb_none setsEffects qk) in Hcol.
    2: { eapply Forall_impl; [| exact Hk]. intros u <-. reflexivity. }
    rewrite (existsb_none setsEffects (flat_map (hitUpdates g pe) es2)) in Hcol.
    2: { apply Forall_forall. intros u Hin. apply in_flat_map in Hin.
         destruct Hin as (e & _ & Hu). unfold hitUpdates in Hu.
         destruct (checkCollision pe e); [| destruct Hu].
         destruct Hu as [<- | Hu]; [reflexivity |].
         destruct (gs_health g <=? 1)%Z; [| destruct Hu].
         destruct Hu as [<- | []]. reflexivity. }
    rewrite (existsb_none setsEffects qw) in Hcol.
    2: { eapply Forall_impl; [| exact Hqw]. intros u [_ Hu].
         unfold setsEffects. rewrite Hu. reflexivity. }
    discriminate. }
  split.
  - rewrite !app_assoc. rewrite <- (app_assoc _ qp qw).
    rewrite applyUpdates_app.
    apply (pickups_set_health g now qp qw Hpick Hne).
    eapply Forall_impl; [| exact Hqw]. intros u [Hu _]. exact Hu.
  - pose proof (frame_queue_updates g delta now rnd w) as Hall.
    assert (Hinv : forall q s,
               Forall (FrameUpdate g now) q ->
               existsb setsEffects q = true ->
               exists powerUp,
                 activePowerUps (applyUpdates s q)
                 = activePowerUps g ++ [shieldFrom powerUp now]).
    { intro q. induction q as [| u q IH] using rev_ind; intros s HF Hex;
        [discriminate |].
      rewrite applyUpdates_app. apply Forall_app in HF. destruct HF as [HF Hu].
      inversion Hu as [| ? ? Hu' _]; subst.
      rewrite existsb_app in Hex. simpl in Hex. rewrite orb_false_r in Hex.
      destruct Hu'; simpl;
        try (exists powerUp; reflexivity);
        simpl in Hex; rewrite orb_false_r in Hex; apply IH; assumption. }
    rewrite <- Hq. apply Hinv; [exact Hall | rewrite Hq; exact Hcol].
Qed.

Lemma player_stays_in_bounds_witness :
  status (playingState 10 5 []) = playing
  /\ playerRef readyWorld = Some Vector3.zero
  /\ exists p, playerRef (world (frame (playingState 10 5 []) (1 / 60) 5000
                                       (fun _ => 1 / 2) readyWorld)) = Some p
               /\ -12 <= Vector3.x p <= 12 /\ -8 <= Vector3.y p <= 8 /\ Vector3.z p = 0.
Proof.
  split; [reflexivity |]. split; [reflexivity |].
  apply (player_stays_in_bounds (playingState 10 5 []) (1 / 60) 5000 (fun _ => 1 / 2)
           readyWorld Vector3.zero eq_refl eq_refl).
Defined.

Lemma pickup_overrides_damage_witness :
  let g := playingState 5 5 [] in
  let r := frame g (1 / 100) 5000 (fun _ => 1 / 2) powerUpAndEnemyAtPlayer in
  existsb setsEffects (queue r) = true
  /\ In (damageUpdate g) (queue r)
  /\ gs_health (fst (stepGame (1 / 100) 5000 (fun _ => 1 / 2)
                              (g, powerUpAndEnemyAtPlayer))) = 6%Z.
Proof.
  cbv zeta.
  assert (Hq : queue (frame (playingState 5 5 []) (1 / 100) 5000 (fun _ => 1 / 2)
                            powerUpAndEnemyAtPlayer)
               = [damageUpdate (playingState 5 5 []);
                  pickupUpdate (playingState 5 5 [])
                               (mkPowerUp (IdPowerUp 0) shield 10 true 5000)]).
  { run_frame. reflexivity. }
  assert (Hcol : existsb setsEffects
                   (queue (frame (playingState 5 5 []) (1 / 100) 5000 (fun _ => 1 / 2)
                                 powerUpAndEnemyAtPlayer)) = true).
  { rewrite Hq. reflexivity. }
  split; [exact Hcol |]. split; [rewrite Hq; left; reflexivity |].
  apply (pickup_overrides_damage (playingState 5 5 []) (1 / 100) 5000 (fun _ => 1 / 2)
           powerUpAndEnemyAtPlayer Hcol).
Defined.

(** X16.  With [Math.random()] in [0, 1): without a pool [spawnEnemy] does
    nothing; with one it appends one enemy, on the mesh the pool hands out, at
    x in [-10, 10), y in [-7.5, 7.5), z = -30, flying along z at a speed in
    [5, 8), with health 3 of 3, active, radius 0.5, after four calls of
    [Math.random()]. *)
Theorem spawnEnemy_ranges (now : Z) (rnd : nat -> R) (w : World) :
  (forall k, 0 <= rnd k < 1) ->
  (enemyPoolRef w = None -> spawnEnemy now rnd w = w)
  /\ (forall pool, enemyPoolRef w = Some pool ->
      exists e,
        enemiesRef (spawnEnemy now rnd w) = enemiesRef w ++ [e]
        /\ mesh e = fst (fst (poolGet pool (heap w)))
        /\ -10 <= Vector3.x (position e) < 10
        /\ -15 / 2 <= Vector3.y (position e) < 15 / 2
        /\ Vector3.z (position e) = -30
        /\ Vector3.x (velocity e) = 0 /\ Vector3.y (velocity e) = 0
        /\ 5 <= Vector3.z (velocity e) < 8
        /\ health e = 3%Z /\ maxHealth e = 3%Z /\ active e = true
        /\ radius e = 1 / 2 /\ type e = enemy
        /\ randomCalls (spawnEnemy now rnd w) = (4 + randomCalls w)%nat).
Proof.
  intro Hrnd. split.
  - intro Hnone. unfold spawnEnemy. rewrite Hnone. reflexivity.
  - intros pool Hpool. unfold spawnEnemy. rewrite Hpool.
    destruct (poolGet pool (heap w)) as [[m pool'] heap'] eqn:Hget.
    eexists. cbn [enemiesRef randomCalls]. split; [reflexivity |].
    cbn [newEnemy mesh position velocity health maxHealth active radius type
         Vector3.x Vector3.y Vector3.z fst].
    pose proof (Hrnd (randomCalls w)) as H0.
    pose proof (Hrnd (1 + randomCalls w)%nat) as H1.
    pose proof (Hrnd (3 + randomCalls w)%nat) as H3.
    repeat split; try reflexivity; lra.
Qed.

Lemma spawnEnemy_ranges_witness :
  (forall k : nat, 0 <= (fun _ => 1 / 2) k < 1)
  /\ exists e, enemiesRef (spawnEnemy 5000 (fun _ => 1 / 2) readyWorld) = [e]
               /\ Vector3.z (position e) = -30 /\ health e = 3%Z.
Proof.
  assert (Hrnd : forall k : nat, 0 <= (fun _ : nat => 1 / 2) k < 1) by (intro k; lra).
  split; [exact Hrnd |].
  destruct (spawnEnemy_ranges 5000 (fun _ => 1 / 2) readyWorld Hrnd) as [_ Hsome].
  destruct (Hsome (spheres 20 10) eq_refl)
    as (e & He & _ & _ & _ & Hz & _ & _ & _ & Hh & _).
  exists e. split; [exact He |]. split; [exact Hz | exact Hh].
Defined.

(** X17.  With [Math.random()] in [0, 1): [spawnPowerUp] does nothing but draw
    one number when that number is above 0.1; otherwise it appends one power-
    up on a freshly built mesh, at x in [-7.5, 7.5), y in [-5, 5), z = -20,
    with velocity (0, 0, 3), health 1 of 1, active, radius 0.3. *)
Theorem spawnPowerUp_gate_and_ranges (now : Z) (rnd : nat -> R) (w : World) :
  (forall k, 0 <= rnd k < 1) ->
  let k := randomCalls w in
  (rnd k > 1 / 10 ->
   powerUpsRef (spawnPowerUp now rnd w) = powerUpsRef w
   /\ heap (spawnPowerUp now rnd w) = heap w
   /\ randomCalls (spawnPowerUp now rnd w) = S k)
  /\ (rnd k <= 1 / 10 ->
      exists q,
        powerUpsRef (spawnPowerUp now rnd w) = powerUpsRef w ++ [q]
        /\ mesh q = sphere (heap w) /\ heap (spawnPowerUp now rnd w) = S (heap w)
        /\ -15 / 2 <= Vector3.x (position q) < 15 / 2
        /\ -5 <= Vector3.y (position q) < 5
        /\ Vector3.z (position q) = -20
        /\ velocity q = Vector3.mk 0 0 3
        /\ health q = 1%Z /\ maxHealth q = 1%Z /\ active q = true
        /\ radius q = 3 / 10 /\ type q = powerup).
Proof.
  intro Hrnd. cbv zeta. unfold spawnPowerUp, Rgtb. split.
  - intro Hgt. rewrite (proj2 (Rltb_true_iff _ _)) by lra. repeat split.
  - intro Hle. rewrite (proj2 (Rltb_false_iff _ _)) by lra.
    cbn [createSphere]. eexists. cbn [powerUpsRef heap]. split; [reflexivity |].
    cbn [newPowerUpEntity mesh position velocity health maxHealth active radius type
         Vector3.x Vector3.y Vector3.z].
    pose proof (Hrnd (1 + randomCalls w)%nat) as H1.
    pose proof (Hrnd (2 + randomCalls w)%nat) as H2.
    repeat split; try reflexivity; lra.
Qed.

Lemma spawnPowerUp_gate_and_ranges_witness :
  (forall k : nat, 0 <= (fun _ => 1 / 20) k < 1)
  /\ exists q, powerUpsRef (spawnPowerUp 5000 (fun _ => 1 / 20) readyWorld) = [q]
               /\ Vector3.z (position q) = -20.
Proof.
  assert (Hrnd : forall k : nat, 0 <= (fun _ : nat => 1 / 20) k < 1) by (intro k; lra).
  split; [exact Hrnd |].
  destruct (spawnPowerUp_gate_and_ranges 5000 (fun _ => 1 / 20) readyWorld Hrnd)
    as [_ Hsome].
  destruct (Hsome ltac:(lra)) as (q & Hq & _ & _ & _ & _ & Hz & _).
  exists q. split; [exact Hq | exact Hz].
Defined.

Lemma spawnEnemy_length (now : Z) (rnd : nat -> R) (w : World) :
  List.length (enemiesRef (spawnEnemy now rnd w))
  = (List.length (enemiesRef w) + (match enemyPoolRef w with Some _ => 1 | None => 0 end))%nat.
Proof.
  unfold spawnEnemy. destruct (enemyPoolRef w) as [pool |].
  - destruct (poolGet pool (heap w)) as [[m pool'] heap']. cbn [enemiesRef].
    rewrite length_app. reflexivity.
  - lia.
Qed.

(** X18.  The spawn block.  When the timer plus delta exceeds 2 - level * 0.1
    the timer is reset to 0, one enemy is added if the pool exists (none if it
    does not), and at most one power-up timeout is set; otherwise only the
    timer moves, to timer + delta.  From level 20 on the threshold is <= 0:
    every frame with a positive delta resets the timer. *)
Theorem enemySpawning_cadence (g : GameState) (delta : R) (now : Z) (rnd : nat -> R)
        (w : World) :
  let w' := enemySpawning g delta now rnd w in
  let threshold := 2 - IZR (level g) * (1 / 10) in
  (enemySpawnTimerRef w + delta > threshold ->
   enemySpawnTimerRef w' = 0
   /\ List.length (enemiesRef w')
      = (List.length (enemiesRef w) + (match enemyPoolRef w with Some _ => 1 | None => 0 end))%nat
   /\ randomCalls w' = (randomCalls w + (match enemyPoolRef w with Some _ => 5 | None => 1 end))%nat
   /\ (timeouts w' = timeouts w \/ timeouts w' = S (timeouts w)))
  /\ (enemySpawnTimerRef w + delta <= threshold ->
      w' = setEnemySpawnTimer w (enemySpawnTimerRef w + delta))
  /\ ((20 <= level g)%Z -> 0 <= enemySpawnTimerRef w -> 0 < delta ->
      enemySpawnTimerRef w' = 0).
Proof.
  cbv zeta.
  assert (Hcross : enemySpawnTimerRef w + delta > 2 - IZR (level g) * (1 / 10) ->
                   enemySpawning g delta now rnd w
                   = maybeSchedulePowerUp rnd
                       (setEnemySpawnTimer
                          (spawnEnemy now rnd
                             (setEnemySpawnTimer w (enemySpawnTimerRef w + delta))) 0)).
  { intro H. unfold enemySpawning, Rgtb. cbv zeta. cbn [enemySpawnTimerRef setEnemySpawnTimer].
    rewrite (proj2 (Rltb_true_iff _ _)) by lra. reflexivity. }
  assert (Hzero : enemySpawnTimerRef w + delta > 2 - IZR (level g) * (1 / 10) ->
                  enemySpawnTimerRef (enemySpawning g delta now rnd w) = 0).
  { intro H. rewrite (Hcross H). reflexivity. }
  split; [| split].
  - intro H. split; [exact (Hzero H) |]. rewrite (Hcross H).
    unfold maybeSchedulePowerUp. cbn [enemiesRef randomCalls timeouts setEnemySpawnTimer].
    rewrite spawnEnemy_length. cbn [enemiesRef enemyPoolRef setEnemySpawnTimer].
    split; [reflexivity |]. split.
    + unfold spawnEnemy. cbn [enemyPoolRef setEnemySpawnTimer].
      destruct (enemyPoolRef w) as [pool |].
      * cbn [heap setEnemySpawnTimer].
        destruct (poolGet pool (heap w)) as [[m pool'] heap'].
        cbn [randomCalls setEnemySpawnTimer]. lia.
      * cbn [randomCalls setEnemySpawnTimer]. lia.
    + destruct (Rltb _ (3 / 10)).
      * right. unfold spawnEnemy. cbn [enemyPoolRef setEnemySpawnTimer].
        destruct (enemyPoolRef w) as [pool |]; [| reflexivity].
        cbn [heap setEnemySpawnTimer].
        destruct (poolGet pool (heap w)) as [[m pool'] heap']. reflexivity.
      * left. unfold spawnEnemy. cbn [enemyPoolRef setEnemySpawnTimer].
        destruct (enemyPoolRef w) as [pool |]; [| reflexivity].
        cbn [heap setEnemySpawnTimer].
        destruct (poolGet pool (heap w)) as [[m pool'] heap']. reflexivity.
  - intro H. unfold enemySpawning, Rgtb. cbv zeta. cbn [enemySpawnTimerRef setEnemySpawnTimer].
    rewrite (proj2 (Rltb_false_iff _ _)) by lra. reflexivity.
  - intros Hlevel Ht Hd. apply Hzero.
    apply IZR_le in Hlevel. lra.
Qed.

Section PoolOrder.

Context {T F : Type}.
Variable truthy : T -> bool.
Variable createFn : F -> T * F.
Hypothesis objects_truthy : forall item : T, truthy item = true.

Lemma get_pushed (a : list T) (item : T) (f : F) :
  get truthy createFn (push a item) f = (item, a, f).
Proof. unfold get. rewrite pop_push, objects_truthy. reflexivity. Qed.

Lemma releaseAll_snoc (a items : list T) (item : T) :
  releaseAll a (items ++ [item]) = push (releaseAll a items) item.
Proof. unfold releaseAll. rewrite fold_left_app. reflexivity. Qed.

(** X19.  Handles (objects) released to a pool come back in reverse order of
    release, without a construction, and the pool is then as it was before. *)
Theorem released_handles_come_back_last_first (a items : list T) (f : F) :
  getN truthy createFn (List.length items) (releaseAll a items) f = (rev items, a, f).
Proof.
  induction items as [| item items IH] using rev_ind.
  - reflexivity.
  - rewrite length_app, Nat.add_comm. cbn [List.length Nat.add getN].
    rewrite releaseAll_snoc, get_pushed, IH, rev_app_distr. reflexivity.
Qed.

Lemma fill_spec (n : nat) :
  forall (a : list T) (f : F) (c : nat),
    List.length (fst (fill (counting createFn) n a (f, c))) = (List.length a + n)%nat
    /\ snd (snd (fill (counting createFn) n a (f, c))) = (c + n)%nat.
Proof.
  induction n as [| n IH]; intros a f c; cbn [fill].
  - cbn. lia.
  - unfold counting at 1 3. cbn [fst snd]. destruct (createFn f) as [item f'].
    destruct (IH (push a item) f' (S c)) as [H1 H2].
    rewrite H1, H2, push_length. lia.
Qed.

(** X20.  The constructor calls the factory [initialSize] times and leaves
    that many handles in the pool; the first [initialSize] calls of [get] then
    construct nothing. *)
Theorem new_pool_serves_initialSize_gets (initialSize n : nat) (f : F) (c : nat) :
  let built := newObjectPool (counting createFn) initialSize (f, c) in
  List.length (fst built) = initialSize
  /\ snd (snd built) = (c + initialSize)%nat
  /\ ((n <= initialSize)%nat ->
      snd (getN truthy (counting createFn) n (fst built) (snd built)) = snd built).
Proof.
  cbv zeta. unfold newObjectPool.
  destruct (fill_spec initialSize [] f c) as [H1 H2]. cbn [List.length Nat.add] in H1.
  split; [exact H1 |]. split; [exact H2 |].
  intro Hn. apply (getN_free truthy createFn objects_truthy). lia.
Qed.

End PoolOrder.

Lemma setCell_same (h : VectorHeap) (a : nat) (v : Vec) :
  (a < List.length h)%nat -> nth_error (setCell h a v) a = Some v.
Proof.
  intro Ha. unfold setCell. rewrite (proj2 (Nat.ltb_lt _ _) Ha).
  rewrite nth_error_app2; rewrite length_firstn, Nat.min_l by lia; [| lia].
  rewrite Nat.sub_diag. reflexivity.
Qed.

Lemma setCell_other (h : VectorHeap) (a b : nat) (v : Vec) :
  a <> b -> nth_error (setCell h a v) b = nth_error h b.
Proof.
  intro Hab. unfold setCell. destruct (Nat.ltb_spec a (List.length h)) as [Ha | Ha];
    [| reflexivity].
  assert (Hlen : List.length (firstn a h) = a)
    by (rewrite length_firstn; apply Nat.min_l; lia).
  rewrite <- (firstn_skipn a h) at 3.
  destruct (Nat.lt_ge_cases b a) as [Hlt | Hge].
  - rewrite !nth_error_app1 by (rewrite Hlen; exact Hlt). reflexivity.
  - rewrite !nth_error_app2 by (rewrite Hlen; exact Hge).
    rewrite Hlen.
    rewrite nth_error_skipn.
    destruct (b - a)%nat as [| d] eqn:Hd; [lia |].
    cbn [nth_error]. rewrite nth_error_skipn. f_equal. lia.
Qed.

Lemma setCell_length (h : VectorHeap) (a : nat) (v : Vec) :
  List.length (setCell h a v) = List.length h.
Proof.
  unfold setCell. destruct (Nat.ltb_spec a (List.length h)) as [Ha | Ha];
    [| reflexivity].
  rewrite length_app, length_firstn. cbn [List.length]. rewrite length_skipn. lia.
Qed.

(** X21.  [Vector3Pool]: a released vector is reset to (0, 0, 0), no other
    vector is changed, and the next [get] returns that same vector and leaves
    the pool as it was.  [get] on an empty pool builds a new vector (0, 0, 0)
    and changes none of the existing ones. *)
Theorem vector_pool_round_trip (pool : list nat) (h : VectorHeap) (vector : nat) :
  (vector < List.length h)%nat ->
  let released := Vector3Pool.release pool h vector in
  Vector3Pool.get (fst released) (snd released) = (vector, pool, snd released)
  /\ nth_error (snd released) vector = Some Vector3.zero
  /\ (forall other, other <> vector ->
                    nth_error (snd released) other = nth_error h other)
  /\ (let fresh := Vector3Pool.get [] h in
      fst (fst fresh) = List.length h
      /\ nth_error (snd fresh) (fst (fst fresh)) = Some Vector3.zero
      /\ forall other, (other < List.length h)%nat ->
                       nth_error (snd fresh) other = nth_error h other).
Proof.
  intro Hv. cbv zeta. unfold Vector3Pool.release, Vector3Pool.get. cbn [fst snd].
  rewrite pop_push.
  split; [reflexivity |]. split; [apply setCell_same; exact Hv |].
  split; [intros other Ho; apply setCell_other; auto |].
  cbn [pop rev fst snd].
  split; [reflexivity |]. split.
  - rewrite nth_error_app2 by lia. rewrite Nat.sub_diag. reflexivity.
  - intros other Ho. rewrite nth_error_app1 by lia. reflexivity.
Qed.

Lemma vector_pool_round_trip_witness :
  (0 < List.length [Vector3.mk 1 2 3])%nat
  /\ Vector3Pool.get (fst (Vector3Pool.release [] [Vector3.mk 1 2 3] 0))
                     (snd (Vector3Pool.release [] [Vector3.mk 1 2 3] 0))
     = (0%nat, [], [Vector3.zero]).
Proof.
  assert (H : (0 < List.length [Vector3.mk 1 2 3])%nat) by (simpl; lia).
  split; [exact H |].
  destruct (vector_pool_round_trip [] [Vector3.mk 1 2 3] 0 H) as [Hget _].
  exact Hget.
Defined.

Lemma movePlayer_ext (k1 k2 : string -> bool) (delta : R) (p : Vec) :
  (forall c, k1 c = k2 c) -> movePlayer k1 delta p = movePlayer k2 delta p.
Proof. intro H. unfold movePlayer. rewrite !H. reflexivity. Qed.

(** X22.  After keydown the key is held and after keyup it is not, whatever it
    was before; the other keys are not changed; keyup after keydown leaves the
    same keys held, and so the same movement, as keyup alone. *)
Theorem key_handlers_track_held_keys (code : string) (w : World) :
  keysRef (PlayerInput.handleKeyDown code w) code = true
  /\ keysRef (PlayerInput.handleKeyUp code w) code = false
  /\ (forall other, other <> code ->
        keysRef (PlayerInput.handleKeyDown code w) other = keysRef w other
        /\ keysRef (PlayerInput.handleKeyUp code w) other = keysRef w other)
  /\ (forall c, keysRef (PlayerInput.handleKeyUp code (PlayerInput.handleKeyDown code w)) c
                = keysRef (PlayerInput.handleKeyUp code w) c)
  /\ (forall delta p,
        movePlayer (keysRef (PlayerInput.handleKeyUp code
                               (PlayerInput.handleKeyDown code w))) delta p
        = movePlayer (keysRef (PlayerInput.handleKeyUp code w)) delta p).
Proof.
  assert (Hsame : forall c,
             keysRef (PlayerInput.handleKeyUp code (PlayerInput.handleKeyDown code w)) c
             = keysRef (PlayerInput.handleKeyUp code w) c).
  { intro c. unfold PlayerInput.handleKeyDown, PlayerInput.handleKeyUp, setKeys, setKey.
    cbn [keysRef]. destruct (String.eqb c code); reflexivity. }
  unfold PlayerInput.handleKeyDown, PlayerInput.handleKeyUp, setKeys, setKey in *.
  cbn [keysRef] in *. rewrite String.eqb_refl.
  split; [reflexivity |]. split; [reflexivity |].
  split.
  - intros other Ho. apply String.eqb_neq in Ho. rewrite Ho. split; reflexivity.
  - split; [exact Hsame |]. intros delta p. apply movePlayer_ext. exact Hsame.
Qed.

(** X23.  Escape sets the status to menu from every status and changes nothing
    else (score, health, wave and effects stay); a key other than KeyP and
    Escape leaves the session state as it is. *)
Theorem escape_returns_to_menu (code : string) (s : GameState) :
  handleKeyDown "Escape" s = setStatus s menu
  /\ status (handleKeyDown "Escape" s) = menu
  /\ score (handleKeyDown "Escape" s) = score s
  /\ gs_health (handleKeyDown "Escape" s) = gs_health s
  /\ wave (handleKeyDown "Escape" s) = wave s
  /\ activePowerUps (handleKeyDown "Escape" s) = activePowerUps s
  /\ (code <> "KeyP"%string -> code <> "Escape"%string -> handleKeyDown code s = s).
Proof.
  assert (H : handleKeyDown "Escape" s = setStatus s menu).
  { unfold handleKeyDown. cbn [String.eqb Ascii.eqb Bool.eqb andb].
    destruct s as [st sc lv h mh sh msh li wv er ap]. destruct st; reflexivity. }
  split; [exact H |]. rewrite H. repeat split.
  intros HP HE. unfold handleKeyDown.
  apply String.eqb_neq in HP, HE. rewrite HP, HE. reflexivity.
Qed.

Lemma escape_returns_to_menu_witness :
  "KeyW"%string <> "KeyP"%string /\ "KeyW"%string <> "Escape"%string
  /\ handleKeyDown "KeyW" (playingState 10 5 []) = playingState 10 5 [].
Proof.
  assert (HP : "KeyW"%string <> "KeyP"%string) by discriminate.
  assert (HE : "KeyW"%string <> "Escape"%string) by discriminate.
  split; [exact HP |]. split; [exact HE |].
  destruct (escape_returns_to_menu "KeyW" (playingState 10 5 []))
    as (_ & _ & _ & _ & _ & _ & Hother).
  exact (Hother HP HE).
Defined.

Lemma stepGame_config (delta : R) (now : Z) (rnd : nat -> R) (sw : GameState * World) :
  startGame (fst (stepGame delta now rnd sw)) = startGame (fst sw).
Proof.
  destruct sw as [g w]. unfold stepGame. cbn [fst snd].
  assert (H : gs_maxHealth (applyUpdates g (queue (frame g delta now rnd w)))
              = gs_maxHealth g
              /\ gs_shield (applyUpdates g (queue (frame g delta now rnd w))) = gs_shield g
              /\ maxShield (applyUpdates g (queue (frame g delta now rnd w))) = maxShield g
              /\ lives (applyUpdates g (queue (frame g delta now rnd w))) = lives g).
  { apply (applyUpdates_invariant g now
             (fun s => gs_maxHealth s = gs_maxHealth g /\ gs_shield s = gs_shield g
                       /\ maxShield s = maxShield g /\ lives s = lives g)).
    - intros s u Hs Hu. destruct Hu; exact Hs.
    - apply frame_queue_updates.
    - repeat split. }
  destruct H as (H1 & H2 & H3 & H4). unfold startGame. rewrite H1, H2, H3, H4.
  reflexivity.
Qed.

(** X24.  [startGame] after any number of frames, after a pause toggle or
    after any key gives the same state as [startGame] before them; it is
    idempotent, sets the status to playing and the health to maxHealth. *)
Theorem restart_equals_fresh_start (rnd : nat -> R) (inputs : list (R * Z))
        (g : GameState) (w : World) (code : string) :
  startGame (fst (runFrames rnd inputs (g, w))) = startGame g
  /\ startGame (togglePause g) = startGame g
  /\ startGame (handleKeyDown code g) = startGame g
  /\ startGame (startGame g) = startGame g
  /\ status (startGame g) = playing
  /\ gs_health (startGame g) = gs_maxHealth g
  /\ gs_maxHealth (startGame g) = gs_maxHealth g.
Proof.
  split.
  - unfold runFrames. change g with (fst (g, w)) at 2.
    generalize (g, w) as sw. induction inputs as [| [delta now] inputs IH]; intro sw.
    + reflexivity.
    + cbn [fold_left]. rewrite IH. cbn [fst snd]. apply stepGame_config.
  - split; [reflexivity |]. split; [| repeat split].
    unfold handleKeyDown.
    destruct (String.eqb code "KeyP"), (String.eqb code "Escape" && _); reflexivity.
Qed.

(** X25.  An accepted shot takes the last mesh of the pool and builds none
    while the pool has one; with an empty pool it builds a new mesh and the
    pool stays empty. *)
Theorem shootBullet_takes_pooled_mesh (now : Z) (w : World) (p : Vec) :
  playerRef w = Some p -> (150 <= now - lastShotRef w)%Z ->
  (forall a m, bulletPoolRef w = Some (a ++ [m]) ->
     heap (shootBullet now w) = heap w
     /\ bulletPoolRef (shootBullet now w) = Some a
     /\ exists b, bulletsRef (shootBullet now w) = bulletsRef w ++ [b] /\ mesh b = m)
  /\ (bulletPoolRef w = Some [] ->
      heap (shootBullet now w) = S (heap w)
      /\ bulletPoolRef (shootBullet now w) = Some []
      /\ exists b, bulletsRef (shootBullet now w) = bulletsRef w ++ [b]
                   /\ mesh b = sphere (heap w)).
Proof.
  intros Hp Ht. split.
  - intros a m Hpool.
    destruct (shootBullet_accepted now w p (a ++ [m]) Hp Hpool Ht)
      as (m' & pool' & heap' & Hget & ->).
    rewrite poolGet_last in Hget. inversion Hget; subst.
    cbn [heap bulletPoolRef bulletsRef]. repeat split.
    eexists. split; reflexivity.
  - intro Hpool.
    destruct (shootBullet_accepted now w p [] Hp Hpool Ht)
      as (m' & pool' & heap' & Hget & ->).
    cbn in Hget. inversion Hget; subst.
    cbn [heap bulletPoolRef bulletsRef]. repeat split.
    eexists. split; reflexivity.
Qed.

Lemma shootBullet_takes_pooled_mesh_witness :
  playerRef readyWorld = Some Vector3.zero
  /\ (150 <= 1000 - lastShotRef readyWorld)%Z
  /\ heap (shootBullet 1000 readyWorld) = heap readyWorld
  /\ bulletPoolRef (shootBullet 1000 readyWorld) = Some (spheres 0 19).
Proof.
  assert (Ht : (150 <= 1000 - lastShotRef readyWorld)%Z) by (simpl; lia).
  split; [reflexivity |]. split; [exact Ht |].
  destruct (shootBullet_takes_pooled_mesh 1000 readyWorld Vector3.zero eq_refl Ht)
    as [Hsome _].
  destruct (Hsome (spheres 0 19) (sphere 19) eq_refl) as (Hh & Hp & _).
  split; [exact Hh | exact Hp].
Defined.

Lemma clampPosition_within_bounds_witness :
  0 <= Vector3.x (Vector3.mk 12 8 0) /\ 0 <= Vector3.y (Vector3.mk 12 8 0)
  /\ 0 <= Vector3.z (Vector3.mk 12 8 0)
  /\ clampPosition (clampPosition (Vector3.mk 20 (-9) 3) (Vector3.mk 12 8 0))
                   (Vector3.mk 12 8 0)
     = clampPosition (Vector3.mk 20 (-9) 3) (Vector3.mk 12 8 0).
Proof.
  assert (Hx : 0 <= Vector3.x (Vector3.mk 12 8 0)) by (simpl; lra).
  assert (Hy : 0 <= Vector3.y (Vector3.mk 12 8 0)) by (simpl; lra).
  assert (Hz : 0 <= Vector3.z (Vector3.mk 12 8 0)) by (simpl; lra).
  split; [exact Hx |]. split; [exact Hy |]. split; [exact Hz |].
  destruct (clampPosition_within_bounds (Vector3.mk 20 (-9) 3) (Vector3.mk 12 8 0)
              Hx Hy Hz) as (_ & _ & _ & Hidem & _).
  exact Hidem.
Defined.

Lemma handleMouseMove_normalized_witness :
  0 < 1920 /\ 0 < 1080 /\ 0 <= 480 <= 1920 /\ 0 <= 1080 <= 1080
  /\ -1 <= fst (handleMouseMove 480 1080 1920 1080) <= 1
  /\ -1 <= snd (handleMouseMove 480 1080 1920 1080) <= 1.
Proof.
  assert (Hw : 0 < 1920) by lra. assert (Hh : 0 < 1080) by lra.
  assert (Hx : 0 <= 480 <= 1920) by lra. assert (Hy : 0 <= 1080 <= 1080) by lra.
  destruct (handleMouseMove_normalized 480 1080 1920 1080 Hw Hh Hx Hy)
    as (H1 & H2 & _).
  repeat (split; [assumption |]). exact H2.
Defined.

Lemma bullet_mesh_released_once_per_overlap_witness :
  let b := advance (onAxis 19 bullet 10 20 1 1 (1 / 10)) (1 / 100) in
  let es := [advance (onAxis 29 enemy 10 5 3 3 (1 / 2)) (1 / 100);
             advance (onAxis 28 enemy 10 5 3 3 (1 / 2)) (1 / 100)] in
  let fx := mkFx (Some (spheres 0 19)) (Some (spheres 20 8)) [] [] in
  fx_bulletPool fx = Some (spheres 0 19)
  /\ fx_bulletPool (snd (bulletVsEnemies (playingState 10 5 []) 0 0 b es fx))
     = Some (spheres 0 19 ++ [sphere 19; sphere 19])
  /\ fst (fst (poolGet (spheres 0 19 ++ [sphere 19; sphere 19]) 30)) = sphere 19
  /\ fst (fst (poolGet (snd (fst (poolGet (spheres 0 19 ++ [sphere 19; sphere 19]) 30)))
                       (snd (poolGet (spheres 0 19 ++ [sphere 19; sphere 19]) 30))))
     = sphere 19.
Proof.
  cbv zeta.
  set (b := advance (onAxis 19 bullet 10 20 1 1 (1 / 10)) (1 / 100)).
  set (e1 := advance (onAxis 29 enemy 10 5 3 3 (1 / 2)) (1 / 100)).
  set (e2 := advance (onAxis 28 enemy 10 5 3 3 (1 / 2)) (1 / 100)).
  assert (H1 : checkCollision b e1 = true)
    by (apply collide_yes; unfold Vector3.distanceToSquared; cbn; lra).
  assert (H2 : checkCollision b e2 = true)
    by (apply collide_yes; unfold Vector3.distanceToSquared; cbn; lra).
  assert (Hn : List.length (filter (checkCollision b) [e1; e2]) = 2%nat)
    by (cbn [filter]; rewrite H1, H2; reflexivity).
  destruct (bullet_mesh_released_once_per_overlap (playingState 10 5 []) 0 0 b [e1; e2]
              (mkFx (Some (spheres 0 19)) (Some (spheres 20 8)) [] [])
              (spheres 0 19) eq_refl) as [Hpool Htwice].
  rewrite Hn in Hpool, Htwice.
  split; [reflexivity |]. split; [exact Hpool |].
  destruct (Htwice (le_n 2) 30%nat) as (Hfirst & Hsecond & _).
  split; [exact Hfirst | exact Hsecond].
Defined.

Lemma overlapping_powerUps_collected_every_other_witness :
  let pe := playerEntityOf (playingState 10 5 []) Vector3.zero in
  Forall (fun q => checkCollision pe q = true) twoPowerUpsAtPlayer
  /\ List.length
       (fst (playerVsPowerUps (playingState 10 5 []) 5000 pe 2 0 twoPowerUpsAtPlayer
                              (mkFx None None [] []))) = 1%nat.
Proof.
  cbv zeta.
  assert (Hall : Forall (fun q => checkCollision
                                    (playerEntityOf (playingState 10 5 []) Vector3.zero) q
                                  = true) twoPowerUpsAtPlayer).
  { repeat constructor; apply collide_yes;
      unfold Vector3.distanceToSquared; cbn; lra. }
  split; [exact Hall |].
  change 2%nat with (List.length twoPowerUpsAtPlayer).
  rewrite (overlapping_powerUps_collected_every_other (playingState 10 5 []) 5000
             (playerEntityOf (playingState 10 5 []) Vector3.zero) twoPowerUpsAtPlayer
             (mkFx None None [] []) Hall).
  reflexivity.
Defined.

Lemma released_handles_come_back_last_first_witness :
  (forall m : Mesh, meshTruthy m = true)
  /\ getN meshTruthy createSphere 2 (releaseAll [] [sphere 0; sphere 1]) 2%nat
     = ([sphere 1; sphere 0], [], 2%nat).
Proof.
  split; [intro m; reflexivity |].
  apply (released_handles_come_back_last_first meshTruthy createSphere
           (fun _ => eq_refl) [] [sphere 0; sphere 1] 2%nat).
Defined.

Lemma new_pool_serves_initialSize_gets_witness :
  (forall m : Mesh, meshTruthy m = true)
  /\ (20 <= 20)%nat
  /\ snd (snd (newObjectPool (counting createSphere) 20 (0%nat, 0%nat))) = 20%nat
  /\ snd (snd (getN meshTruthy (counting createSphere) 20
                    (fst (newObjectPool (counting createSphere) 20 (0%nat, 0%nat)))
                    (snd (newObjectPool (counting createSphere) 20 (0%nat, 0%nat)))))
     = 20%nat.
Proof.
  split; [intro m; reflexivity |]. split; [lia |].
  destruct (new_pool_serves_initialSize_gets meshTruthy createSphere
              (fun _ => eq_refl) 20 20 0%nat 0%nat) as (_ & Hc & Hserve).
  split; [exact Hc |]. rewrite (Hserve (le_n 20)). exact Hc.
Defined.

Lemma iter_damaged (n : nat) (e : GameEntity) :
  health (Nat.iter n damaged e) = (health e - Z.of_nat n)%Z
  /\ active (Nat.iter n damaged e)
     = active e && ((n =? 0)%nat || (Z.of_nat n <? health e)%Z)
  /\ sameBody e (Nat.iter n damaged e).
Proof.
  induction n as [| n IH].
  - split; [simpl; lia |]. split; [simpl; rewrite andb_true_r; reflexivity | apply sameBody_refl].
  - change (Nat.iter (S n) damaged e) with (damaged (Nat.iter n damaged e)).
    destruct IH as (Hh & Ha & Hb).
    set (x := Nat.iter n damaged e) in *.
    unfold damaged. cbv zeta. cbn [health setHealth]. rewrite Hh.
    assert (Hn : (S n =? 0)%nat = false) by reflexivity. rewrite Hn. cbn [orb].
    destruct (Z.leb_spec (health e - Z.of_nat n - 1) 0) as [Hle | Hgt].
    + cbn [health active setActive setHealth].
      split; [lia |]. split.
      * rewrite (proj2 (Z.ltb_ge (Z.of_nat (S n)) (health e))) by lia.
        rewrite andb_false_r. reflexivity.
      * destruct Hb as (B1 & B2 & B3 & B4 & B5 & B6 & B7). repeat split; assumption.
    + cbn [health active setActive setHealth].
      split; [lia |]. split.
      * rewrite Ha.
        rewrite (proj2 (Z.ltb_lt (Z.of_nat (S n)) (health e))) by lia.
        rewrite (proj2 (Z.ltb_lt (Z.of_nat n) (health e))) by lia.
        rewrite orb_true_r. reflexivity.
      * destruct Hb as (B1 & B2 & B3 & B4 & B5 & B6 & B7). repeat split; assumption.
Qed.

(** X26.  A bullet hit turns an enemy [x] into [damaged x].  An active enemy
    of health h > 0 that has taken n hits has health h - n and is still active
    exactly when n < h: the hit number h deactivates it.  Hits change neither
    its radius, nor its maxHealth, nor its position. *)
Theorem enemy_dies_at_hit_number_health (e : GameEntity) (n : nat) :
  active e = true -> (0 < health e)%Z ->
  (forall g i j b fx x,
      checkCollision b x = true ->
      snd (fst (bulletVsEnemies g i j b [x] fx)) = [damaged x])
  /\ health (Nat.iter n damaged e) = (health e - Z.of_nat n)%Z
  /\ (active (Nat.iter n damaged e) = true <-> (Z.of_nat n < health e)%Z)
  /\ (radius (Nat.iter n damaged e) = radius e
      /\ maxHealth (Nat.iter n damaged e) = maxHealth e
      /\ position (Nat.iter n damaged e) = position e).
Proof.
  intros Ha Hh. destruct (iter_damaged n e) as (H1 & H2 & H3).
  split.
  { intros g i j b fx x Hc. cbn [bulletVsEnemies]. rewrite Hc.
    unfold damaged. cbv zeta.
    destruct (health (setHealth x (health x - 1)) <=? 0)%Z; reflexivity. }
  split; [exact H1 |]. split.
  - rewrite H2, Ha. cbn [andb]. rewrite orb_true_iff, Nat.eqb_eq, Z.ltb_lt. lia.
  - destruct H3 as (_ & _ & B3 & _ & B5 & _ & B7). repeat split; assumption.
Qed.

Lemma enemy_dies_at_hit_number_health_witness :
  let e := newEnemy 0 (sphere 29) (1 / 2) (1 / 2) (1 / 2) (1 / 2) in
  active e = true /\ (0 < health e)%Z
  /\ active (Nat.iter 2 damaged e) = true
  /\ ~ active (Nat.iter 3 damaged e) = true.
Proof.
  cbv zeta.
  set (e := newEnemy 0 (sphere 29) (1 / 2) (1 / 2) (1 / 2) (1 / 2)).
  assert (Ha : active e = true) by reflexivity.
  assert (Hh : (0 < health e)%Z) by (simpl; lia).
  split; [exact Ha |]. split; [exact Hh |].
  destruct (enemy_dies_at_hit_number_health e 2 Ha Hh) as (_ & _ & H2 & _).
  destruct (enemy_dies_at_hit_number_health e 3 Ha Hh) as (_ & _ & H3 & _).
  split.
  - apply H2. simpl. lia.
  - intro H. apply H3 in H. simpl in H. lia.
Defined.

Lemma updateBullets_length (delta : R) (bullets : list GameEntity) :
  forall pool,
    (List.length (fst (updateBullets delta bullets pool)) <= List.length bullets)%nat.
Proof.
  induction bullets as [| b rest IH]; intro pool; simpl; [lia |].
  destruct (Rgtb _ 50 || Rltb _ (- 50)).
  - specialize (IH (releaseIfPool pool (mesh b))). lia.
  - specialize (IH pool). destruct (updateBullets delta rest pool) as [kept pool'].
    simpl in *. destruct (active b); simpl; lia.
Qed.

Lemma updateEnemies_length (delta : R) (p : Vec) (rnd : nat -> R)
      (enemies : list GameEntity) :
  forall k pool,
    (List.length (fst (fst (updateEnemies delta p rnd k enemies pool)))
     <= List.length enemies)%nat.
Proof.
  induction enemies as [| e rest IH]; intros k pool; simpl; [lia |].
  match goal with
  | |- context [Rgtb (Vector3.z (position ?e2)) 20] => set (e' := e2)
  end.
  destruct (Rgtb (Vector3.z (position e')) 20).
  - specialize (IH (S k) (releaseIfPool pool (mesh e'))). lia.
  - specialize (IH (S k) pool).
    destruct (updateEnemies delta p rnd (S k) rest pool) as [[kept pool'] k'].
    simpl in *. destruct (active e' && (0 <? health e')%Z); simpl; lia.
Qed.

Lemma updatePowerUps_length (delta : R) (powerUps : list GameEntity) :
  (List.length (updatePowerUps delta powerUps) <= List.length powerUps)%nat.
Proof.
  induction powerUps as [| q rest IH]; simpl; [lia |].
  destruct (Rgtb _ 20); [lia |]. destruct (active q); simpl; lia.
Qed.

Lemma splice1_length {A : Type} (index : nat) (a : list A) :
  (List.length (splice1 index a) <= List.length a)%nat.
Proof.
  unfold splice1. rewrite length_app, length_firstn, length_skipn. lia.
Qed.

Lemma playerVsPowerUps_length (g : GameState) (now : Z) (pe : GameEntity) :
  forall (visits index : nat) (ps : list GameEntity) (fx : Effects),
    (List.length (fst (playerVsPowerUps g now pe visits index ps fx))
     <= List.length ps)%nat.
Proof.
  induction visits as [| visits IH]; intros index ps fx; simpl; [lia |].
  destruct (nth_error ps index) as [q |]; [| apply IH].
  destruct (checkCollision pe q); [| apply IH].
  pose proof (splice1_length index ps) as Hs.
  match goal with |- context [playerVsPowerUps g now pe visits (S index) ?ps1 ?fx1] =>
    specialize (IH (S index) ps1 fx1) end.
  lia.
Qed.

Lemma enemySpawning_length (g : GameState) (delta : R) (now : Z) (rnd : nat -> R)
      (w : World) :
  (List.length (enemiesRef (enemySpawning g delta now rnd w))
   <= S (List.length (enemiesRef w)))%nat.
Proof.
  unfold enemySpawning. cbv zeta. destruct (Rgtb _ _).
  - unfold maybeSchedulePowerUp. cbn [enemiesRef setEnemySpawnTimer].
    rewrite spawnEnemy_length. cbn [enemiesRef enemyPoolRef setEnemySpawnTimer].
    destruct (enemyPoolRef w); lia.
  - cbn [enemiesRef setEnemySpawnTimer]. lia.
Qed.

(** X27.  A frame adds no bullet and no power-up to the stores, and at most
    one enemy. *)
Theorem frame_store_sizes (g : GameState) (delta : R) (now : Z) (rnd : nat -> R)
        (w : World) :
  let w' := world (frame g delta now rnd w) in
  (List.length (bulletsRef w') <= List.length (bulletsRef w))%nat
  /\ (List.length (powerUpsRef w') <= List.length (powerUpsRef w))%nat
  /\ (List.length (enemiesRef w') <= S (List.length (enemiesRef w)))%nat.
Proof.
  cbv zeta.
  destruct (frame_runs_or_idles g w) as [(Hs & p0 & Hp) | Hidle].
  2: { rewrite (frame_idle g delta now rnd w Hidle). cbn [world]. repeat split; lia. }
  unfold frame. rewrite Hs, Hp. cbn [Status_eqb].
  set (p := movePlayer (keysRef w) delta p0).
  pose proof (updateBullets_length delta (bulletsRef w) (bulletPoolRef w)) as Lb.
  pose proof (updateEnemies_length delta p rnd (enemiesRef w) (randomCalls w)
                                   (enemyPoolRef w)) as Le.
  pose proof (updatePowerUps_length delta (powerUpsRef w)) as Lp.
  destruct (updateBullets delta (bulletsRef w) (bulletPoolRef w)) as [bs1 bp1].
  destruct (updateEnemies delta p rnd (randomCalls w) (enemiesRef w) (enemyPoolRef w))
    as [[es1 ep1] k1].
  cbn [fst snd] in *.
  pose proof (bulletsVsEnemies_spec g bs1 es1 0%nat (mkFx bp1 ep1 [] [])) as H1.
  cbv zeta in H1.
  destruct (bulletsVsEnemies g 0 bs1 es1 (mkFx bp1 ep1 [] [])) as [[bs2 es2] fx1].
  pose proof (playerVsEnemies_spec g (playerEntityOf g p) es2 0%nat fx1) as H2.
  cbv zeta in H2.
  destruct (playerVsEnemies g (playerEntityOf g p) 0 es2 fx1) as [es3 fx2].
  pose proof (playerVsPowerUps_length g now (playerEntityOf g p)
                (List.length (updatePowerUps delta (powerUpsRef w))) 0
                (updatePowerUps delta (powerUpsRef w)) fx2) as H3.
  destruct (playerVsPowerUps g now (playerEntityOf g p) _ 0 _ fx2) as [ps2 fx3].
  cbn [fst snd] in *.
  destruct H1 as (Hbs & Hes & _). destruct H2 as (Hes3 & _).
  apply Forall2_length in Hbs, Hes.
  assert (Le3 : List.length es3 = List.length es2) by (rewrite Hes3; apply length_map).
  match goal with
  | |- context [enemySpawning g delta now rnd ?w1] =>
      pose proof (enemySpawning_spec g delta now rnd w1) as H4;
      pose proof (enemySpawning_length g delta now rnd w1) as H4l;
      set (w2 := enemySpawning g delta now rnd w1) in *
  end.
  cbv zeta in H4. cbn [playerRef bulletsRef enemiesRef powerUpsRef waveTimerRef] in H4, H4l.
  destruct H4 as (_ & Hb2 & Hpu2 & _).
  pose proof (waveProgression_spec g delta w2) as H5. cbv zeta in H5.
  destruct (waveProgression g delta w2) as [w3 qw]. cbn [fst snd world] in *.
  destruct H5 as (_ & Hb3 & Hen3 & Hpu3 & _).
  rewrite Hb3, Hb2, Hen3, Hpu3, Hpu2. repeat split; lia.
Qed.

Lemma Mesh_eqb_eq (a b : Mesh) : Mesh_eqb a b = true <-> a = b.
Proof.
  destruct a as [| i], b as [| j]; simpl; split; intro H;
    try reflexivity; try discriminate.
  - apply Nat.eqb_eq in H. subst. reflexivity.
  - inversion H. apply Nat.eqb_refl.
Qed.

Lemma setMeshPosition_same (pos : MeshPositions) (m : Mesh) (v : Vec) :
  setMeshPosition pos m v m = v.
Proof.
  unfold setMeshPosition. rewrite (proj2 (Mesh_eqb_eq m m) eq_refl). reflexivity.
Qed.

Lemma setMeshPosition_other (pos : MeshPositions) (m m' : Mesh) (v : Vec) :
  m' <> m -> setMeshPosition pos m v m' = pos m'.
Proof.
  intro Hne. unfold setMeshPosition.
  destruct (Mesh_eqb m' m) eqn:He; [| reflexivity].
  apply Mesh_eqb_eq in He. contradiction.
Qed.

Lemma advance_viewIn (pos : MeshPositions) (e : GameEntity) (delta : R) :
  advance (viewIn pos e) delta = viewIn (advanceShared pos e delta) e.
Proof.
  unfold advance, viewIn, advanceShared, setPosition. cbn [mesh position velocity].
  rewrite setMeshPosition_same. reflexivity.
Qed.

Lemma steer_viewIn (pos : MeshPositions) (e : GameEntity) :
  steer (pos playerMesh) (viewIn pos e) = viewIn pos (steerShared pos e).
Proof. reflexivity. Qed.

Lemma viewIn_ext (pos pos' : MeshPositions) (l : list GameEntity) :
  (forall m, In m (map mesh l) -> pos' m = pos m) ->
  map (viewIn pos') l = map (viewIn pos) l.
Proof.
  intro H. apply map_ext_in. intros e He. unfold viewIn.
  rewrite H; [reflexivity |]. apply in_map. exact He.
Qed.

Lemma advanceShared_elsewhere (pos : MeshPositions) (e : GameEntity) (delta : R)
      (l : list GameEntity) :
  ~ In (mesh e) (map mesh l) ->
  forall m, In m (map mesh l) -> advanceShared pos e delta m = pos m.
Proof.
  intros Hnot m Hm. unfold advanceShared. apply setMeshPosition_other.
  intro Heq. subst. contradiction.
Qed.

(** A filter moves the vectors of the meshes of its array only, and keeps
    entities of its array. *)
Lemma updateBulletsShared_frame (delta : R) (bullets : list GameEntity) :
  forall pool pos,
    let r := updateBulletsShared delta bullets pool pos in
    (forall m, ~ In m (map mesh bullets) -> snd r m = pos m)
    /\ incl (fst (fst r)) bullets.
Proof.
  induction bullets as [| b rest IH]; intros pool pos; cbv zeta.
  - split; [reflexivity | apply incl_refl].
  - cbn [updateBulletsShared map].
    set (pos1 := advanceShared pos b delta).
    assert (H1 : forall m, ~ In m (mesh b :: map mesh rest) -> pos1 m = pos m).
    { intros m Hm. unfold pos1, advanceShared. apply setMeshPosition_other.
      intro Heq. apply Hm. left. symmetry. exact Heq. }
    destruct (Rgtb _ 50 || Rltb _ (- 50)).
    + destruct (IH (releaseIfPool pool (mesh b)) pos1) as [IHf IHi].
      split.
      * intros m Hm. rewrite IHf; [apply H1; exact Hm |].
        intro Hin. apply Hm. right. exact Hin.
      * apply incl_tl. exact IHi.
    + destruct (IH pool pos1) as [IHf IHi].
      destruct (updateBulletsShared delta rest pool pos1) as [[kept pool'] pos'].
      cbn [fst snd] in *. split.
      * intros m Hm. rewrite IHf; [apply H1; exact Hm |].
        intro Hin. apply Hm. right. exact Hin.
      * destruct (active b).
        -- apply incl_cons; [left; reflexivity | apply incl_tl; exact IHi].
        -- apply incl_tl. exact IHi.
Qed.

Lemma steerShared_mesh (pos : MeshPositions) (e : GameEntity) :
  mesh (steerShared pos e) = mesh e.
Proof. reflexivity. Qed.

Lemma updateEnemiesShared_frame (delta : R) (rnd : nat -> R) (enemies : list GameEntity) :
  forall k pool pos,
    let r := updateEnemiesShared delta rnd k enemies pool pos in
    (forall m, ~ In m (map mesh enemies) -> snd r m = pos m)
    /\ incl (map mesh (fst (fst (fst r)))) (map mesh enemies).
Proof.
  induction enemies as [| e rest IH]; intros k pool pos; cbv zeta.
  - split; [reflexivity | apply incl_refl].
  - cbn [updateEnemiesShared map].
    set (pos1 := advanceShared pos e delta).
    set (e2 := if Rltb (rnd k) (1 / 100) then steerShared pos1 e else e).
    assert (Hmesh : mesh e2 = mesh e).
    { unfold e2. destruct (Rltb (rnd k) (1 / 100)); reflexivity. }
    assert (H1 : forall m, ~ In m (mesh e :: map mesh rest) -> pos1 m = pos m).
    { intros m Hm. unfold pos1, advanceShared. apply setMeshPosition_other.
      intro Heq. apply Hm. left. symmetry. exact Heq. }
    destruct (Rgtb _ 20).
    + destruct (IH (S k) (releaseIfPool pool (mesh e2)) pos1) as [IHf IHi].
      split.
      * intros m Hm. rewrite IHf; [apply H1; exact Hm |].
        intro Hin. apply Hm. right. exact Hin.
      * apply incl_tl. exact IHi.
    + destruct (IH (S k) pool pos1) as [IHf IHi].
      destruct (updateEnemiesShared delta rnd (S k) rest pool pos1)
        as [[[kept pool'] k'] pos'].
      cbn [fst snd] in *. split.
      * intros m Hm. rewrite IHf; [apply H1; exact Hm |].
        intro Hin. apply Hm. right. exact Hin.
      * destruct (active e2 && (0 <? health e2)%Z).
        -- cbn [map]. rewrite Hmesh.
           apply incl_cons; [left; reflexivity | apply incl_tl; exact IHi].
        -- apply incl_tl. exact IHi.
Qed.

Lemma updatePowerUpsShared_frame (delta : R) (powerUps : list GameEntity) :
  forall pos,
    let r := updatePowerUpsShared delta powerUps pos in
    (forall m, ~ In m (map mesh powerUps) -> snd r m = pos m)
    /\ incl (fst r) powerUps.
Proof.
  induction powerUps as [| p rest IH]; intros pos; cbv zeta.
  - split; [reflexivity | apply incl_refl].
  - cbn [updatePowerUpsShared map].
    set (pos1 := advanceShared pos p delta).
    assert (H1 : forall m, ~ In m (mesh p :: map mesh rest) -> pos1 m = pos m).
    { intros m Hm. unfold pos1, advanceShared. apply setMeshPosition_other.
      intro Heq. apply Hm. left. symmetry. exact Heq. }
    destruct (IH pos1) as [IHf IHi].
    destruct (Rgtb _ 20).
    + split.
      * intros m Hm. rewrite IHf; [apply H1; exact Hm |].
        intro Hin. apply Hm. right. exact Hin.
      * apply incl_tl. exact IHi.
    + destruct (updatePowerUpsShared delta rest pos1) as [kept pos'].
      cbn [fst snd] in *. split.
      * intros m Hm. rewrite IHf; [apply H1; exact Hm |].
        intro Hin. apply Hm. right. exact Hin.
      * destruct (active p).
        -- apply incl_cons; [left; reflexivity | apply incl_tl; exact IHi].
        -- apply incl_tl. exact IHi.
Qed.

(** When no two bullets hold the same mesh, the filter on the vectors of the
    meshes computes what the filter with one position for each bullet
    computes. *)
Lemma updateBulletsShared_unshared (delta : R) (bullets : list GameEntity) :
  forall pool pos,
    NoDup (map mesh bullets) ->
    let r := updateBulletsShared delta bullets pool pos in
    map (viewIn (snd r)) (fst (fst r))
    = fst (updateBullets delta (map (viewIn pos) bullets) pool)
    /\ snd (fst r) = snd (updateBullets delta (map (viewIn pos) bullets) pool).
Proof.
  induction bullets as [| b rest IH]; intros pool pos Hnd; cbv zeta.
  - split; reflexivity.
  - cbn [map] in Hnd. inversion Hnd as [| ? ? Hnot Hnd']; subst.
    cbn [updateBulletsShared updateBullets map].
    rewrite advance_viewIn.
    set (pos1 := advanceShared pos b delta).
    change (position (viewIn pos1 b)) with (pos1 (mesh b)).
    change (mesh (viewIn pos1 b)) with (mesh b).
    change (active (viewIn pos1 b)) with (active b).
    rewrite <- (viewIn_ext pos pos1 rest (advanceShared_elsewhere pos b delta rest Hnot)).
    destruct (Rgtb _ 50 || Rltb _ (- 50)).
    + apply IH. exact Hnd'.
    + destruct (IH pool pos1 Hnd') as [IH1 IH2].
      destruct (updateBulletsShared_frame delta rest pool pos1) as [Hf _].
      destruct (updateBulletsShared delta rest pool pos1) as [[kept pool'] pos'].
      cbn [fst snd] in *.
      destruct (updateBullets delta (map (viewIn pos1) rest) pool) as [kept0 pool0].
      cbn [fst snd] in *. subst kept0 pool0.
      split; [| reflexivity].
      destruct (active b); [| reflexivity].
      cbn [map]. unfold viewIn at 1. rewrite (Hf (mesh b) Hnot). reflexivity.
Qed.

Lemma updateEnemiesShared_unshared (delta : R) (rnd : nat -> R)
      (enemies : list GameEntity) :
  forall k pool pos,
    NoDup (map mesh enemies) -> ~ In playerMesh (map mesh enemies) ->
    let r := updateEnemiesShared delta rnd k enemies pool pos in
    let r0 := updateEnemies delta (pos playerMesh) rnd k (map (viewIn pos) enemies) pool in
    map (viewIn (snd r)) (fst (fst (fst r))) = fst (fst r0)
    /\ snd (fst (fst r)) = snd (fst r0)
    /\ snd (fst r) = snd r0.
Proof.
  induction enemies as [| e rest IH]; intros k pool pos Hnd Hpl; cbv zeta.
  - repeat split.
  - cbn [map] in Hnd, Hpl. inversion Hnd as [| ? ? Hnot Hnd']; subst.
    assert (Hpe : mesh e <> playerMesh).
    { intro Heq. apply Hpl. left. exact Heq. }
    assert (Hpl' : ~ In playerMesh (map mesh rest)).
    { intro Hin. apply Hpl. right. exact Hin. }
    cbn [updateEnemiesShared updateEnemies map].
    rewrite advance_viewIn.
    set (pos1 := advanceShared pos e delta).
    assert (Hp1 : pos1 playerMesh = pos playerMesh).
    { unfold pos1, advanceShared. apply setMeshPosition_other.
      intro Heq. apply Hpe. symmetry. exact Heq. }
    rewrite <- Hp1. rewrite steer_viewIn.
    set (e2 := if Rltb (rnd k) (1 / 100) then steerShared pos1 e else e).
    assert (He2 : (if Rltb (rnd k) (1 / 100)
                   then viewIn pos1 (steerShared pos1 e) else viewIn pos1 e)
                  = viewIn pos1 e2).
    { unfold e2. destruct (Rltb (rnd k) (1 / 100)); reflexivity. }
    rewrite He2.
    assert (Hmesh : mesh e2 = mesh e).
    { unfold e2. destruct (Rltb (rnd k) (1 / 100)); reflexivity. }
    change (position (viewIn pos1 e2)) with (pos1 (mesh e2)).
    change (mesh (viewIn pos1 e2)) with (mesh e2).
    change (active (viewIn pos1 e2)) with (active e2).
    change (health (viewIn pos1 e2)) with (health e2).
    rewrite <- (viewIn_ext pos pos1 rest (advanceShared_elsewhere pos e delta rest Hnot)).
    destruct (Rgtb _ 20).
    + apply IH; assumption.
    + destruct (IH (S k) pool pos1 Hnd' Hpl') as (IH1 & IH2 & IH3).
      destruct (updateEnemiesShared_frame delta rnd rest (S k) pool pos1) as [Hf _].
      destruct (updateEnemiesShared delta rnd (S k) rest pool pos1)
        as [[[kept pool'] k'] pos'].
      cbn [fst snd] in *.
      destruct (updateEnemies delta (pos1 playerMesh) rnd (S k)
                              (map (viewIn pos1) rest) pool) as [[kept0 pool0] k0].
      cbn [fst snd] in *. subst kept0 pool0 k0.
      split; [| split; reflexivity].
      destruct (active e2 && (0 <? health e2)%Z); [| reflexivity].
      cbn [map]. unfold viewIn at 1. rewrite Hmesh, (Hf (mesh e) Hnot), <- Hmesh.
      reflexivity.
Qed.

Lemma updatePowerUpsShared_unshared (delta : R) (powerUps : list GameEntity) :
  forall pos,
    NoDup (map mesh powerUps) ->
    let r := updatePowerUpsShared delta powerUps pos in
    map (viewIn (snd r)) (fst r) = updatePowerUps delta (map (viewIn pos) powerUps).
Proof.
  induction powerUps as [| p rest IH]; intros pos Hnd; cbv zeta.
  - reflexivity.
  - cbn [map] in Hnd. inversion Hnd as [| ? ? Hnot Hnd']; subst.
    cbn [updatePowerUpsShared updatePowerUps map].
    rewrite advance_viewIn.
    set (pos1 := advanceShared pos p delta).
    change (position (viewIn pos1 p)) with (pos1 (mesh p)).
    change (active (viewIn pos1 p)) with (active p).
    rewrite <- (viewIn_ext pos pos1 rest (advanceShared_elsewhere pos p delta rest Hnot)).
    specialize (IH pos1 Hnd'). cbv zeta in IH.
    destruct (updatePowerUpsShared_frame delta rest pos1) as [Hf _].
    destruct (Rgtb _ 20); [exact IH |].
    destruct (updatePowerUpsShared delta rest pos1) as [kept pos'].
    cbn [fst snd] in *.
    destruct (active p); [| exact IH].
    cbn [map]. rewrite IH. unfold viewIn at 1. rewrite (Hf (mesh p) Hnot). reflexivity.
Qed.

Lemma holders_nonempty (m : Mesh) (l : list GameEntity) :
  In m (map mesh l) -> (1 <= List.length (holders m l))%nat.
Proof.
  induction l as [| e l IH]; cbn [map holders filter]; intros Hin; [destruct Hin |].
  destruct (Mesh_eqb (mesh e) m) eqn:He; [cbn [List.length]; lia |].
  destruct Hin as [Heq | Hin]; [| apply IH; exact Hin].
  apply (proj2 (Mesh_eqb_eq (mesh e) m)) in Heq. congruence.
Qed.

Lemma holders_none (m : Mesh) (l : list GameEntity) :
  List.length (holders m l) = 0%nat -> ~ In m (map mesh l).
Proof.
  intros H0 Hin. pose proof (holders_nonempty m l Hin). lia.
Qed.

Lemma holders_cons (m : Mesh) (e : GameEntity) (l : list GameEntity) :
  List.length (holders m (e :: l))
  = ((if Mesh_eqb (mesh e) m then 1 else 0) + List.length (holders m l))%nat.
Proof. cbn [holders filter]. destruct (Mesh_eqb (mesh e) m); reflexivity. Qed.

Lemma holders_app (m : Mesh) (l1 l2 : list GameEntity) :
  List.length (holders m (l1 ++ l2))
  = (List.length (holders m l1) + List.length (holders m l2))%nat.
Proof. unfold holders. rewrite filter_app, length_app. reflexivity. Qed.

Lemma holders_NoDup (l : list GameEntity) :
  NoDup (map mesh l) ->
  forall m, In m (map mesh l) -> List.length (holders m l) = 1%nat.
Proof.
  induction l as [| e l IH]; cbn [map]; intros Hnd m Hin; [destruct Hin |].
  inversion Hnd as [| ? ? Hnot Hnd']; subst.
  rewrite holders_cons.
  destruct (Mesh_eqb (mesh e) m) eqn:He.
  - apply Mesh_eqb_eq in He. subst m.
    assert (H0 : List.length (holders (mesh e) l) = 0%nat).
    { destruct (List.length (holders (mesh e) l)) eqn:Hl; [reflexivity |].
      exfalso. apply Hnot.
      clear - Hl. induction l as [| x l IHl]; [discriminate Hl |].
      cbn [map]. rewrite holders_cons in Hl.
      destruct (Mesh_eqb (mesh x) (mesh e)) eqn:Hx.
      - left. apply Mesh_eqb_eq. exact Hx.
      - right. apply IHl. exact Hl. }
    rewrite H0. reflexivity.
  - destruct Hin as [Heq | Hin].
    + apply (proj2 (Mesh_eqb_eq (mesh e) m)) in Heq. congruence.
    + rewrite (IH Hnd' m Hin). reflexivity.
Qed.

(** What a filter keeps was in range when it was tested; when no other entity
    of the array holds its mesh, nothing moves it afterwards. *)
Lemma updateBulletsShared_culls (delta : R) (bullets : list GameEntity) :
  forall pool pos,
    let r := updateBulletsShared delta bullets pool pos in
    Forall (fun b => List.length (holders (mesh b) bullets) = 1%nat ->
                     -50 <= Vector3.z (snd r (mesh b)) <= 50)
           (fst (fst r)).
Proof.
  induction bullets as [| b rest IH]; intros pool pos; cbv zeta.
  - constructor.
  - cbn [updateBulletsShared].
    set (pos1 := advanceShared pos b delta).
    assert (Htail : forall pool1,
               Forall (fun x => List.length (holders (mesh x) (b :: rest)) = 1%nat ->
                                -50 <= Vector3.z
                                         (snd (updateBulletsShared delta rest pool1 pos1)
                                              (mesh x)) <= 50)
                      (fst (fst (updateBulletsShared delta rest pool1 pos1)))).
    { intro pool1. specialize (IH pool1 pos1). cbv zeta in IH.
      destruct (updateBulletsShared_frame delta rest pool1 pos1) as [_ Hi].
      apply Forall_forall. intros x Hx Hone.
      rewrite holders_cons in Hone.
      pose proof (holders_nonempty (mesh x) rest (in_map mesh _ _ (Hi x Hx))) as Hge.
      destruct (Mesh_eqb (mesh b) (mesh x)); [lia |].
      apply (proj1 (Forall_forall _ _) IH x Hx). exact Hone. }
    destruct (Rgtb _ 50 || Rltb _ (- 50)) eqn:Hfar; [apply Htail |].
    specialize (Htail pool).
    destruct (updateBulletsShared_frame delta rest pool pos1) as [Hf _].
    destruct (updateBulletsShared delta rest pool pos1) as [[kept pool'] pos'].
    cbn [fst snd] in *.
    destruct (active b); [| exact Htail].
    constructor; [| exact Htail].
    intro Hone. rewrite holders_cons in Hone.
    rewrite (proj2 (Mesh_eqb_eq (mesh b) (mesh b)) eq_refl) in Hone.
    rewrite Hf; [| apply holders_none; lia].
    apply orb_false_iff in Hfar. destruct Hfar as [H1 H2].
    unfold Rgtb in H1. apply Rltb_false_iff in H1. apply Rltb_false_iff in H2. lra.
Qed.

Lemma updateEnemiesShared_culls (delta : R) (rnd : nat -> R) (enemies : list GameEntity) :
  forall k pool pos,
    let r := updateEnemiesShared delta rnd k enemies pool pos in
    Forall (fun e => List.length (holders (mesh e) enemies) = 1%nat ->
                     Vector3.z (snd r (mesh e)) <= 20)
           (fst (fst (fst r))).
Proof.
  induction enemies as [| e rest IH]; intros k pool pos; cbv zeta.
  - constructor.
  - cbn [updateEnemiesShared].
    set (pos1 := advanceShared pos e delta).
    set (e2 := if Rltb (rnd k) (1 / 100) then steerShared pos1 e else e).
    assert (Hmesh : mesh e2 = mesh e).
    { unfold e2. destruct (Rltb (rnd k) (1 / 100)); reflexivity. }
    assert (Htail : forall pool1,
               Forall (fun x => List.length (holders (mesh x) (e :: rest)) = 1%nat ->
                                Vector3.z
                                  (snd (updateEnemiesShared delta rnd (S k) rest pool1 pos1)
                                       (mesh x)) <= 20)
                      (fst (fst (fst (updateEnemiesShared delta rnd (S k) rest pool1
                                                          pos1))))).
    { intro pool1. specialize (IH (S k) pool1 pos1). cbv zeta in IH.
      destruct (updateEnemiesShared_frame delta rnd rest (S k) pool1 pos1) as [_ Hi].
      apply Forall_forall. intros x Hx Hone.
      rewrite holders_cons in Hone.
      pose proof (holders_nonempty (mesh x) rest (Hi _ (in_map mesh _ _ Hx))) as Hge.
      destruct (Mesh_eqb (mesh e) (mesh x)); [lia |].
      apply (proj1 (Forall_forall _ _) IH x Hx). exact Hone. }
    destruct (Rgtb _ 20) eqn:Hfar; [apply Htail |].
    specialize (Htail pool).
    destruct (updateEnemiesShared_frame delta rnd rest (S k) pool pos1) as [Hf _].
    destruct (updateEnemiesShared delta rnd (S k) rest pool pos1)
      as [[[kept pool'] k'] pos'].
    cbn [fst snd] in *.
    destruct (active e2 && (0 <? health e2)%Z); [| exact Htail].
    constructor; [| exact Htail].
    intro Hone. rewrite Hmesh in *. rewrite holders_cons in Hone.
    rewrite (proj2 (Mesh_eqb_eq (mesh e) (mesh e)) eq_refl) in Hone.
    rewrite Hf; [| apply holders_none; lia].
    unfold Rgtb in Hfar. apply Rltb_false_iff in Hfar. lra.
Qed.

Lemma updatePowerUpsShared_culls (delta : R) (powerUps : list GameEntity) :
  forall pos,
    let r := updatePowerUpsShared delta powerUps pos in
    Forall (fun q => List.length (holders (mesh q) powerUps) = 1%nat ->
                     Vector3.z (snd r (mesh q)) <= 20)
           (fst r).
Proof.
  induction powerUps as [| p rest IH]; intros pos; cbv zeta.
  - constructor.
  - cbn [updatePowerUpsShared].
    set (pos1 := advanceShared pos p delta).
    assert (Htail :
               Forall (fun x => List.length (holders (mesh x) (p :: rest)) = 1%nat ->
                                Vector3.z (snd (updatePowerUpsShared delta rest pos1)
                                               (mesh x)) <= 20)
                      (fst (updatePowerUpsShared delta rest pos1))).
    { specialize (IH pos1). cbv zeta in IH.
      destruct (updatePowerUpsShared_frame delta rest pos1) as [_ Hi].
      apply Forall_forall. intros x Hx Hone.
      rewrite holders_cons in Hone.
      pose proof (holders_nonempty (mesh x) rest (in_map mesh _ _ (Hi x Hx))) as Hge.
      destruct (Mesh_eqb (mesh p) (mesh x)); [lia |].
      apply (proj1 (Forall_forall _ _) IH x Hx). exact Hone. }
    destruct (Rgtb _ 20) eqn:Hfar; [exact Htail |].
    destruct (updatePowerUpsShared_frame delta rest pos1) as [Hf _].
    destruct (updatePowerUpsShared delta rest pos1) as [kept pos'].
    cbn [fst snd] in *.
    destruct (active p); [| exact Htail].
    constructor; [| exact Htail].
    intro Hone. rewrite holders_cons in Hone.
    rewrite (proj2 (Mesh_eqb_eq (mesh p) (mesh p)) eq_refl) in Hone.
    rewrite Hf; [| apply holders_none; lia].
    unfold Rgtb in Hfar. apply Rltb_false_iff in Hfar. lra.
Qed.

(** X6.  The update pass, on the vectors of the meshes.  At the end of the
    pass, a bullet it has kept whose mesh no other entity of the stores
    holds has z in [-50, 50], and an enemy or a power-up it has kept whose
    mesh no other entity holds has z <= 20.  So when no mesh is held by two
    entities, every bullet kept has z in [-50, 50] and every enemy and
    power-up kept has z <= 20. *)
Theorem update_pass_culls (delta : R) (rnd : nat -> R) (w : World) (pos : MeshPositions) :
  let r := updatePassShared delta rnd w pos in
  (Forall (fun b => heldOnce w (mesh b) ->
                    -50 <= Vector3.z (up_positions r (mesh b)) <= 50) (up_bullets r)
   /\ Forall (fun e => heldOnce w (mesh e) ->
                       Vector3.z (up_positions r (mesh e)) <= 20) (up_enemies r)
   /\ Forall (fun q => heldOnce w (mesh q) ->
                       Vector3.z (up_positions r (mesh q)) <= 20) (up_powerUps r))
  /\ (unshared w ->
      Forall (fun b => -50 <= Vector3.z (up_positions r (mesh b)) <= 50) (up_bullets r)
      /\ Forall (fun e => Vector3.z (up_positions r (mesh e)) <= 20) (up_enemies r)
      /\ Forall (fun q => Vector3.z (up_positions r (mesh q)) <= 20) (up_powerUps r)).
Proof.
  cbv zeta. unfold heldOnce, unshared, updatePassShared.
  pose proof (updateBulletsShared_culls delta (bulletsRef w) (bulletPoolRef w) pos) as Cb.
  destruct (updateBulletsShared_frame delta (bulletsRef w) (bulletPoolRef w) pos)
    as [_ Ib].
  cbv zeta in Cb.
  destruct (updateBulletsShared delta (bulletsRef w) (bulletPoolRef w) pos)
    as [[bs bp] pos1].
  cbn [fst snd] in *.
  pose proof (updateEnemiesShared_culls delta rnd (enemiesRef w) (randomCalls w)
                                        (enemyPoolRef w) pos1) as Ce.
  destruct (updateEnemiesShared_frame delta rnd (enemiesRef w) (randomCalls w)
                                      (enemyPoolRef w) pos1) as [Fe Ie].
  cbv zeta in Ce.
  destruct (updateEnemiesShared delta rnd (randomCalls w) (enemiesRef w)
                                (enemyPoolRef w) pos1) as [[[es ep] k1] pos2].
  cbn [fst snd] in *.
  pose proof (updatePowerUpsShared_culls delta (powerUpsRef w) pos2) as Cp.
  destruct (updatePowerUpsShared_frame delta (powerUpsRef w) pos2) as [Fp Ip].
  cbv zeta in Cp.
  destruct (updatePowerUpsShared delta (powerUpsRef w) pos2) as [ps pos3].
  cbn [fst snd up_positions up_bullets up_enemies up_powerUps] in *.
  assert (Hlocal :
            Forall (fun b =>
                      List.length (holders (mesh b)
                                           (bulletsRef w ++ enemiesRef w ++ powerUpsRef w))
                      = 1%nat ->
                      -50 <= Vector3.z (pos3 (mesh b)) <= 50) bs
            /\ Forall (fun e =>
                         List.length (holders (mesh e)
                                              (bulletsRef w ++ enemiesRef w
                                                          ++ powerUpsRef w))
                         = 1%nat ->
                         Vector3.z (pos3 (mesh e)) <= 20) es
            /\ Forall (fun q =>
                         List.length (holders (mesh q)
                                              (bulletsRef w ++ enemiesRef w
                                                          ++ powerUpsRef w))
                         = 1%nat ->
                         Vector3.z (pos3 (mesh q)) <= 20) ps).
  { split; [| split].
    - apply Forall_forall. intros b Hin Hone. rewrite !holders_app in Hone.
      pose proof (holders_nonempty _ _ (in_map mesh _ _ (Ib b Hin))) as Hge.
      rewrite Fp, Fe; try (apply holders_none; lia).
      apply (proj1 (Forall_forall _ _) Cb b Hin). lia.
    - apply Forall_forall. intros e Hin Hone. rewrite !holders_app in Hone.
      pose proof (holders_nonempty _ _ (Ie _ (in_map mesh _ _ Hin))) as Hge.
      rewrite Fp; try (apply holders_none; lia).
      apply (proj1 (Forall_forall _ _) Ce e Hin). lia.
    - apply Forall_forall. intros q Hin Hone. rewrite !holders_app in Hone.
      pose proof (holders_nonempty _ _ (in_map mesh _ _ (Ip q Hin))) as Hge.
      apply (proj1 (Forall_forall _ _) Cp q Hin). lia. }
  split; [exact Hlocal |].
  intro Hnd. destruct Hlocal as (Hb & He & Hp).
  pose proof (holders_NoDup _ Hnd) as Hone.
  rewrite !map_app in Hone.
  split; [| split].
  - apply Forall_forall. intros b Hin.
    apply (proj1 (Forall_forall _ _) Hb b Hin). apply Hone.
    apply in_or_app. left. apply in_map, Ib, Hin.
  - apply Forall_forall. intros e Hin.
    apply (proj1 (Forall_forall _ _) He e Hin). apply Hone.
    apply in_or_app. right. apply in_or_app. left. apply Ie, in_map, Hin.
  - apply Forall_forall. intros q Hin.
    apply (proj1 (Forall_forall _ _) Hp q Hin). apply Hone.
    apply in_or_app. right. apply in_or_app. right. apply in_map, Ip, Hin.
Qed.

(** X10.  The bullet filter, on the vectors of the meshes.  It moves no
    vector but those of the bullets' meshes.  When no two bullets hold the
    same mesh it keeps, in order, exactly the moved bullets that are in range
    and active, and appends to the pool the meshes of exactly the moved
    bullets that are out of range, active or not; every bullet is kept, out
    of range, or in range and inactive (dropped without a release). *)
Theorem bullet_filter_keeps_and_releases (delta : R) (bullets : list GameEntity)
        (a : MeshPool) (pos : MeshPositions) :
  let moved := map (fun b => advance (viewIn pos b) delta) bullets in
  let r := updateBulletsShared delta bullets (Some a) pos in
  (forall m, ~ In m (map mesh bullets) -> snd r m = pos m)
  /\ (NoDup (map mesh bullets) ->
      map (viewIn (snd r)) (fst (fst r))
      = filter (fun b => negb (bulletTooFar b) && active b) moved
      /\ snd (fst r) = Some (a ++ map mesh (filter bulletTooFar moved))
      /\ List.length bullets
         = (List.length (fst (fst r)) + List.length (filter bulletTooFar moved)
            + List.length (filter (fun b => negb (bulletTooFar b) && negb (active b))
                                  moved))%nat).
Proof.
  cbv zeta. split.
  { apply (updateBulletsShared_frame delta bullets (Some a) pos). }
  intro Hnd.
  destruct (updateBulletsShared_unshared delta bullets (Some a) pos Hnd) as [Hk Hp].
  destruct (updateBullets_as_filter delta (map (viewIn pos) bullets) (Some a))
    as [Hk0 Hp0].
  rewrite map_map in Hk0, Hp0.
  rewrite Hk0 in Hk. rewrite Hp0, releaseAllIfPool_Some in Hp.
  split; [exact Hk |]. split; [exact Hp |].
  rewrite <- (length_map (viewIn (snd (updateBulletsShared delta bullets (Some a) pos)))
                         (fst (fst (updateBulletsShared delta bullets (Some a) pos)))).
  rewrite Hk.
  rewrite <- (length_map (fun b => advance (viewIn pos b) delta) bullets).
  generalize (map (fun b => advance (viewIn pos b) delta) bullets) as l. intro l.
  induction l as [| b l IH]; [reflexivity |].
  cbn [filter List.length].
  destruct (bulletTooFar b), (active b); cbn [negb andb List.length]; lia.
Qed.

Lemma update_pass_culls_witness :
  let r := updatePassShared (1 / 100) (fun _ => 1 / 2) oneBulletTwoEnemies (allAt 10) in
  unshared oneBulletTwoEnemies
  /\ Forall (fun b => -50 <= Vector3.z (up_positions r (mesh b)) <= 50) (up_bullets r)
  /\ Forall (fun e => Vector3.z (up_positions r (mesh e)) <= 20) (up_enemies r).
Proof.
  cbv zeta.
  assert (Hu : unshared oneBulletTwoEnemies).
  { unfold unshared. cbn.
    repeat constructor; cbn; intuition discriminate. }
  destruct (update_pass_culls (1 / 100) (fun _ => 1 / 2) oneBulletTwoEnemies (allAt 10))
    as [_ Hall].
  destruct (Hall Hu) as (Hb & He & _).
  split; [exact Hu |]. split; [exact Hb | exact He].
Defined.

Lemma bullet_filter_keeps_and_releases_witness :
  let moved := map (fun b => advance (viewIn twoBulletsPositions b) 1) twoBullets in
  let r := updateBulletsShared 1 twoBullets (Some []) twoBulletsPositions in
  NoDup (map mesh twoBullets)
  /\ map (viewIn (snd r)) (fst (fst r))
     = filter (fun b => negb (bulletTooFar b) && active b) moved
  /\ snd (fst r) = Some ([] ++ map mesh (filter bulletTooFar moved)).
Proof.
  cbv zeta.
  assert (Hnd : NoDup (map mesh twoBullets)).
  { cbn. repeat constructor; cbn; intuition discriminate. }
  destruct (bullet_filter_keeps_and_releases 1 twoBullets [] twoBulletsPositions)
    as [_ H].
  destruct (H Hnd) as (H1 & H2 & _).
  split; [exact Hnd |]. split; [exact H1 | exact H2].
Defined.

(** Two bullets that hold one mesh move its vector twice in a frame.  Here
    the first is kept when the vector is at z = 26, the second takes it to
    z = 51 and is culled: the bullet that was kept ends the pass out of
    range, and its mesh is back in the pool. *)
Lemma shared_mesh_escapes_the_cull :
  let r := updateBulletsShared (5 / 4) twoHolders (Some []) (allAt 1) in
  map id (fst (fst r)) = [IdBullet 0]
  /\ snd (fst r) = Some [sphere 19]
  /\ snd r (sphere 19) = Vector3.mk 0 0 51.
Proof.
  cbv zeta. unfold twoHolders, allAt.
  cbn [updateBulletsShared mesh active]. unfold advanceShared. cbn [mesh velocity].
  rewrite !setMeshPosition_same.
  cbn [Vector3.add Vector3.multiplyScalar Vector3.x Vector3.y Vector3.z].
  unfold Rgtb, Rltb.
  repeat match goal with
         | |- context [Rlt_dec ?a ?b] => destruct (Rlt_dec a b); try lra
         end.
  cbn [orb fst snd map id releaseIfPool].
  split; [reflexivity |]. split; [reflexivity |].
  rewrite setMeshPosition_same.
  unfold Vector3.add, Vector3.multiplyScalar. cbn [Vector3.x Vector3.y Vector3.z].
  f_equal; lra.
Qed.

(** A bullet that has hit stays in the array until the next filter, while its
    mesh is back in the pool.  The bullet of a shot fired in between gets that
    mesh, and the next filter moves the vector once for each of the two: the
    new bullet, one unit ahead of the player, is moved by 2 * 20 * delta. *)
Lemma reused_mesh_moves_twice :
  let r := updateBulletsShared (1 / 64) spentAndFresh (Some []) (allAt 1) in
  map id (fst (fst r)) = [IdBullet 200]
  /\ snd r (sphere 19) = Vector3.mk 0 0 (13 / 8)
  /\ map position (fst (updateBullets (1 / 64) (map (viewIn (allAt 1)) spentAndFresh)
                                      (Some [])))
     = [Vector3.mk 0 0 (21 / 16)].
Proof.
  cbv zeta. unfold spentAndFresh, allAt.
  cbn [updateBulletsShared updateBullets map mesh active].
  unfold advanceShared, advance, viewIn, setPosition.
  cbn [mesh velocity active position].
  rewrite !setMeshPosition_same.
  cbn [Vector3.add Vector3.multiplyScalar Vector3.x Vector3.y Vector3.z].
  unfold Rgtb, Rltb.
  repeat match goal with
         | |- context [Rlt_dec ?a ?b] => destruct (Rlt_dec a b); try lra
         end.
  cbn [orb fst snd map id position].
  split; [reflexivity |].
  rewrite setMeshPosition_same.
  unfold Vector3.add, Vector3.multiplyScalar. cbn [Vector3.x Vector3.y Vector3.z].
  split; [f_equal; lra |].
  f_equal. f_equal; lra.
Qed.

Lemma fill_createSphere (n : nat) :
  forall (a : MeshPool) (h : nat),
    fill createSphere n a h = (a ++ spheres h n, (n + h)%nat).
Proof.
  induction n as [| n IH]; intros a h.
  - cbn. rewrite app_nil_r. reflexivity.
  - cbn [fill createSphere]. rewrite IH. unfold push, spheres.
    cbn [seq map]. rewrite <- app_assoc. cbn [app].
    f_equal. lia.
Qed.

Lemma mountController_refs (h k : nat) :
  let w := mountController h k in
  bulletsRef w = [] /\ enemiesRef w = [] /\ powerUpsRef w = []
  /\ playerRef w = Some Vector3.zero
  /\ lastShotRef w = 0%Z /\ waveTimerRef w = 0 /\ enemySpawnTimerRef w = 0
  /\ (forall code, keysRef w code = false)
  /\ bulletPoolRef w = Some (spheres h 20)
  /\ enemyPoolRef w = Some (spheres (20 + h) 10).
Proof.
  cbv zeta. unfold mountController, attachRefs, initPools, newObjectPool.
  cbn [heap]. rewrite !fill_createSphere. cbn [app].
  cbn [bulletsRef enemiesRef powerUpsRef playerRef lastShotRef waveTimerRef
       enemySpawnTimerRef keysRef bulletPoolRef enemyPoolRef].
  repeat split; reflexivity.
Qed.

Lemma togglePause_twice (g : GameState) :
  status g = playing -> togglePause (togglePause g) = g.
Proof. destruct g as [s ? ? ? ? ? ? ? ? ? ?]. cbn. intros ->. reflexivity. Qed.


